(** * sapfo-dl: the download script [download.py]

    A shallow embedding of [download.py]: the brace expansion of URLs, the
    body sanitizer, the choice of a config entry, the pagination controls
    and the names of the page files, the metadata record, and the order in
    which [main] puts them together; with the properties the specification
    states about them.

    Conventions of the embedding.
    - A Python [str] is a [list ascii]: the characters are the code points
      below 256.  [\d] is [0-9] and [\s] is the white space of that range.
    - The regular expressions written in the source are values of
      [Re.regex], a small backtracking matcher that follows the order in
      which Python's [re] tries alternatives (greedy: longest first, lazy:
      shortest first).  The regular expressions of the configuration file
      are not known to the script: there [re] is a parameter, and so are the
      network, the page template and the creation of the directory.
    - The file system is a state of a type that is a parameter too; the
      calls that write ([write_file], [create_directory]) take the state and
      return the state after the call with their outcome, which can be an
      exception.
    - An exception is a value [Raise msg] of the type [result]; nothing
      catches one, so it ends the run.  What the script prints is left
      out. *)

From Stdlib Require Import Decimal DecimalNat.
From Stdlib Require Import Ascii String Arith Bool Lia List.
Import ListNotations.

Local Open Scope list_scope.
Local Open Scope char_scope.

(** ** Strings *)

Definition text := list ascii.

Definition lit (s : string) : text := list_ascii_of_string s.

(** The double quote, the line feed and the other characters the source
    names by an escape. *)
Definition dquote : ascii := "034".
Definition newline : ascii := "010".

Definition text_eqb (a b : text) : bool :=
  if list_eq_dec ascii_dec a b then true else false.

(** [s.startswith(p)], returning what follows the prefix. *)
Fixpoint strip_prefix (p s : text) : option text :=
  match p, s with
  | [], _ => Some s
  | _ :: _, [] => None
  | a :: p', b :: s' => if Ascii.eqb a b then strip_prefix p' s' else None
  end.

Definition startswith (s p : text) : bool :=
  match strip_prefix p s with Some _ => true | None => false end.

(** [s.endswith(p)] *)
Definition endswith (s p : text) : bool := startswith (rev s) (rev p).

(** The leftmost occurrence of a non-empty [old] in [s]: the text before it
    and the text after it ([s.partition(old)]). *)
Fixpoint find_split (old s : text) : option (text * text) :=
  match strip_prefix old s with
  | Some rest => Some ([], rest)
  | None =>
      match s with
      | [] => None
      | c :: s' =>
          match find_split old s' with
          | Some (pre, post) => Some (c :: pre, post)
          | None => None
          end
      end
  end.

(** [s.replace(old, new, count)]; [count = None] is Python's default, every
    occurrence.  The occurrences are taken from the left and do not overlap.
    With an empty [old], Python puts [new] in front of every character and
    at the end. *)
Fixpoint replace_loop (fuel : nat) (old new : text) (count : option nat)
         (s : text) : text :=
  match fuel, count with
  | O, _ => s
  | _, Some O => s
  | S fuel', _ =>
      match find_split old s with
      | None => s
      | Some (pre, post) =>
          pre ++ new ++ replace_loop fuel' old new (option_map pred count) post
      end
  end.

Fixpoint intersperse_first (new : text) (count : option nat) (s : text) : text :=
  match count with
  | Some O => s
  | _ =>
      new ++ match s with
             | [] => []
             | c :: s' => c :: intersperse_first new (option_map pred count) s'
             end
  end.

Definition replace_count (s old new : text) (count : option nat) : text :=
  match old with
  | [] => intersperse_first new count s
  | _ :: _ => replace_loop (S (length s)) old new count s
  end.

Definition replace (s old new : text) : text := replace_count s old new None.

(** [s.count(old)] for a non-empty [old]. *)
Fixpoint count_loop (fuel : nat) (old s : text) : nat :=
  match fuel with
  | O => 0
  | S fuel' =>
      match find_split old s with
      | None => 0
      | Some (_, post) => S (count_loop fuel' old post)
      end
  end.

Definition count_sub (s old : text) : nat := count_loop (S (length s)) old s.

(** [s.split(sep)] for a separator of one character. *)
Fixpoint split (sep : ascii) (s : text) : list text :=
  match s with
  | [] => [[]]
  | c :: s' =>
      if Ascii.eqb c sep then [] :: split sep s'
      else match split sep s' with
           | [] => [[c]]
           | t :: ts => (c :: t) :: ts
           end
  end.

(** [sep.join(parts)] *)
Fixpoint join (sep : text) (parts : list text) : text :=
  match parts with
  | [] => []
  | [p] => p
  | p :: ps => p ++ sep ++ join sep ps
  end.

(** ** Numbers and their decimal notation *)

Definition is_digit (c : ascii) : bool :=
  let n := nat_of_ascii c in (Nat.leb 48 n && Nat.leb n 57)%bool.

Definition is_zero (c : ascii) : bool := Ascii.eqb c "0".

Fixpoint digits_of_uint (u : uint) : text :=
  match u with
  | Nil => []
  | D0 u => "0" :: digits_of_uint u
  | D1 u => "1" :: digits_of_uint u
  | D2 u => "2" :: digits_of_uint u
  | D3 u => "3" :: digits_of_uint u
  | D4 u => "4" :: digits_of_uint u
  | D5 u => "5" :: digits_of_uint u
  | D6 u => "6" :: digits_of_uint u
  | D7 u => "7" :: digits_of_uint u
  | D8 u => "8" :: digits_of_uint u
  | D9 u => "9" :: digits_of_uint u
  end.

Fixpoint uint_of_digits (s : text) : uint :=
  match s with
  | [] => Nil
  | c :: s' =>
      let u := uint_of_digits s' in
      match nat_of_ascii c - 48 with
      | 0 => D0 u | 1 => D1 u | 2 => D2 u | 3 => D3 u | 4 => D4 u
      | 5 => D5 u | 6 => D6 u | 7 => D7 u | 8 => D8 u | _ => D9 u
      end
  end.

(** [int(s)] for a string of decimal digits.  (Python 3.11 and later refuse
    a string of more than 4300 digits unless the limit is lifted; the
    embedding has no such limit.) *)
Definition int (s : text) : nat := Nat.of_uint (uint_of_digits s).

(** [str(n)] for a number that is not negative. *)
Definition str (n : nat) : text := digits_of_uint (Nat.to_uint n).

(** [s.zfill(width)] for a string without a sign. *)
Definition zfill (width : nat) (s : text) : text :=
  repeat "0" (width - length s) ++ s.

(** [range(a, b)] *)
Definition range (a b : nat) : list nat := seq a (b - a).

(** ** Exceptions *)

Inductive result (A : Type) : Type :=
| Ok (a : A)
| Raise (msg : string).
Arguments Ok {A} a.
Arguments Raise {A} msg.

Definition bind {A B : Type} (r : result A) (f : A -> result B) : result B :=
  match r with
  | Ok a => f a
  | Raise msg => Raise msg
  end.

Definition raises {A : Type} (r : result A) : Prop :=
  exists msg, r = Raise msg.

(** ** The regular expressions of the source *)

Module Re.

(** The constructs that occur in the patterns of [download.py]: a literal
    character, a repeated character class ([c*], [c+], [c*?], [c+?]), the
    two ends of a capturing group, and a negative look-ahead over literal
    alternatives. *)
Inductive node : Type :=
| Chr (c : ascii)
| Rep (cls : ascii -> bool) (min : nat) (greedy : bool)
| Open (g : nat)
| Close (g : nat)
| NotAhead (alts : list text).

Definition regex := list node.

Definition chars (s : string) : regex := map Chr (lit s).
Definition star (cls : ascii -> bool) : node := Rep cls 0 true.
Definition plus (cls : ascii -> bool) : node := Rep cls 1 true.
Definition star_lazy (cls : ascii -> bool) : node := Rep cls 0 false.
Definition plus_lazy (cls : ascii -> bool) : node := Rep cls 1 false.

(** [.] without DOTALL, and [[^>]]. *)
Definition dot (c : ascii) : bool := negb (Ascii.eqb c newline).
Definition not_gt (c : ascii) : bool := negb (Ascii.eqb c ">").

Definition env := list (nat * text).

Fixpoint lookup (g : nat) (e : env) : option text :=
  match e with
  | [] => None
  | (h, t) :: e' => if Nat.eqb g h then Some t else lookup g e'
  end.

Definition orelse {R : Type} (a b : option R) : option R :=
  match a with Some r => Some r | None => b end.

(** A repeated class, followed by the rest of the pattern [k]: [min]
    characters are required; after them a greedy repetition first tries
    one more character and falls back on [k], a lazy one first tries [k]. *)
Fixpoint rep {R : Type} (cls : ascii -> bool) (greedy : bool)
         (k : text -> option R) (min : nat) (s : text) {struct s} : option R :=
  let more :=
    match s with
    | x :: s' => if cls x then rep cls greedy k (pred min) s' else None
    | [] => None
    end in
  match min with
  | S _ => more
  | O => if greedy then orelse more (k s) else orelse (k s) more
  end.

(** The text between the opening mark of group [g] and the current
    position. *)
Definition captured (marks : env) (g : nat) (s : text) : text :=
  match lookup g marks with
  | Some s0 => firstn (length s0 - length s) s0
  | None => []
  end.

(** Match [pat] at the start of [s]: what is left of [s] and the groups. *)
Fixpoint run (pat : regex) (marks caps : env) (s : text) {struct pat}
  : option (text * env) :=
  match pat with
  | [] => Some (s, caps)
  | Chr c :: pat' =>
      match s with
      | x :: s' => if Ascii.eqb x c then run pat' marks caps s' else None
      | [] => None
      end
  | Rep cls min greedy :: pat' => rep cls greedy (run pat' marks caps) min s
  | Open g :: pat' => run pat' ((g, s) :: marks) caps s
  | Close g :: pat' => run pat' marks ((g, captured marks g s) :: caps) s
  | NotAhead alts :: pat' =>
      if existsb (startswith s) alts then None else run pat' marks caps s
  end.

(** A match object: the text before the match, the match ([group(0)]),
    the text after it, and the groups. *)
Record rmatch : Type := {
  m_pre : text;
  m_whole : text;
  m_post : text;
  m_groups : env
}.

Definition shift (c : ascii) (m : rmatch) : rmatch :=
  {| m_pre := c :: m_pre m; m_whole := m_whole m;
     m_post := m_post m; m_groups := m_groups m |}.

(** [re.search(pat, s)]: the leftmost position at which [pat] matches. *)
Fixpoint search (pat : regex) (s : text) : option rmatch :=
  match run pat [] [] s with
  | Some (rest, caps) =>
      Some {| m_pre := []; m_whole := firstn (length s - length rest) s;
              m_post := rest; m_groups := caps |}
  | None =>
      match s with
      | [] => None
      | c :: s' => option_map (shift c) (search pat s')
      end
  end.

(** [m.group(g)] for [g >= 1].  Every group of the patterns below takes
    part in every match, so the lookup cannot fail on a match. *)
Definition group (m : rmatch) (g : nat) : text :=
  match lookup g (m_groups m) with Some t => t | None => [] end.

(** [re.sub(pat, repl, s, count)], where [repl m] is the expansion of the
    replacement template at the match [m].  [count = 0] is Python's "no
    limit".  The matches are found from the left, each search starting
    where the previous match ended.  No pattern of the script matches the
    empty text ([sub] and [split] stop at an empty match, which therefore
    never happens). *)
Fixpoint sub_loop (fuel : nat) (pat : regex) (repl : rmatch -> text)
         (limited : bool) (left : nat) (s : text) : text :=
  match fuel with
  | O => s
  | S fuel' =>
      if limited && Nat.eqb left 0 then s
      else
        match search pat s with
        | None => s
        | Some m =>
            match m_whole m with
            | [] => s
            | _ :: _ =>
                m_pre m ++ repl m ++
                sub_loop fuel' pat repl limited (pred left) (m_post m)
            end
        end
  end.

Definition sub (pat : regex) (repl : rmatch -> text) (s : text)
           (count : nat) : text :=
  sub_loop (S (length s)) pat repl (negb (Nat.eqb count 0)) count s.

(** [re.split(pat, s)] for a pattern without groups. *)
Fixpoint split_loop (fuel : nat) (pat : regex) (s : text) : list text :=
  match fuel with
  | O => [s]
  | S fuel' =>
      match search pat s with
      | None => [s]
      | Some m =>
          match m_whole m with
          | [] => [s]
          | _ :: _ => m_pre m :: split_loop fuel' pat (m_post m)
          end
      end
  end.

Definition split (pat : regex) (s : text) : list text :=
  split_loop (S (length s)) pat s.

(** The flag constant, as [re] defines it. *)
Definition IGNORECASE : nat := 2.
Definition DOTALL : nat := 16.

End Re.

(** ** [expand_url] *)

(** The pattern of [dotexp]: an opening brace, group 1 [0*], group 2 [\d+],
    two literal dots, group 3 [\d+], a closing brace. *)
Definition dotexp_re : Re.regex :=
  [Re.Chr "{"; Re.Open 1; Re.star is_zero; Re.Close 1;
   Re.Open 2; Re.plus is_digit; Re.Close 2;
   Re.Chr "."; Re.Chr ".";
   Re.Open 3; Re.plus is_digit; Re.Close 3; Re.Chr "}"].

(** The pattern of [commaexp]: an opening brace, group 1 [.+?], a closing
    brace. *)
Definition commaexp_re : Re.regex :=
  [Re.Chr "{"; Re.Open 1; Re.plus_lazy Re.dot; Re.Close 1; Re.Chr "}"].

Definition expand_url (raw_url : text) : result (list text) :=
  let dotexp := Re.search dotexp_re raw_url in
  let commaexp := Re.search commaexp_re raw_url in
  match dotexp, commaexp with
  | None, None => Ok [raw_url]
  | Some d, _ =>
      let old := Re.m_whole d in
      let zpadding := Re.group d 1 in
      let start := Re.group d 2 in
      let end_ := Re.group d 3 in
      if Nat.ltb (int end_) (int start)
      then Raise "Negative dotexpansion not supported"
      else
        let new := map (fun num => zfill (length zpadding + 1) (str num))
                       (range (int start) (int end_ + 1)) in
        Ok (map (fun n => replace raw_url old n) new)
  | None, Some c =>
      let old := Re.m_whole c in
      let new := split "," (Re.group c 1) in
      Ok (map (fun n => replace raw_url old n) new)
  end.

(** ** [sanitize_body] *)

(** [\s] on the code points below 256. *)
Definition is_space (c : ascii) : bool :=
  let n := nat_of_ascii c in
  (Nat.leb 9 n && Nat.leb n 13) || (Nat.leb 28 n && Nat.leb n 32)
  || Nat.eqb n 133 || Nat.eqb n 160.

(** The pattern of the first substitution: the text [<a href=], a double
    quote, and the negative look-ahead [(?!http://|www)]. *)
Definition link_re : Re.regex :=
  Re.chars "<a href=" ++ [Re.Chr dquote; Re.NotAhead [lit "http://"; lit "www"]].

(** The patterns of the second and the third substitution: group 1 is
    [<font ] followed by [[^>]*?]; then [face=] (or [size=]), a double
    quote, [.+?] and a double quote. *)
Definition font_face_re : Re.regex :=
  [Re.Open 1] ++ Re.chars "<font " ++ [Re.star_lazy Re.not_gt; Re.Close 1]
  ++ Re.chars "face=" ++ [Re.Chr dquote; Re.plus_lazy Re.dot; Re.Chr dquote].

Definition font_size_re : Re.regex :=
  [Re.Open 1] ++ Re.chars "<font " ++ [Re.star_lazy Re.not_gt; Re.Close 1]
  ++ Re.chars "size=" ++ [Re.Chr dquote; Re.plus_lazy Re.dot; Re.Chr dquote].

Definition backslash : ascii := "092".

(** A replacement template of [re.sub] without a backslash stands for
    itself.  A backslash starts an escape, and what [re] makes of it changes
    with the version of Python: the embedding gives no result there. *)
Definition plain_template (tpl : text) : option text :=
  if existsb (Ascii.eqb backslash) tpl then None else Some tpl.

(** ['/'.join(url.split('/')[:-1]) + '/'] *)
Definition baseurl_of (url : text) : text :=
  join (lit "/") (removelast (split "/" url)) ++ lit "/".

(** The opening of a link: [<a href=] and a double quote. *)
Definition href_open : text := lit "<a href=" ++ [dquote].

(** The fourth positional argument of [re.sub] is [count]: the source
    passes [re.IGNORECASE] there, so every substitution is sensitive to case
    and replaces at most [re.IGNORECASE] matches. *)
Definition sanitize_body (body url : text) : option text :=
  let baseurl := baseurl_of url in
  match plain_template (href_open ++ baseurl) with
  | None => None
  | Some tpl =>
      let body := Re.sub link_re (fun _ => tpl) body Re.IGNORECASE in
      let body := Re.sub font_face_re (fun m => Re.group m 1) body Re.IGNORECASE in
      let body := Re.sub font_size_re (fun m => Re.group m 1) body Re.IGNORECASE in
      Some body
  end.

(** ** [gen_metadata] *)

Record page : Type := {
  p_body : text;
  p_title : text;
  p_url : text;
  p_author_name : text;
  p_author_url : text;
  p_description : text
}.

(** The parsed command line; an option that is not given is the empty
    string. *)
Record args : Type := {
  a_title : text;
  a_desc : text;
  a_tags : text;
  a_url : list text
}.

Record metadata : Type := {
  md_title : text;
  md_description : text;
  md_tags : list text
}.

(** Truth of a string: it is not empty. *)
Definition truthy (s : text) : bool :=
  match s with [] => false | _ :: _ => true end.

(** The pattern [\s*,\s*]. *)
Definition tags_re : Re.regex :=
  [Re.star is_space; Re.Chr ","; Re.star is_space].

Definition gen_metadata (pg : page) (a : args) : metadata :=
  {| md_title := if truthy (a_title a) then a_title a else p_title pg;
     md_description := if truthy (a_desc a) then a_desc a else p_description pg;
     md_tags := if truthy (a_tags a) then Re.split tags_re (a_tags a) else [] |}.

(** ** [gen_controls] and [save_pages] *)

Definition emit (c : ascii) (r : result text) : result text :=
  bind r (fun t => Ok (c :: t)).

(** [tpl.format(arg)] with one positional argument, an integer that is not
    negative: literal text, the escapes of the two braces, and the
    automatically numbered fields [{}] and [{:03}].  [used] tells that an
    automatic field has taken the argument: a second one is an IndexError.
    A single closing brace is a ValueError.  Every other replacement field
    raises as well where [gen_controls] calls [format]: the template ends
    with the automatic field [{:03}], which is a ValueError after a field
    that is numbered by hand, comes after a KeyError for a field with a
    name, and makes an unclosed field a ValueError. *)
Fixpoint format_int (tpl : text) (used : bool) (arg : nat) : result text :=
  match tpl with
  | [] => Ok []
  | c :: t1 =>
      if Ascii.eqb c "{" then
        match t1 with
        | [] => Raise "ValueError: Single '{' encountered in format string"
        | c2 :: t2 =>
            if Ascii.eqb c2 "{" then emit "{" (format_int t2 used arg)
            else if Ascii.eqb c2 "}" then
              if used then Raise "IndexError: Replacement index 1 out of range"
              else bind (format_int t2 true arg) (fun t => Ok (str arg ++ t))
            else
              match t2 with
              | c3 :: c4 :: c5 :: t5 =>
                  if Ascii.eqb c2 ":" && Ascii.eqb c3 "0" && Ascii.eqb c4 "3"
                     && Ascii.eqb c5 "}"
                  then
                    if used
                    then Raise "IndexError: Replacement index 1 out of range"
                    else bind (format_int t5 true arg)
                              (fun t => Ok (zfill 3 (str arg) ++ t))
                  else Raise "replacement field in the name"
              | _ => Raise "replacement field in the name"
              end
        end
      else if Ascii.eqb c "}" then
        match t1 with
        | c2 :: t2 =>
            if Ascii.eqb c2 "}" then emit "}" (format_int t2 used arg)
            else Raise "ValueError: Single '}' encountered in format string"
        | [] => Raise "ValueError: Single '}' encountered in format string"
        end
      else emit c (format_int t1 used arg)
  end.

(** The template of the controls, [<div class="controls">{}</div>], applied
    to its argument. *)
Definition controls_template (insert : text) : text :=
  lit "<div class=" ++ [dquote] ++ lit "controls" ++ [dquote] ++ lit ">"
  ++ insert ++ lit "</div>".

Definition prev_link (href : text) : text :=
  lit "<a href=" ++ [dquote] ++ href ++ [dquote] ++ lit "><-- Prev</a> | ".

Definition next_link (href : text) : text :=
  lit " | <a href=" ++ [dquote] ++ href ++ [dquote] ++ lit ">Next --></a>".

Definition page_label (k total : nat) : text :=
  lit "  <strong>Page " ++ str k ++ lit "/" ++ str total ++ lit "</strong>  ".

Definition gen_controls (name : text) (n pagenum : nat) : result text :=
  if Nat.eqb pagenum 1 then Ok (controls_template [])
  else
    let name := name ++ lit " - Page {:03}.html" in
    let insert := [] in
    bind (if Nat.ltb 0 n
          then bind (format_int name false n)
                    (fun href => Ok (insert ++ prev_link href))
          else Ok insert)
      (fun insert =>
         let insert := insert ++ page_label (n + 1) pagenum in
         bind (if Nat.ltb n (pagenum - 1)
               then bind (format_int name false (n + 2))
                         (fun href => Ok (insert ++ next_link href))
               else Ok insert)
           (fun insert => Ok (controls_template insert))).

(** [os.path.join(a, b)] of [posixpath]. *)
Definition os_path_join (a b : text) : text :=
  if startswith b (lit "/") then b
  else if negb (truthy a) || endswith a (lit "/") then a ++ b
  else a ++ lit "/" ++ b.

(** The name under which [save_pages] writes page [n] (counted from 0) of
    [total] pages. *)
Definition page_path (path name : text) (n total : nat) : text :=
  let fpath := os_path_join path name in
  let fpath := if Nat.ltb 1 total
               then fpath ++ lit " - Page " ++ zfill 3 (str (n + 1))
               else fpath in
  fpath ++ lit ".html".

Section Writer.

(** The state of the file system, and [write_file(fpath, out)] of
    [libsyntyche]: the state after the call and its outcome.  A write can
    fail; what it does to the files that are there is the business of the
    file system. *)
Variable FS : Type.
Variable write_file : text -> text -> FS -> FS * result unit.

(** [template.format(controls=controls, **page)]: the template is the file
    [pagetemplate.html], which the script reads when it runs. *)
Variable render : text -> page -> result text.

(** The loop of [save_pages] from page [n] on: an exception ends it in the
    state that the calls before it have left. *)
Fixpoint save_loop (path name : text) (total n : nat) (pages : list page)
         (fs : FS) : FS * result unit :=
  match pages with
  | [] => (fs, Ok tt)
  | pg :: rest =>
      match gen_controls name n total with
      | Raise msg => (fs, Raise msg)
      | Ok controls =>
          match render controls pg with
          | Raise msg => (fs, Raise msg)
          | Ok out =>
              match write_file (page_path path name n total) out fs with
              | (fs', Ok _) => save_loop path name total (S n) rest fs'
              | (fs', Raise msg) => (fs', Raise msg)
              end
          end
      end
  end.

Definition save_pages (path name : text) (pages : list page) (fs : FS)
  : FS * result unit :=
  save_loop path name (length pages) 0 pages fs.

End Writer.

(** ** [download_page] *)

Section Extractor.

(** The rules of one config entry. *)
Variable settings : Type.

(** [re.match(pattern, string, flags) is not None] for a pattern of the
    configuration file; a pattern that does not compile raises. *)
Variable re_match : text -> text -> nat -> result bool.

(** Lines 56 to 74: the page is fetched and its fields are extracted with
    the regular expressions of the selected entry. *)
Variable extract : text -> settings -> result page.

(** [entries[key]] on a dictionary given by its items in iteration
    order. *)
Fixpoint getitem (entries : list (text * settings)) (key : text)
  : result settings :=
  match entries with
  | [] => Raise "KeyError"
  | (k, v) :: rest => if text_eqb key k then Ok v else getitem rest key
  end.

(** The [for ... else] loop over the keys of [entries]. *)
Fixpoint select_entry (keys : list text) (entries : list (text * settings))
         (url : text) : result settings :=
  match keys with
  | [] => Raise "No matching config entry"
  | urlprefix :: keys' =>
      bind (re_match urlprefix url Re.IGNORECASE)
           (fun matched =>
              if matched then getitem entries urlprefix
              else select_entry keys' entries url)
  end.

Definition download_page (url : text) (entries : list (text * settings))
           (n maxn : nat) : result page :=
  bind (select_entry (map fst entries) entries url)
       (fun settings => extract url settings).

(** The list comprehension of [main] over [enumerate(urls)], from index
    [n] on. *)
Fixpoint download_pages (entries : list (text * settings)) (maxn n : nat)
         (urls : list text) : result (list page) :=
  match urls with
  | [] => Ok []
  | url :: rest =>
      bind (download_page url entries n maxn)
           (fun pg =>
              bind (download_pages entries maxn (S n) rest)
                   (fun pgs => Ok (pg :: pgs)))
  end.

End Extractor.

(** ** [main] *)

(** The list comprehension [u for raw_url in args.url for u in
    expand_url(raw_url)]. *)
Fixpoint expand_all (raw_urls : list text) : result (list text) :=
  match raw_urls with
  | [] => Ok []
  | raw_url :: rest =>
      bind (expand_url raw_url)
           (fun us => bind (expand_all rest) (fun vs => Ok (us ++ vs)))
  end.

Section Main.

Variable settings : Type.
Variable re_match : text -> text -> nat -> result bool.
Variable extract : text -> settings -> result page.
Variable FS : Type.
Variable write_file : text -> text -> FS -> FS * result unit.
Variable render : text -> page -> result text.

(** [create_directory(root_path, metadata)]: a new directory is made under
    the root, [metadata.json] is written into it and its path returned; the
    state of the file system after the call comes with the outcome. *)
Variable create_directory : text -> metadata -> FS -> FS * result text.

(** [main] once the command line is parsed and the settings are loaded:
    [entries] is [settings['entries']], [root] is
    [settings['default']['path']] and [fs] the state of the file system
    at that point; [load_settings] itself, which reads the configuration
    file and makes it when it is missing, is not part of the embedding.  The
    result is the state in which [main] ends and its outcome. *)
Definition main (a : args) (entries : list (text * settings)) (root : text)
           (fs : FS) : FS * result unit :=
  match expand_all (a_url a) with
  | Raise msg => (fs, Raise msg)
  | Ok urls =>
      match download_pages settings re_match extract entries
                           (length urls) 0 urls with
      | Raise msg => (fs, Raise msg)
      | Ok pages =>
          match pages with
          | [] => (fs, Raise "IndexError: list index out of range")
          | first :: _ =>
              let metadata := gen_metadata first a in
              match create_directory root metadata fs with
              | (fs', Raise msg) => (fs', Raise msg)
              | (fs', Ok dirname) =>
                  save_pages FS write_file render dirname
                             (md_title metadata) pages fs'
              end
          end
      end
  end.

End Main.

(** ** Notions of the specification and examples *)

(** The brace expression that a call of [expand_url] expands: the match of
    the range pattern when there is one, else the match of the comma
    pattern. *)
Definition expanded_match (raw_url : text) : option Re.rmatch :=
  match Re.search dotexp_re raw_url with
  | Some d => Some d
  | None => Re.search commaexp_re raw_url
  end.

(** Every URL of [urls] is the raw URL with the match alone replaced: the
    text before the match and the text after it, with any other brace group
    in them, are kept as they are. *)
Definition only_match_expanded (m : Re.rmatch) (urls : list text) : Prop :=
  forall u, In u urls -> exists tok, u = Re.m_pre m ++ tok ++ Re.m_post m.

(** The matches that [re.search] returns on the URLs of the examples. *)
Definition range_example_match : Re.rmatch :=
  {| Re.m_pre := lit "http://x.com/p"; Re.m_whole := lit "{01..03}";
     Re.m_post := lit ".html";
     Re.m_groups := [(3, lit "03"); (2, lit "1"); (1, lit "0")] |}.

Definition negative_example_match : Re.rmatch :=
  {| Re.m_pre := lit "http://x.com/"; Re.m_whole := lit "{5..1}";
     Re.m_post := [];
     Re.m_groups := [(3, lit "1"); (2, lit "5"); (1, [])] |}.

Definition comma_example_match : Re.rmatch :=
  {| Re.m_pre := lit "http://x.com/"; Re.m_whole := lit "{a,b,}";
     Re.m_post := []; Re.m_groups := [(1, lit "a,b,")] |}.

Definition single_example_match : Re.rmatch :=
  {| Re.m_pre := lit "http://x.com/"; Re.m_whole := lit "{abc}";
     Re.m_post := []; Re.m_groups := [(1, lit "abc")] |}.

Definition two_groups_example_match : Re.rmatch :=
  {| Re.m_pre := lit "http://x.com/"; Re.m_whole := lit "{a,b}";
     Re.m_post := lit "/{c,d}"; Re.m_groups := [(1, lit "a,b")] |}.

(** [s.lstrip()], [s.rstrip()] and [s.strip()] *)
Fixpoint lstrip (s : text) : text :=
  match s with
  | [] => []
  | c :: s' => if is_space c then lstrip s' else s
  end.

Definition rstrip (s : text) : text := rev (lstrip (rev s)).

Definition strip (s : text) : text := rstrip (lstrip s).

(** The tags as the specification words them: the string is split at its
    commas and every piece is trimmed. *)
Definition trimmed_tags (s : text) : list text := map strip (split ","%char s).

(** The tags as [re.split] gives them: the string is split at its commas,
    and the white space next to a comma goes with the comma.  The start of
    the first piece and the end of the last piece are kept. *)
Fixpoint trim_after_comma (pieces : list text) : list text :=
  match pieces with
  | [] => []
  | [p] => [lstrip p]
  | p :: ps => rstrip (lstrip p) :: trim_after_comma ps
  end.

Definition comma_trimmed (s : text) : list text :=
  match split ","%char s with
  | [] => []
  | [p] => [p]
  | p :: ps => rstrip p :: trim_after_comma ps
  end.

(** A page record, and a command line whose tags string starts with a
    blank. *)
Definition untitled_page : page :=
  {| p_body := []; p_title := lit "Found title"; p_url := [];
     p_author_name := []; p_author_url := lit "#"; p_description := [] |}.

Definition spaced_tags_args : args :=
  {| a_title := []; a_desc := []; a_tags := lit " a"; a_url := [] |}.

(** A matcher for patterns without metacharacters: with [re.IGNORECASE],
    [re.match] compares such a pattern with the start of the string, letter
    case apart. *)
Definition lower (c : ascii) : ascii :=
  let n := nat_of_ascii c in
  if (Nat.leb 65 n && Nat.leb n 90)%bool then ascii_of_nat (n + 32) else c.

Definition literal_match (pattern subject : text) (flags : nat) : result bool :=
  if Nat.eqb flags Re.IGNORECASE
  then Ok (startswith (map lower subject) (map lower pattern))
  else Ok (startswith subject pattern).

(** A configuration of two entries whose rules are numbers, and an
    extraction that records the rules it is given in the title. *)
Definition two_entries : list (text * nat) :=
  [(lit "http://a.com/", 1); (lit "http://b.com/", 2)].

Definition page_of_rules (url : text) (rules : nat) : result page :=
  Ok {| p_body := []; p_title := str rules; p_url := url;
        p_author_name := []; p_author_url := lit "#"; p_description := [] |}.

(** A name without a brace. *)
Definition brace_free (name : text) : bool :=
  forallb (fun c => negb (Ascii.eqb c "{" || Ascii.eqb c "}")) name.

(** The name of the sibling file of page [k] (counted from 1), by the
    convention of [save_pages]. *)
Definition sibling_name (name : text) (k : nat) : text :=
  name ++ lit " - Page " ++ zfill 3 (str k) ++ lit ".html".

(** The target of a link that the look-ahead excludes. *)
Definition absolute_target (rest : text) : bool :=
  startswith rest (lit "http://") || startswith rest (lit "www").

(** The rewriting as the specification words it: after every [<a href=]
    with its double quote that is not followed by [http://] or [www] the
    base URL is put in; the other occurrences are kept. *)
Fixpoint absolute_links_loop (fuel : nat) (baseurl s : text) : text :=
  match fuel with
  | O => s
  | S fuel' =>
      match find_split href_open s with
      | None => s
      | Some (pre, post) =>
          pre ++ href_open
          ++ (if absolute_target post then [] else baseurl)
          ++ absolute_links_loop fuel' baseurl post
      end
  end.

Definition absolute_links (baseurl s : text) : text :=
  absolute_links_loop (S (length s)) baseurl s.

(** The number of the links that are to be rewritten. *)
Fixpoint relative_links_loop (fuel : nat) (s : text) : nat :=
  match fuel with
  | O => 0
  | S fuel' =>
      match find_split href_open s with
      | None => 0
      | Some (_, post) =>
          (if absolute_target post then 0 else 1)
          + relative_links_loop fuel' post
      end
  end.

Definition relative_links (s : text) : nat :=
  relative_links_loop (S (length s)) s.

(** The bodies and the page URL of the examples of the sanitizer. *)
Definition root_relative_body : text :=
  href_open ++ lit "/foo" ++ [dquote] ++ lit ">".
Definition other_site_body : text :=
  href_open ++ lit "http://other.com" ++ [dquote] ++ lit ">".
Definition three_links_body : text :=
  href_open ++ lit "a" ++ [dquote] ++ lit ">"
  ++ href_open ++ lit "b" ++ [dquote] ++ lit ">"
  ++ href_open ++ lit "c" ++ [dquote] ++ lit ">".
Definition page_url : text := lit "http://site.com/dir/page.html".

(** The two font patterns differ in the name of the attribute only. *)
Definition font_attr_re (attr : text) : Re.regex :=
  [Re.Open 1] ++ Re.chars "<font " ++ [Re.star_lazy Re.not_gt; Re.Close 1]
  ++ map Re.Chr (attr ++ ["="%char; dquote])
  ++ [Re.plus_lazy Re.dot; Re.Chr dquote].

(** The text of an attribute with its value: [face=], a double quote, the
    value, a double quote. *)
Definition attribute (attr value : text) : text :=
  attr ++ ["="%char; dquote] ++ value ++ [dquote].

(** The font tag of the example of the specification, with its attributes
    [color], [face] and [size]. *)
Definition font_example : text :=
  lit "<font color=" ++ [dquote] ++ lit "red" ++ [dquote] ++ lit " "
  ++ attribute (lit "face") (lit "Arial") ++ lit " "
  ++ attribute (lit "size") (lit "3") ++ lit ">".

(** The attribute [color] of the example, with the blank after it. *)
Definition color_attribute : text :=
  lit "color=" ++ [dquote] ++ lit "red" ++ [dquote] ++ lit " ".

(** The value of an attribute, in the text [v] after its opening double
    quote: one character, then the text up to the next double quote, all of
    it without a line feed.  The result is the value and the text after the
    closing double quote. *)
Definition attr_value (v : text) : option (text * text) :=
  match v with
  | [] => None
  | c :: v' =>
      match find_split [dquote] v' with
      | Some (w, rest) =>
          if forallb Re.dot (c :: w) then Some (c :: w, rest) else None
      | None => None
      end
  end.

(** The attribute [attr] with a value at the start of [r]. *)
Definition attr_here (attr r : text) : option (text * text) :=
  match strip_prefix (attr ++ ["="%char; dquote]) r with
  | Some v => attr_value v
  | None => None
  end.

(** The first attribute [attr] with a value in a tag, [r] being the text
    after [<font ]: the text of the tag before the attribute, the value, and
    the text after the closing double quote.  The tag ends at the first
    [>]. *)
Fixpoint tag_attr (attr r : text) : option (text * text * text) :=
  match attr_here attr r with
  | Some (V, rest) => Some ([], V, rest)
  | None =>
      match r with
      | [] => None
      | c :: r' =>
          if Re.not_gt c
          then match tag_attr attr r' with
               | Some (A, V, rest) => Some (c :: A, V, rest)
               | None => None
               end
          else None
      end
  end.

(** A tag with the attribute at the start of [s]. *)
Definition tag_here (attr s : text) : option (text * text * text) :=
  match strip_prefix (lit "<font ") s with
  | Some r => tag_attr attr r
  | None => None
  end.

(** The first [<font ] of [s] whose tag holds the attribute: the text before
    it, and the three parts of the tag that [tag_attr] gives. *)
Fixpoint first_tag (attr s : text) : option (text * text * text * text) :=
  match tag_here attr s with
  | Some (A, V, rest) => Some ([], A, V, rest)
  | None =>
      match s with
      | [] => None
      | c :: s' =>
          match first_tag attr s' with
          | Some (pre, A, V, rest) => Some (c :: pre, A, V, rest)
          | None => None
          end
      end
  end.

(** A font substitution as the specification words it: from the left, at
    every [<font ] whose tag holds the attribute, the text of the attribute
    with its value goes and the text of the tag before it stays; the scan
    goes on after the attribute.  Every other character is kept. *)
Fixpoint strip_attr_loop (fuel : nat) (attr s : text) : text :=
  match fuel with
  | O => s
  | S fuel' =>
      match first_tag attr s with
      | None => s
      | Some (pre, A, _, rest) =>
          pre ++ lit "<font " ++ A ++ strip_attr_loop fuel' attr rest
      end
  end.

Definition strip_attr (attr s : text) : text :=
  strip_attr_loop (S (length s)) attr s.

(** The number of the tags from which the attribute is taken. *)
Fixpoint font_tags_loop (fuel : nat) (attr s : text) : nat :=
  match fuel with
  | O => 0
  | S fuel' =>
      match first_tag attr s with
      | None => 0
      | Some (_, _, _, rest) => S (font_tags_loop fuel' attr rest)
      end
  end.

Definition font_tags (attr s : text) : nat :=
  font_tags_loop (S (length s)) attr s.

(** A body with two font tags, the first with [size] before [face], after a
    link to another site; and a body with three tags that carry [face]. *)
Definition two_fonts_body : text :=
  other_site_body
  ++ lit "<font " ++ attribute (lit "size") (lit "3") ++ lit " "
  ++ attribute (lit "face") (lit "Arial") ++ lit ">a</font>"
  ++ lit "<font " ++ attribute (lit "face") (lit "Times") ++ lit ">b</font>".

Definition three_fonts_body : text :=
  lit "<font " ++ attribute (lit "face") (lit "a") ++ lit ">"
  ++ lit "<font " ++ attribute (lit "face") (lit "b") ++ lit ">"
  ++ lit "<font " ++ attribute (lit "face") (lit "c") ++ lit ">".

(** A match found further to the right: [p] is added to the text before
    it. *)
Definition prepend (p : text) (m : Re.rmatch) : Re.rmatch :=
  {| Re.m_pre := p ++ Re.m_pre m; Re.m_whole := Re.m_whole m;
     Re.m_post := Re.m_post m; Re.m_groups := Re.m_groups m |}.

(** ** [create_directory] *)

Section Directory.

(** [os.path.exists] on the file system as it is when [create_directory]
    is called; [os.mkdir(path, mode=0o755)]; [write_json(path, metadata)]
    of the library. *)
Variable exists_ : text -> bool.
Variable mkdir : text -> result unit.
Variable write_json : text -> metadata -> result unit.

(** The [while] loop: [path] is the name under test, [counter] the next
    value of [itertools.count(2)].  The loop has no bound of its own: [None]
    is a loop that is still running when the fuel is used up. *)
Fixpoint free_path (fuel : nat) (default_path path : text) (counter : nat)
  : option text :=
  match fuel with
  | O => None
  | S fuel' =>
      if exists_ path
      then free_path fuel' default_path
                     (default_path ++ lit "-" ++ str counter) (S counter)
      else Some path
  end.

Definition create_directory (fuel : nat) (root_path : text) (md : metadata)
  : option (result text) :=
  let default_path := os_path_join root_path (md_title md) in
  match free_path fuel default_path default_path 2 with
  | None => None
  | Some path =>
      Some (bind (mkdir path)
              (fun _ =>
                 bind (write_json (os_path_join path (lit "metadata.json")) md)
                      (fun _ => Ok path)))
  end.

End Directory.

(** ** Notions for the further properties *)

(** The name that the loop of [create_directory] tests in its round [i]
    (from 0): the default path, then the default path with [-2], [-3],
    ... *)
Definition candidate (default_path : text) (i : nat) : text :=
  match i with
  | O => default_path
  | S j => default_path ++ lit "-" ++ str (j + 2)
  end.

(** The first [budget] links to rewrite get the base URL, the text after
    them is kept. *)
Fixpoint absolute_links_upto (fuel budget : nat) (baseurl s : text) : text :=
  match fuel, budget with
  | O, _ => s
  | _, O => s
  | S fuel', S budget' =>
      match find_split href_open s with
      | None => s
      | Some (pre, post) =>
          if absolute_target post
          then pre ++ href_open
               ++ absolute_links_upto fuel' budget baseurl post
          else pre ++ href_open ++ baseurl
               ++ absolute_links_upto fuel' budget' baseurl post
      end
  end.

(** The controls of page [n] (from 0) of [pagenum] pages as the convention
    of the file names asks for them. *)
Definition controls_of (name : text) (n pagenum : nat) : text :=
  if Nat.eqb pagenum 1 then controls_template []
  else controls_template
         ((if Nat.ltb 0 n then prev_link (sibling_name name n) else [])
          ++ page_label (n + 1) pagenum
          ++ (if Nat.ltb n (pagenum - 1)
              then next_link (sibling_name name (n + 2)) else [])).

(** The files that [save_pages] writes for the pages from index [n] on, in
    the order of the pages, when the template renders to [out controls
    page]. *)
Fixpoint page_files (out : text -> page -> text) (path name : text)
         (total n : nat) (pages : list page) : list (text * text) :=
  match pages with
  | [] => []
  | pg :: rest =>
      (page_path path name n total, out (controls_of name n total) pg)
      :: page_files out path name total (S n) rest
  end.

Section Writes.

Variable FS : Type.
Variable write_file : text -> text -> FS -> FS * result unit.

(** The calls [write_file(fpath, out)] for a list of files with their
    contents, in the order of the list, up to the first call that fails. *)
Fixpoint write_all (files : list (text * text)) (fs : FS) : FS * result unit :=
  match files with
  | [] => (fs, Ok tt)
  | (fpath, out) :: rest =>
      match write_file fpath out fs with
      | (fs', Ok _) => write_all rest fs'
      | (fs', Raise msg) => (fs', Raise msg)
      end
  end.

End Writes.

(** A file system for the examples: the files with their contents.  A write
    replaces the file of the same path; it fails on a path with a NUL
    character, as [open] does. *)
Definition disk : Type := list (text * text).

Definition nul : ascii := "000".

Definition disk_write (fpath out : text) (d : disk) : disk * result unit :=
  if existsb (Ascii.eqb nul) fpath
  then (d, Raise "ValueError: embedded null byte")
  else ((fpath, out) :: filter (fun f => negb (text_eqb (fst f) fpath)) d,
        Ok tt).

(** A matcher that refuses the pattern [(]. *)
Definition strict_match (pattern subject : text) (flags : nat) : result bool :=
  if text_eqb pattern (lit "(") then Raise "re.error: missing )"
  else literal_match pattern subject flags.

(** A file system with the directories [/r/T] and [/r/T-2], on which
    [os.mkdir] and [write_json] succeed. *)
Definition two_taken : list text := [lit "/r/T"; lit "/r/T-2"].
Definition taken (p : text) : bool := existsb (text_eqb p) two_taken.
Definition mkdir_ok (p : text) : result unit := Ok tt.
Definition write_json_ok (p : text) (md : metadata) : result unit := Ok tt.
Definition titled (t : text) : metadata :=
  {| md_title := t; md_description := []; md_tags := [] |}.

(** A template that puts the controls before the body. *)
Definition plain_out (controls : text) (pg : page) : text :=
  controls ++ p_body pg.
Definition plain_render (controls : text) (pg : page) : result text :=
  Ok (plain_out controls pg).
Definition body_page (b : text) : page :=
  {| p_body := b; p_title := lit "T"; p_url := []; p_author_name := [];
     p_author_url := lit "#"; p_description := [] |}.

(** A template that fails on a page without a body. *)
Definition picky_render (controls : text) (pg : page) : result text :=
  match p_body pg with
  | [] => Raise "KeyError"
  | _ :: _ => Ok (plain_out controls pg)
  end.

(** A command line with one range of two pages, one with a range that runs
    downwards after a plain URL, and one with two plain URLs. *)
Definition range_args : args :=
  {| a_title := []; a_desc := []; a_tags := [];
     a_url := [lit "http://a.com/{1..2}"] |}.
Definition downward_args : args :=
  {| a_title := []; a_desc := []; a_tags := [];
     a_url := [lit "http://a.com/1"; lit "http://x.com/{5..1}"] |}.
Definition plain_args : args :=
  {| a_title := []; a_desc := []; a_tags := [];
     a_url := [lit "http://c.com/1"; lit "http://a.com/2"] |}.

(** A [create_directory] that succeeds with the title under the root and
    notes the metadata file on the disk. *)
Definition mkdir_title (root : text) (md : metadata) (d : disk)
  : disk * result text :=
  ((os_path_join (os_path_join root (md_title md)) (lit "metadata.json"),
    md_title md) :: d,
   Ok (os_path_join root (md_title md))).

(** The page that [page_of_rules] gives for a URL and the rules [rules]. *)
Definition rules_page (rules : nat) (url : text) : page :=
  {| p_body := []; p_title := str rules; p_url := url;
     p_author_name := []; p_author_url := lit "#"; p_description := [] |}.

(** * Properties *)

(** A character that does not occur in a given text. *)
Ltac absent_char :=
  vm_compute;
  let H := fresh "H" in
  intros H; repeat (destruct H as [H|H]; [discriminate H|]); exact H.

(** ** The examples of the specification for [expand_url] *)

Example expand_url_range :
  expand_url (lit "http://x.com/p{01..03}.html")
  = Ok [lit "http://x.com/p01.html"; lit "http://x.com/p02.html";
        lit "http://x.com/p03.html"].
Proof. vm_compute. reflexivity. Qed.

Example expand_url_commas :
  expand_url (lit "http://x.com/{a,b,}")
  = Ok [lit "http://x.com/a"; lit "http://x.com/b"; lit "http://x.com/"].
Proof. vm_compute. reflexivity. Qed.

Example expand_url_negative :
  expand_url (lit "http://x.com/{5..1}")
  = Raise "Negative dotexpansion not supported".
Proof. vm_compute. reflexivity. Qed.

Example expand_url_plain :
  expand_url (lit "http://x.com/index.html") = Ok [lit "http://x.com/index.html"].
Proof. vm_compute. reflexivity. Qed.


(** ** Strings *)

Lemma strip_prefix_app (p r : text) : strip_prefix p (p ++ r) = Some r.
Proof.
  induction p as [|a p IH]; simpl; [reflexivity|].
  now rewrite Ascii.eqb_refl.
Qed.

Lemma strip_prefix_some (p s r : text) :
  strip_prefix p s = Some r -> s = p ++ r.
Proof.
  revert s; induction p as [|a p IH]; intros s H; simpl in *.
  - now inversion H.
  - destruct s as [|b s]; [discriminate|].
    destruct (Ascii.eqb a b) eqn:E; [|discriminate].
    apply Ascii.eqb_eq in E; subst b. f_equal. now apply IH.
Qed.

Lemma startswith_app (p r : text) : startswith (p ++ r) p = true.
Proof. unfold startswith. now rewrite strip_prefix_app. Qed.

Lemma find_split_some (old s pre post : text) :
  find_split old s = Some (pre, post) -> s = pre ++ old ++ post.
Proof.
  revert pre; induction s as [|c s IH]; intros pre H; simpl in H.
  - destruct (strip_prefix old []) eqn:E; [|discriminate].
    inversion H; subst. now apply strip_prefix_some in E.
  - destruct (strip_prefix old (c :: s)) eqn:E.
    + inversion H; subst. now apply strip_prefix_some in E.
    + destruct (find_split old s) as [[pre' post']|] eqn:F; [|discriminate].
      inversion H; subst. simpl. f_equal. now apply IH.
Qed.

(** The occurrence that [find_split] returns is the first one. *)
Lemma find_split_first (old s pre post : text) :
  find_split old s = Some (pre, post) ->
  forall p q, s = p ++ q -> length p < length pre -> strip_prefix old q = None.
Proof.
  revert pre; induction s as [|c s IH]; intros pre H p q Hs Hl; simpl in H.
  - destruct (strip_prefix old []); [|discriminate].
    inversion H; subst. simpl in Hl. lia.
  - destruct (strip_prefix old (c :: s)) eqn:E.
    + inversion H; subst. simpl in Hl. lia.
    + destruct (find_split old s) as [[pre' post']|] eqn:F; [|discriminate].
      inversion H; subst.
      destruct p as [|x p]; simpl in Hs.
      * now subst q.
      * inversion Hs; subst. simpl in Hl.
        apply (IH pre' eq_refl p q eq_refl). lia.
Qed.

Lemma find_split_intro (old s pre post : text) :
  s = pre ++ old ++ post ->
  (forall p q, s = p ++ q -> length p < length pre -> strip_prefix old q = None) ->
  find_split old s = Some (pre, post).
Proof.
  revert s; induction pre as [|c pre IH]; intros s Hs Hfirst; subst s.
  - simpl app. destruct old as [|o old].
    + destruct post; reflexivity.
    + simpl app. cbn [find_split].
      change (o :: old ++ post) with ((o :: old) ++ post).
      now rewrite strip_prefix_app.
  - simpl app. cbn [find_split].
    rewrite (Hfirst [] (c :: pre ++ old ++ post) eq_refl) by (simpl; lia).
    rewrite (IH (pre ++ old ++ post) eq_refl); [reflexivity|].
    intros p q Hpq Hl. apply (Hfirst (c :: p) q).
    + simpl. now rewrite Hpq.
    + simpl. lia.
Qed.

Lemma find_split_none_cons (old : text) (c : ascii) (s : text) :
  find_split old (c :: s) = None -> find_split old s = None.
Proof.
  simpl. destruct (strip_prefix old (c :: s)); [discriminate|].
  now destruct (find_split old s) as [[? ?]|].
Qed.

Lemma find_split_post_length (old s pre post : text) :
  old <> [] -> find_split old s = Some (pre, post) -> length post < length s.
Proof.
  intros Hne H. apply find_split_some in H. subst s.
  rewrite !length_app. destruct old; [congruence|]. simpl. lia.
Qed.

(** Enough fuel: the loops of [replace] and [count] do not depend on it. *)
Lemma replace_loop_fuel (old new : text) :
  old <> [] ->
  forall fuel1 fuel2 count s,
    length s < fuel1 -> length s < fuel2 ->
    replace_loop fuel1 old new count s = replace_loop fuel2 old new count s.
Proof.
  intros Hne. induction fuel1 as [|f1 IH]; intros fuel2 count s H1 H2; [lia|].
  destruct fuel2 as [|f2]; [lia|].
  simpl. destruct count as [[|k]|]; try reflexivity.
  - destruct (find_split old s) as [[pre post]|] eqn:F; [|reflexivity].
    pose proof (find_split_post_length _ _ _ _ Hne F).
    do 2 f_equal. apply IH; lia.
  - destruct (find_split old s) as [[pre post]|] eqn:F; [|reflexivity].
    pose proof (find_split_post_length _ _ _ _ Hne F).
    do 2 f_equal. apply IH; lia.
Qed.

Lemma count_loop_fuel (old : text) :
  old <> [] ->
  forall fuel1 fuel2 s,
    length s < fuel1 -> length s < fuel2 ->
    count_loop fuel1 old s = count_loop fuel2 old s.
Proof.
  intros Hne. induction fuel1 as [|f1 IH]; intros fuel2 s H1 H2; [lia|].
  destruct fuel2 as [|f2]; [lia|].
  simpl. destruct (find_split old s) as [[pre post]|] eqn:F; [|reflexivity].
  pose proof (find_split_post_length _ _ _ _ Hne F).
  f_equal. apply IH; lia.
Qed.

Lemma replace_eq_loop (s old new : text) :
  old <> [] -> replace s old new = replace_loop (S (length s)) old new None s.
Proof. intros Hne. destruct old; [congruence|reflexivity]. Qed.

Lemma replace_loop_step (fuel : nat) (old new s : text) :
  replace_loop (S fuel) old new None s
  = match find_split old s with
    | None => s
    | Some (pre, post) => pre ++ new ++ replace_loop fuel old new None post
    end.
Proof. reflexivity. Qed.

(** [replace] at the first occurrence, then on what follows it. *)
Lemma replace_unfold (s old new pre post : text) :
  old <> [] ->
  find_split old s = Some (pre, post) ->
  replace s old new = pre ++ new ++ replace post old new.
Proof.
  intros Hne F. rewrite !replace_eq_loop by assumption.
  rewrite replace_loop_step, F. do 2 f_equal.
  apply replace_loop_fuel; [assumption| |lia].
  now apply find_split_post_length in F.
Qed.

Lemma replace_absent (s old new : text) :
  old <> [] -> find_split old s = None -> replace s old new = s.
Proof.
  intros Hne F. rewrite replace_eq_loop by assumption.
  now rewrite replace_loop_step, F.
Qed.

Lemma count_loop_step (fuel : nat) (old s : text) :
  count_loop (S fuel) old s
  = match find_split old s with
    | None => 0
    | Some (_, post) => S (count_loop fuel old post)
    end.
Proof. reflexivity. Qed.

Lemma count_sub_unfold (s old pre post : text) :
  old <> [] ->
  find_split old s = Some (pre, post) ->
  count_sub s old = S (count_sub post old).
Proof.
  intros Hne F. unfold count_sub. rewrite count_loop_step, F. f_equal.
  apply count_loop_fuel; [assumption| |lia].
  now apply find_split_post_length in F.
Qed.

Lemma count_sub_zero (s old : text) :
  count_sub s old = 0 -> find_split old s = None.
Proof.
  unfold count_sub. rewrite count_loop_step.
  destruct (find_split old s) as [[? ?]|]; [discriminate|reflexivity].
Qed.

(** A text that occurs once is replaced once: what stands before and after
    the occurrence is kept. *)
Lemma replace_single (s old new : text) :
  old <> [] -> count_sub s old = 1 ->
  exists pre post,
    find_split old s = Some (pre, post) /\ replace s old new = pre ++ new ++ post.
Proof.
  intros Hne Hc.
  destruct (find_split old s) as [[pre post]|] eqn:F.
  - exists pre, post. split; [reflexivity|].
    rewrite (replace_unfold _ _ _ _ _ Hne F).
    rewrite (count_sub_unfold _ _ _ _ Hne F) in Hc.
    injection Hc as Hc. apply count_sub_zero in Hc.
    now rewrite (replace_absent _ _ _ Hne Hc).
  - unfold count_sub in Hc. rewrite count_loop_step, F in Hc. discriminate.
Qed.

(** [split] and [join] *)

Lemma split_nonempty (sep : ascii) (s : text) : split sep s <> [].
Proof.
  destruct s as [|c s]; simpl; [discriminate|].
  destruct (Ascii.eqb c sep); [discriminate|].
  destruct (split sep s); discriminate.
Qed.

Lemma join_split (sep : ascii) (s : text) : join [sep] (split sep s) = s.
Proof.
  induction s as [|c s IH]; [reflexivity|].
  simpl. destruct (Ascii.eqb c sep) eqn:E.
  - apply Ascii.eqb_eq in E; subst c.
    pose proof (split_nonempty sep s) as Hne.
    destruct (split sep s) as [|t ts]; [congruence|].
    simpl in *. now rewrite IH.
  - pose proof (split_nonempty sep s) as Hne.
    destruct (split sep s) as [|t ts]; [congruence|].
    destruct ts; simpl in *; now rewrite <- IH.
Qed.

Lemma split_no_sep (sep : ascii) (s : text) :
  forall t, In t (split sep s) -> ~ In sep t.
Proof.
  induction s as [|c s IH]; simpl; intros t Ht.
  - destruct Ht as [<-|[]]. intros [].
  - destruct (Ascii.eqb c sep) eqn:E.
    + destruct Ht as [<-|Ht]; [intros []|now apply IH].
    + pose proof (split_nonempty sep s) as Hne.
      destruct (split sep s) as [|t0 ts]; [congruence|].
      destruct Ht as [<-|Ht].
      * intros [->|Hin]; [now rewrite Ascii.eqb_refl in E|].
        apply (IH t0); [now left|assumption].
      * apply IH. now right.
Qed.

Lemma split_length (sep : ascii) (s : text) :
  length (split sep s) = S (count_occ ascii_dec s sep).
Proof.
  induction s as [|c s IH]; [reflexivity|].
  simpl. destruct (Ascii.eqb c sep) eqn:E.
  - apply Ascii.eqb_eq in E; subst c.
    destruct (ascii_dec sep sep); [|congruence]. simpl. now rewrite IH.
  - destruct (ascii_dec c sep) as [->|_]; [now rewrite Ascii.eqb_refl in E|].
    pose proof (split_nonempty sep s) as Hne.
    destruct (split sep s) as [|t0 ts]; [congruence|]. exact IH.
Qed.

Lemma split_without_sep (sep : ascii) (s : text) :
  ~ In sep s -> split sep s = [s].
Proof.
  induction s as [|c s IH]; intros H; [reflexivity|].
  simpl. destruct (Ascii.eqb c sep) eqn:E.
  - apply Ascii.eqb_eq in E; subst c. exfalso. apply H. now left.
  - rewrite IH; [reflexivity|]. intros Hin. apply H. now right.
Qed.

(** ** Decimal notation *)

Lemma uint_of_digits_of_uint (u : uint) : uint_of_digits (digits_of_uint u) = u.
Proof. induction u; simpl; try rewrite IHu; reflexivity. Qed.

(** [int(str(n)) == n] *)
Lemma int_str (n : nat) : int (str n) = n.
Proof.
  unfold int, str. rewrite uint_of_digits_of_uint. apply Unsigned.of_to.
Qed.

Lemma of_uint_acc_zeros (k : nat) (s : text) (acc : nat) :
  acc = 0 ->
  Nat.of_uint_acc (uint_of_digits (repeat "0"%char k ++ s)) acc
  = Nat.of_uint_acc (uint_of_digits s) acc.
Proof.
  intros ->. induction k as [|k IH]; [reflexivity|]. simpl. exact IH.
Qed.

(** Leading zeros do not change the number. *)
Lemma int_zfill (w : nat) (s : text) : int (zfill w s) = int s.
Proof. unfold int, zfill, Nat.of_uint. now apply of_uint_acc_zeros. Qed.

Lemma zfill_length (w : nat) (s : text) :
  length (zfill w s) = Nat.max w (length s).
Proof. unfold zfill. rewrite length_app, repeat_length. lia. Qed.

(** ** The matcher *)

Module ReFacts.
Import Re.

Lemma rep_sound {R : Type} (cls : ascii -> bool) (greedy : bool)
      (k : text -> option R) (s : text) :
  forall min r,
    rep cls greedy k min s = Some r ->
    exists a rest,
      s = a ++ rest /\ forallb cls a = true /\ min <= length a
      /\ k rest = Some r.
Proof.
  induction s as [|x s IH]; intros min r H.
  - destruct min as [|m]; simpl in H; [|discriminate].
    exists [], []. unfold orelse in H.
    destruct greedy; simpl in H; destruct (k []); inversion H;
      repeat split; auto.
  - assert (Hmore : forall m,
               (if cls x then rep cls greedy k m s else None) = Some r ->
               exists a rest, x :: s = a ++ rest /\ forallb cls a = true
                              /\ S m <= length a /\ k rest = Some r).
    { intros m Hm. destruct (cls x) eqn:Ex; [|discriminate].
      destruct (IH _ _ Hm) as (a & rest & -> & Ha & Hl & Hk).
      exists (x :: a), rest. simpl. rewrite Ex, Ha.
      repeat split; auto. lia. }
    destruct min as [|m]; cbn [rep pred] in H.
    + destruct greedy; unfold orelse in H.
      * destruct (if cls x then rep cls true k 0 s else None) eqn:E.
        -- inversion H; subst.
           destruct (Hmore 0 E) as (a & rest & ? & ? & ? & ?).
           exists a, rest. repeat split; auto. lia.
        -- exists [], (x :: s). repeat split; auto.
      * destruct (k (x :: s)) eqn:E.
        -- inversion H; subst. exists [], (x :: s). repeat split; auto.
        -- destruct (Hmore 0 H) as (a & rest & ? & ? & ? & ?).
           exists a, rest. repeat split; auto. lia.
    + apply (Hmore m H).
Qed.

(** If the rest of the pattern matches after some admissible run of the
    class, the repetition does not fail. *)
Lemma rep_complete {R : Type} (cls : ascii -> bool) (greedy : bool)
      (k : text -> option R) (a : text) :
  forall min rest,
    forallb cls a = true -> min <= length a -> k rest <> None ->
    rep cls greedy k min (a ++ rest) <> None.
Proof.
  induction a as [|x a IH]; intros min rest Ha Hl Hk.
  - simpl in Hl. assert (min = 0) by lia. subst min. simpl.
    destruct rest as [|y rest]; cbn [rep].
    + destruct greedy; unfold orelse; destruct (k []); congruence.
    + destruct greedy; unfold orelse.
      * destruct (if cls y then rep cls true k (pred 0) rest else None);
          [discriminate|assumption].
      * destruct (k (y :: rest)); [discriminate|congruence].
  - simpl in Ha. apply andb_prop in Ha as [Hx Ha]. simpl in Hl.
    simpl app. cbn [rep]. rewrite Hx.
    assert (Hrec : rep cls greedy k (pred min) (a ++ rest) <> None)
      by (apply IH; auto; lia).
    destruct min as [|m]; [|exact Hrec].
    cbn [pred] in *. destruct greedy; unfold orelse.
    + destruct (rep cls true k 0 (a ++ rest)); [discriminate|congruence].
    + destruct (k (x :: a ++ rest)); [discriminate|exact Hrec].
Qed.

(** A lazy repetition stops at the first position after [min] characters
    where the rest of the pattern matches. *)
Lemma rep_lazy_first {R : Type} (cls : ascii -> bool)
      (k : text -> option R) (a : text) :
  forall min rest r,
    forallb cls a = true -> min <= length a -> k rest = Some r ->
    (forall p q, a = p ++ q -> q <> [] -> min <= length p ->
                 k (q ++ rest) = None) ->
    rep cls false k min (a ++ rest) = Some r.
Proof.
  induction a as [|x a IH]; intros min rest r Ha Hl Hk Hfirst.
  - simpl in Hl. assert (min = 0) by lia. subst min. simpl.
    destruct rest; cbn [rep]; unfold orelse; now rewrite Hk.
  - simpl in Ha. apply andb_prop in Ha as [Hx Ha]. simpl in Hl.
    simpl app. cbn [rep]. rewrite Hx.
    assert (Hrec : rep cls false k (pred min) (a ++ rest) = Some r).
    { apply IH; auto; [lia|].
      intros p q Hpq Hq Hp. apply (Hfirst (x :: p) q); auto.
      - simpl. now rewrite Hpq.
      - simpl. lia. }
    destruct min as [|m]; [|exact Hrec].
    unfold orelse. cbn [pred] in Hrec.
    pose proof (Hfirst [] (x :: a) eq_refl) as H0. simpl in H0.
    rewrite H0 by (try discriminate; lia).
    exact Hrec.
Qed.

(** What a match leaves is a suffix of the text. *)
Lemma run_suffix (pat : regex) :
  forall marks caps s rest caps',
    run pat marks caps s = Some (rest, caps') -> exists a, s = a ++ rest.
Proof.
  induction pat as [|nd pat IH]; intros marks caps s rest caps' H.
  - inversion H; subst. now exists [].
  - destruct nd as [c|cls min greedy|g|g|alts]; cbn [run] in H.
    + destruct s as [|x s]; [discriminate|].
      destruct (Ascii.eqb x c); [|discriminate].
      destruct (IH _ _ _ _ _ H) as [a ->]. now exists (x :: a).
    + apply rep_sound in H as (a & r & -> & _ & _ & Hk).
      destruct (IH _ _ _ _ _ Hk) as [b ->].
      exists (a ++ b). now rewrite app_assoc.
    + eapply IH; eassumption.
    + eapply IH; eassumption.
    + destruct (existsb (startswith s) alts); [discriminate|].
      eapply IH; eassumption.
Qed.

Lemma firstn_diff (a rest : text) :
  firstn (length (a ++ rest) - length rest) (a ++ rest) = a.
Proof.
  rewrite length_app.
  replace (length a + length rest - length rest) with (length a) by lia.
  rewrite firstn_app, firstn_all, Nat.sub_diag. simpl. apply app_nil_r.
Qed.

Lemma run_consumed (pat : regex) (s rest : text) (caps : env) :
  run pat [] [] s = Some (rest, caps) ->
  firstn (length s - length rest) s ++ rest = s.
Proof.
  intros E. destruct (run_suffix _ _ _ _ _ _ E) as [a ->].
  now rewrite firstn_diff.
Qed.

(** [re.search] returns a match of the pattern at the leftmost position
    where there is one. *)
Lemma search_sound (pat : regex) (s : text) :
  forall m,
    search pat s = Some m ->
    s = m_pre m ++ m_whole m ++ m_post m
    /\ run pat [] [] (m_whole m ++ m_post m) = Some (m_post m, m_groups m)
    /\ (forall p q, s = p ++ q -> length p < length (m_pre m) ->
                    run pat [] [] q = None).
Proof.
  assert (Hhere : forall t rest caps,
             run pat [] [] t = Some (rest, caps) ->
             let m := {| m_pre := []; m_post := rest; m_groups := caps;
                         m_whole := firstn (length t - length rest) t |} in
             t = m_pre m ++ m_whole m ++ m_post m
             /\ run pat [] [] (m_whole m ++ m_post m)
                = Some (m_post m, m_groups m)
             /\ (forall p q, t = p ++ q -> length p < length (m_pre m) ->
                             run pat [] [] q = None)).
  { intros t rest caps E. cbn [m_pre m_whole m_post m_groups].
    rewrite (run_consumed _ _ _ _ E). repeat split; auto.
    simpl. intros; lia. }
  induction s as [|c s IH]; intros m H; cbn [search] in H.
  - destruct (run pat [] [] []) as [[rest caps]|] eqn:E; [|discriminate].
    inversion H; subst; clear H. exact (Hhere _ _ _ E).
  - destruct (run pat [] [] (c :: s)) as [[rest caps]|] eqn:E.
    + inversion H; subst; clear H. exact (Hhere _ _ _ E).
    + destruct (search pat s) as [m'|] eqn:F; [|discriminate].
      inversion H; subst; clear H. cbn [shift m_pre m_whole m_post m_groups].
      destruct (IH m' eq_refl) as (Hs & Hrun & Hleft).
      repeat split; auto.
      * simpl. now rewrite <- Hs.
      * intros p q Hpq Hl. destruct p as [|x p]; simpl in Hpq.
        -- now subst q.
        -- injection Hpq as _ Hpq. apply (Hleft p q Hpq). simpl in Hl. lia.
Qed.

Lemma search_none (pat : regex) (s : text) :
  search pat s = None ->
  forall p q, s = p ++ q -> run pat [] [] q = None.
Proof.
  induction s as [|c s IH]; intros H p q Hpq; cbn [search] in H.
  - destruct (run pat [] [] []) as [[? ?]|] eqn:E; [discriminate|].
    symmetry in Hpq. apply app_eq_nil in Hpq as [-> ->]. exact E.
  - destruct (run pat [] [] (c :: s)) as [[? ?]|] eqn:E; [discriminate|].
    destruct (search pat s) eqn:F; [discriminate|].
    destruct p as [|x p]; simpl in Hpq.
    + now subst q.
    + inversion Hpq; subst. now apply (IH eq_refl p q).
Qed.

Lemma search_intro (pat : regex) (pre w post : text) (caps : env) :
  run pat [] [] (w ++ post) = Some (post, caps) ->
  (forall p q, pre = p ++ q -> q <> [] ->
               run pat [] [] (q ++ w ++ post) = None) ->
  search pat (pre ++ w ++ post)
  = Some {| m_pre := pre; m_whole := w; m_post := post; m_groups := caps |}.
Proof.
  induction pre as [|c pre IH]; intros Hrun Hleft.
  - simpl app. destruct (w ++ post) as [|x t] eqn:E; cbn [search].
    + rewrite Hrun. apply app_eq_nil in E as [-> ->]. reflexivity.
    + rewrite Hrun. rewrite <- E. now rewrite firstn_diff.
  - pose proof (Hleft [] (c :: pre) eq_refl) as H0.
    simpl app in *. cbn [search].
    rewrite H0 by discriminate.
    rewrite IH; [reflexivity|assumption|].
    intros p q Hpq Hq. apply (Hleft (c :: p) q); [|assumption].
    simpl. now rewrite Hpq.
Qed.

Lemma captured_here (marks : env) (g : nat) (a rest : text) :
  captured ((g, a ++ rest) :: marks) g rest = a.
Proof.
  unfold captured. cbn [lookup]. rewrite Nat.eqb_refl. apply firstn_diff.
Qed.

(** A greedy repetition takes the whole run when the text goes on with a
    character outside the class and the rest of the pattern matches
    there. *)
Lemma rep_greedy_all {R : Type} (cls : ascii -> bool)
      (k : text -> option R) (a rest : text) (r : R) :
  forallb cls a = true ->
  match rest with [] => True | c :: _ => cls c = false end ->
  k rest = Some r ->
  forall min, min <= length a -> rep cls true k min (a ++ rest) = Some r.
Proof.
  intros Ha Hrest Hk. induction a as [|x a IH]; intros min Hmin.
  - simpl in Hmin. assert (min = 0) by lia. subst min.
    simpl. destruct rest as [|c rest]; cbn [rep]; unfold orelse.
    + exact Hk.
    + now rewrite Hrest.
  - simpl in Ha. apply andb_prop in Ha as [Hx Ha]. simpl in Hmin.
    simpl app. cbn [rep]. rewrite Hx.
    rewrite (IH Ha (pred min)) by lia.
    now destruct min.
Qed.

Lemma rep_fails {R : Type} (cls : ascii -> bool) (greedy : bool)
      (k : text -> option R) (min : nat) (s : text) :
  (forall a rest, s = a ++ rest -> forallb cls a = true -> k rest = None) ->
  rep cls greedy k min s = None.
Proof.
  intros H. destruct (rep cls greedy k min s) as [r|] eqn:E; [|reflexivity].
  apply rep_sound in E as (a & rest & Hs & Ha & _ & Hk).
  now rewrite (H a rest Hs Ha) in Hk.
Qed.

End ReFacts.

(** ** The two patterns of [expand_url] *)

Section BracePatterns.
Import Re ReFacts.

(** A match of the range pattern: the brace, the zeros of group 1, the
    digits of group 2, two dots, the digits of group 3, the brace. *)
Lemma dotexp_run (s rest : text) (caps : env) :
  run dotexp_re [] [] s = Some (rest, caps) ->
  exists z st en,
    s = "{"%char :: z ++ st ++ lit ".." ++ en ++ "}"%char :: rest
    /\ forallb is_zero z = true
    /\ forallb is_digit st = true /\ 1 <= length st
    /\ forallb is_digit en = true /\ 1 <= length en
    /\ caps = [(3, en); (2, st); (1, z)].
Proof.
  unfold dotexp_re, star, plus. intros H. cbn [run] in H.
  destruct s as [|x s]; [discriminate|].
  destruct (Ascii.eqb x "{") eqn:Ex; [|discriminate].
  apply Ascii.eqb_eq in Ex; subst x.
  apply rep_sound in H as (z & s1 & -> & Hz & _ & H). cbn [run] in H.
  rewrite captured_here in H.
  apply rep_sound in H as (st & s2 & -> & Hst & Hlst & H). cbn [run] in H.
  rewrite captured_here in H.
  destruct s2 as [|d1 s2]; [discriminate|].
  destruct (Ascii.eqb d1 ".") eqn:E1; [|discriminate].
  destruct s2 as [|d2 s2]; [discriminate|].
  destruct (Ascii.eqb d2 ".") eqn:E2; [|discriminate].
  apply Ascii.eqb_eq in E1, E2; subst d1 d2.
  apply rep_sound in H as (en & s3 & -> & Hen & Hlen & H). cbn [run] in H.
  unfold captured in H. cbn [lookup Nat.eqb] in H. rewrite firstn_diff in H.
  destruct s3 as [|b s3]; [discriminate|].
  destruct (Ascii.eqb b "}") eqn:Eb; [|discriminate].
  apply Ascii.eqb_eq in Eb; subst b. inversion H; subst.
  exists z, st, en. repeat split; auto.
Qed.

(** A match of the comma pattern: the brace, the characters of group 1,
    none of them a line feed, the brace. *)
Lemma commaexp_run (s rest : text) (caps : env) :
  run commaexp_re [] [] s = Some (rest, caps) ->
  exists tok,
    s = "{"%char :: tok ++ "}"%char :: rest
    /\ forallb dot tok = true /\ 1 <= length tok
    /\ caps = [(1, tok)].
Proof.
  unfold commaexp_re, plus_lazy. intros H. cbn [run] in H.
  destruct s as [|x s]; [discriminate|].
  destruct (Ascii.eqb x "{") eqn:Ex; [|discriminate].
  apply Ascii.eqb_eq in Ex; subst x.
  apply rep_sound in H as (tok & s1 & -> & Htok & Hl & H). cbn [run] in H.
  rewrite captured_here in H.
  destruct s1 as [|b s1]; [discriminate|].
  destruct (Ascii.eqb b "}") eqn:Eb; [|discriminate].
  apply Ascii.eqb_eq in Eb; subst b. inversion H; subst.
  exists tok. repeat split; auto.
Qed.

End BracePatterns.

Section BraceOccurrence.
Import Re ReFacts.

Lemma dotexp_complete (z st en rest : text) :
  forallb is_zero z = true ->
  forallb is_digit st = true -> 1 <= length st ->
  forallb is_digit en = true -> 1 <= length en ->
  run dotexp_re [] []
      ("{"%char :: z ++ st ++ lit ".." ++ en ++ "}"%char :: rest) <> None.
Proof.
  intros Hz Hst Hlst Hen Hlen. unfold dotexp_re, star, plus. cbn [run].
  rewrite Ascii.eqb_refl.
  apply rep_complete; [assumption|lia|]. cbn [run].
  apply rep_complete; [assumption|assumption|]. cbn [run].
  change (lit "..") with ["."%char; "."%char]. cbn [app].
  rewrite !Ascii.eqb_refl.
  apply rep_complete; [assumption|assumption|]. cbn [run].
  rewrite Ascii.eqb_refl. discriminate.
Qed.

Lemma commaexp_complete (tok rest : text) :
  forallb dot tok = true -> 1 <= length tok ->
  run commaexp_re [] [] ("{"%char :: tok ++ "}"%char :: rest) <> None.
Proof.
  intros Htok Hl. unfold commaexp_re, plus_lazy. cbn [run].
  rewrite Ascii.eqb_refl.
  apply rep_complete; [assumption|assumption|]. cbn [run].
  rewrite Ascii.eqb_refl. discriminate.
Qed.

(** The text of a match does not occur in the URL before the match: it is
    at the match that [replace] finds it first. *)
Lemma match_first_occurrence_of (pat : regex) (url : text) (m : rmatch) :
  (forall r, run pat [] [] (m_whole m ++ r) <> None) ->
  search pat url = Some m ->
  find_split (m_whole m) url = Some (m_pre m, m_post m).
Proof.
  intros Hcomplete H. apply search_sound in H as (Hs & _ & Hleft).
  apply find_split_intro; [exact Hs|].
  intros p q Hpq Hl.
  destruct (strip_prefix (m_whole m) q) as [r|] eqn:E; [|reflexivity].
  apply strip_prefix_some in E. exfalso.
  apply (Hcomplete r). rewrite <- E. now apply (Hleft p q).
Qed.

Lemma dotexp_whole (url : text) (d : rmatch) :
  search dotexp_re url = Some d ->
  m_whole d = "{"%char :: group d 1 ++ group d 2 ++ lit ".."
                       ++ group d 3 ++ ["}"%char]
  /\ forallb is_zero (group d 1) = true
  /\ forallb is_digit (group d 2) = true /\ 1 <= length (group d 2)
  /\ forallb is_digit (group d 3) = true /\ 1 <= length (group d 3).
Proof.
  intros H. apply search_sound in H as (_ & Hrun & _).
  apply dotexp_run in Hrun as (z & st & en & Hs & Hz & Hst & Hlst & Hen & Hlen & Hc).
  unfold group. rewrite Hc. cbn [lookup Nat.eqb].
  repeat split; auto.
  apply (app_inv_tail (m_post d)). rewrite Hs.
  change (lit "..") with ["."%char; "."%char].
  simpl. f_equal. repeat (rewrite <- app_assoc; simpl). reflexivity.
Qed.

Lemma commaexp_whole (url : text) (c : rmatch) :
  search commaexp_re url = Some c ->
  m_whole c = "{"%char :: group c 1 ++ ["}"%char]
  /\ forallb dot (group c 1) = true /\ 1 <= length (group c 1).
Proof.
  intros H. apply search_sound in H as (_ & Hrun & _).
  apply commaexp_run in Hrun as (tok & Hs & Htok & Hl & Hc).
  unfold group. rewrite Hc. cbn [lookup Nat.eqb].
  repeat split; auto.
  apply (app_inv_tail (m_post c)). rewrite Hs.
  simpl. f_equal. repeat (rewrite <- app_assoc; simpl). reflexivity.
Qed.

Lemma dotexp_first_occurrence (url : text) (d : rmatch) :
  search dotexp_re url = Some d ->
  find_split (m_whole d) url = Some (m_pre d, m_post d).
Proof.
  intros H. apply match_first_occurrence_of with (pat := dotexp_re); [|exact H].
  destruct (dotexp_whole _ _ H) as (Hw & Hz & Hst & Hlst & Hen & Hlen).
  intros r. rewrite Hw. change (lit "..") with ["."%char; "."%char].
  simpl. repeat (rewrite <- app_assoc; simpl).
  now apply dotexp_complete.
Qed.

Lemma commaexp_first_occurrence (url : text) (c : rmatch) :
  search commaexp_re url = Some c ->
  find_split (m_whole c) url = Some (m_pre c, m_post c).
Proof.
  intros H. apply match_first_occurrence_of with (pat := commaexp_re); [|exact H].
  destruct (commaexp_whole _ _ H) as (Hw & Htok & Hl).
  intros r. rewrite Hw. simpl. repeat (rewrite <- app_assoc; simpl).
  now apply commaexp_complete.
Qed.

End BraceOccurrence.

(** URLs with a brace expression at a known place: the search finds it
    there. *)
Section BraceShapes.
Import Re ReFacts.

Variables (pre post : text).
Hypothesis pre_no_brace : ~ In "{"%char pre.

Lemma brace_needed (pat : regex) (p q rest : text) :
  pre = p ++ q -> q <> [] ->
  run (Chr "{" :: pat) [] [] (q ++ rest) = None.
Proof.
  intros Hpq Hq. destruct q as [|y q]; [congruence|].
  rewrite <- app_comm_cons. cbn [run].
  destruct (Ascii.eqb_spec y "{") as [->|_]; [|reflexivity].
  exfalso. apply pre_no_brace. rewrite Hpq. apply in_or_app. right. now left.
Qed.

(** A group of one or more characters, none of them a closing brace or a
    line feed, after a text without an opening brace. *)
Lemma commaexp_search_shape (tok : text) :
  1 <= length tok -> forallb dot tok = true -> ~ In "}"%char tok ->
  search commaexp_re (pre ++ ("{"%char :: tok ++ ["}"%char]) ++ post)
  = Some {| m_pre := pre; m_whole := "{"%char :: tok ++ ["}"%char];
            m_post := post; m_groups := [(1, tok)] |}.
Proof.
  intros Hlen Hdot Hclose. apply search_intro.
  - unfold commaexp_re, plus_lazy. rewrite <- app_comm_cons, <- app_assoc.
    cbn [run]. rewrite Ascii.eqb_refl.
    apply rep_lazy_first; [assumption|assumption| |].
    + cbn [run app]. rewrite Ascii.eqb_refl.
      change ("}"%char :: post) with (["}"%char] ++ post).
      now rewrite captured_here.
    + intros p q -> Hq _. destruct q as [|y q]; [congruence|].
      rewrite <- app_comm_cons. cbn [run].
      destruct (Ascii.eqb_spec y "}") as [->|_]; [|reflexivity].
      exfalso. apply Hclose. apply in_or_app. right. now left.
  - intros p q Hpq Hq. now apply brace_needed with (p := p).
Qed.

(** A range whose START does not begin with a zero after its padding. *)
Lemma dotexp_search_shape (z st en : text) (d : ascii) (st' : text) :
  forallb is_zero z = true ->
  st = d :: st' -> is_zero d = false -> forallb is_digit st = true ->
  1 <= length en -> forallb is_digit en = true ->
  search dotexp_re
         (pre ++ ("{"%char :: z ++ st ++ lit ".." ++ en ++ ["}"%char]) ++ post)
  = Some {| m_pre := pre;
            m_whole := "{"%char :: z ++ st ++ lit ".." ++ en ++ ["}"%char];
            m_post := post; m_groups := [(3, en); (2, st); (1, z)] |}.
Proof.
  intros Hz Hst Hd Hdig Hlen Hen. apply search_intro.
  - unfold dotexp_re, star, plus.
    replace (("{"%char :: z ++ st ++ lit ".." ++ en ++ ["}"%char]) ++ post)
      with ("{"%char :: z ++ st ++ "."%char :: "."%char :: en
                     ++ "}"%char :: post)
      by (change (lit "..") with ["."%char; "."%char]; simpl;
          repeat (rewrite <- app_assoc; simpl); reflexivity).
    cbn [run]. rewrite Ascii.eqb_refl.
    apply rep_greedy_all; [assumption|subst st; exact Hd| |lia].
    cbn [run]. rewrite captured_here.
    apply rep_greedy_all; [assumption|reflexivity| |subst st; simpl; lia].
    cbn [run]. rewrite captured_here. rewrite !Ascii.eqb_refl.
    apply rep_greedy_all; [assumption|reflexivity| |assumption].
    cbn [run]. rewrite Ascii.eqb_refl.
    change ("}"%char :: post) with (["}"%char] ++ post) at 1.
    unfold captured. cbn [lookup Nat.eqb].
    change ("}"%char :: post) with (["}"%char] ++ post).
    change (en ++ ["}"%char] ++ post) with (en ++ ["}"%char] ++ post).
    now rewrite firstn_diff.
  - intros p q Hpq Hq. now apply brace_needed with (p := p).
Qed.

End BraceShapes.

(** ** [expand_url] *)

Lemma nth_error_seq (a n k : nat) : k < n -> nth_error (seq a n) k = Some (a + k).
Proof.
  revert a k; induction n as [|n IH]; intros a k Hk; [lia|].
  destruct k as [|k]; simpl.
  - f_equal. lia.
  - rewrite IH by lia. f_equal. lia.
Qed.

Lemma range_urls (raw_url : text) (d : Re.rmatch) :
  Re.search dotexp_re raw_url = Some d ->
  int (Re.group d 2) <= int (Re.group d 3) ->
  expand_url raw_url
  = Ok (map (fun n => replace raw_url (Re.m_whole d) n)
            (map (fun num => zfill (length (Re.group d 1) + 1) (str num))
                 (range (int (Re.group d 2)) (int (Re.group d 3) + 1)))).
Proof.
  intros H Hle. unfold expand_url. rewrite H.
  destruct (Nat.ltb_spec (int (Re.group d 3)) (int (Re.group d 2))); [lia|].
  reflexivity.
Qed.

Lemma comma_urls (raw_url : text) (c : Re.rmatch) :
  Re.search dotexp_re raw_url = None ->
  Re.search commaexp_re raw_url = Some c ->
  expand_url raw_url
  = Ok (map (fun n => replace raw_url (Re.m_whole c) n)
            (split ","%char (Re.group c 1))).
Proof. intros Hd Hc. unfold expand_url. now rewrite Hd, Hc. Qed.

(** C2: a URL in which the range pattern matches, with START <= END, expands
    to END-START+1 URLs; the k-th of them (from 0) carries the number
    START+k, written in decimal and filled with zeros on the left to the
    width that the zeros of group 1 give (their number plus one); the match
    is the text of a brace, zeros, the digits of START, two dots, the digits
    of END and a brace.  Spelled out for a URL whose first brace opens such
    a range, with a START that does not begin with a zero after its padding:
    the URLs are the text before the range, the padded number, and the text
    after the range, for the numbers START, START+1, ..., END in this
    order.  In particular the URL [http://x.com/p{01..03}.html] gives the
    three URLs that end in p01, p02, p03 (before [.html]). *)
Theorem expand_url_numeric_range :
  (forall raw_url d,
     Re.search dotexp_re raw_url = Some d ->
     int (Re.group d 2) <= int (Re.group d 3) ->
     Re.m_whole d = "{"%char :: Re.group d 1 ++ Re.group d 2 ++ lit ".."
                             ++ Re.group d 3 ++ ["}"%char]
     /\ forallb is_zero (Re.group d 1) = true
     /\ exists urls,
         expand_url raw_url = Ok urls
         /\ length urls = int (Re.group d 3) - int (Re.group d 2) + 1
         /\ forall k,
             k < int (Re.group d 3) - int (Re.group d 2) + 1 ->
             exists num,
               nth_error urls k = Some (replace raw_url (Re.m_whole d) num)
               /\ num = zfill (length (Re.group d 1) + 1)
                              (str (int (Re.group d 2) + k))
               /\ int num = int (Re.group d 2) + k
               /\ length (Re.group d 1) + 1 <= length num)
  /\ (forall pre z st en post d0 st',
        ~ In "{"%char pre ->
        forallb is_zero z = true ->
        st = d0 :: st' -> is_zero d0 = false -> forallb is_digit st = true ->
        1 <= length en -> forallb is_digit en = true ->
        int st <= int en ->
        expand_url (pre ++ ("{"%char :: z ++ st ++ lit ".." ++ en ++ ["}"%char])
                        ++ post)
        = Ok (map (fun n =>
                     pre ++ zfill (length z + 1) (str n)
                     ++ replace post
                          ("{"%char :: z ++ st ++ lit ".." ++ en ++ ["}"%char])
                          (zfill (length z + 1) (str n)))
                  (seq (int st) (int en - int st + 1))))
  /\ expand_url (lit "http://x.com/p{01..03}.html")
     = Ok [lit "http://x.com/p01.html"; lit "http://x.com/p02.html";
           lit "http://x.com/p03.html"].
Proof.
  split; [|split; [|vm_compute; reflexivity]].
  - intros raw_url d H Hle.
    destruct (dotexp_whole _ _ H) as (Hw & Hz & _).
    split; [exact Hw|]. split; [exact Hz|].
    eexists. split; [exact (range_urls _ _ H Hle)|].
    split.
    + rewrite !length_map. unfold range. rewrite length_seq. lia.
    + intros k Hk.
      exists (zfill (length (Re.group d 1) + 1) (str (int (Re.group d 2) + k))).
      repeat split.
      * apply map_nth_error.
        apply map_nth_error with
          (f := fun num => zfill (length (Re.group d 1) + 1) (str num)).
        unfold range. apply nth_error_seq. lia.
      * now rewrite int_zfill, int_str.
      * rewrite zfill_length. lia.
  - intros pre z st en post d0 st' Hpre Hz Hst Hd0 Hdig Hlen Hen Hle.
    pose proof (dotexp_search_shape pre post Hpre z st en d0 st'
                  Hz Hst Hd0 Hdig Hlen Hen) as Hs.
    pose proof (dotexp_first_occurrence _ _ Hs) as Hfirst.
    cbn [Re.m_pre Re.m_whole Re.m_post] in Hfirst.
    rewrite (range_urls _ _ Hs) by exact Hle.
    unfold Re.group. cbn [Re.m_groups Re.m_whole Re.lookup Nat.eqb].
    rewrite map_map. unfold range. f_equal.
    replace (int en + 1 - int st) with (int en - int st + 1) by lia.
    apply map_ext. intros n.
    apply replace_unfold; [discriminate|exact Hfirst].
Qed.

Lemma expand_url_numeric_range_witness :
  (Re.search dotexp_re (lit "http://x.com/p{01..03}.html")
   = Some range_example_match
   /\ int (lit "1") <= int (lit "03")
   /\ exists urls,
       expand_url (lit "http://x.com/p{01..03}.html") = Ok urls
       /\ length urls = 3)
  /\ expand_url (lit "http://x.com/p"
                 ++ ("{"%char :: lit "0" ++ lit "1" ++ lit ".." ++ lit "03"
                             ++ ["}"%char])
                 ++ lit ".html")
     = Ok (map (fun n =>
                  lit "http://x.com/p" ++ zfill (length (lit "0") + 1) (str n)
                  ++ replace (lit ".html")
                       ("{"%char :: lit "0" ++ lit "1" ++ lit ".." ++ lit "03"
                                 ++ ["}"%char])
                       (zfill (length (lit "0") + 1) (str n)))
               (seq (int (lit "1")) (int (lit "03") - int (lit "1") + 1))).
Proof.
  assert (Hs : Re.search dotexp_re (lit "http://x.com/p{01..03}.html")
               = Some range_example_match) by (vm_compute; reflexivity).
  assert (Hle : int (Re.group range_example_match 2)
                <= int (Re.group range_example_match 3))
    by (vm_compute; repeat constructor).
  split.
  - split; [exact Hs|]. split; [exact Hle|].
    destruct (proj1 expand_url_numeric_range _ _ Hs Hle)
      as (_ & _ & urls & Hu & Hlen & _).
    exists urls. split; [exact Hu|exact Hlen].
  - refine (proj1 (proj2 expand_url_numeric_range)
              (lit "http://x.com/p") (lit "0") (lit "1") (lit "03")
              (lit ".html") "1"%char [] _ eq_refl eq_refl eq_refl eq_refl
              _ eq_refl Hle).
    + absent_char.
    + vm_compute. repeat constructor.
Defined.

(** C5: a URL in which the range pattern matches with START > END makes
    [expand_url] raise; no list of URLs is returned.  Spelled out for a URL
    whose first brace opens such a range, and in particular for [{5..1}]. *)
Theorem expand_url_negative_range :
  (forall raw_url d,
     Re.search dotexp_re raw_url = Some d ->
     int (Re.group d 3) < int (Re.group d 2) ->
     expand_url raw_url = Raise "Negative dotexpansion not supported"
     /\ forall urls, expand_url raw_url <> Ok urls)
  /\ (forall pre z st en post d0 st',
        ~ In "{"%char pre ->
        forallb is_zero z = true ->
        st = d0 :: st' -> is_zero d0 = false -> forallb is_digit st = true ->
        1 <= length en -> forallb is_digit en = true ->
        int en < int st ->
        expand_url (pre ++ ("{"%char :: z ++ st ++ lit ".." ++ en ++ ["}"%char])
                        ++ post)
        = Raise "Negative dotexpansion not supported")
  /\ expand_url (lit "http://x.com/{5..1}")
     = Raise "Negative dotexpansion not supported".
Proof.
  assert (General : forall raw_url d,
     Re.search dotexp_re raw_url = Some d ->
     int (Re.group d 3) < int (Re.group d 2) ->
     expand_url raw_url = Raise "Negative dotexpansion not supported").
  { intros raw_url d H Hlt. unfold expand_url. rewrite H.
    destruct (Nat.ltb_spec (int (Re.group d 3)) (int (Re.group d 2))); [|lia].
    reflexivity. }
  split; [|split; [|vm_compute; reflexivity]].
  - intros raw_url d H Hlt. split; [now apply (General _ d)|].
    intros urls. rewrite (General _ d H Hlt). discriminate.
  - intros pre z st en post d0 st' Hpre Hz Hst Hd0 Hdig Hlen Hen Hlt.
    exact (General _ _ (dotexp_search_shape pre post Hpre z st en d0 st'
                          Hz Hst Hd0 Hdig Hlen Hen) Hlt).
Qed.

Lemma expand_url_negative_range_witness :
  (Re.search dotexp_re (lit "http://x.com/{5..1}") = Some negative_example_match
   /\ int (lit "1") < int (lit "5")
   /\ expand_url (lit "http://x.com/{5..1}")
      = Raise "Negative dotexpansion not supported")
  /\ expand_url (lit "http://x.com/"
                 ++ ("{"%char :: [] ++ lit "5" ++ lit ".." ++ lit "1"
                             ++ ["}"%char])
                 ++ [])
     = Raise "Negative dotexpansion not supported".
Proof.
  assert (Hs : Re.search dotexp_re (lit "http://x.com/{5..1}")
               = Some negative_example_match) by (vm_compute; reflexivity).
  assert (Hlt : int (Re.group negative_example_match 3)
                < int (Re.group negative_example_match 2))
    by (vm_compute; repeat constructor).
  split.
  - split; [exact Hs|]. split; [exact Hlt|].
    exact (proj1 (proj1 expand_url_negative_range _ _ Hs Hlt)).
  - refine (proj1 (proj2 expand_url_negative_range)
              (lit "http://x.com/") [] (lit "5") (lit "1") [] "5"%char []
              _ eq_refl eq_refl eq_refl eq_refl _ eq_refl Hlt).
    + absent_char.
    + vm_compute. repeat constructor.
Defined.

(** C8: a URL in which the comma pattern matches and the range pattern does
    not expands to one URL per token of group 1, in the order of the
    tokens; the tokens are the pieces of group 1 between its commas (joined
    by commas they give group 1 back, and none holds a comma), one more than
    there are commas; an empty token gives the URL with the brace
    expression removed.  Spelled out for a URL whose first brace opens a
    group without a closing brace or a line feed inside: the URLs are the
    text before the group, the token, and the text after the group.  In
    particular for [http://x.com/{a,b,}]. *)
Theorem expand_url_comma_list :
  (forall raw_url c,
     Re.search dotexp_re raw_url = None ->
     Re.search commaexp_re raw_url = Some c ->
     Re.m_whole c = "{"%char :: Re.group c 1 ++ ["}"%char]
     /\ join [","%char] (split ","%char (Re.group c 1)) = Re.group c 1
     /\ (forall tok, In tok (split ","%char (Re.group c 1)) ->
                     ~ In ","%char tok)
     /\ length (split ","%char (Re.group c 1))
        = S (count_occ ascii_dec (Re.group c 1) ","%char)
     /\ expand_url raw_url
        = Ok (map (fun tok => replace raw_url (Re.m_whole c) tok)
                  (split ","%char (Re.group c 1)))
     /\ (In [] (split ","%char (Re.group c 1)) ->
         exists urls, expand_url raw_url = Ok urls
                      /\ In (replace raw_url (Re.m_whole c) []) urls))
  /\ (forall pre list_ post,
        ~ In "{"%char pre ->
        1 <= length list_ -> forallb Re.dot list_ = true ->
        ~ In "}"%char list_ ->
        Re.search dotexp_re (pre ++ ("{"%char :: list_ ++ ["}"%char]) ++ post)
        = None ->
        expand_url (pre ++ ("{"%char :: list_ ++ ["}"%char]) ++ post)
        = Ok (map (fun tok =>
                     pre ++ tok
                     ++ replace post ("{"%char :: list_ ++ ["}"%char]) tok)
                  (split ","%char list_)))
  /\ expand_url (lit "http://x.com/{a,b,}")
     = Ok [lit "http://x.com/a"; lit "http://x.com/b"; lit "http://x.com/"].
Proof.
  split; [|split; [|vm_compute; reflexivity]].
  - intros raw_url c Hd Hc.
    destruct (commaexp_whole _ _ Hc) as (Hw & _).
    split; [exact Hw|].
    split; [apply join_split|].
    split; [apply split_no_sep|].
    split; [apply split_length|].
    split; [now apply comma_urls|].
    intros Hin. eexists. split; [exact (comma_urls _ _ Hd Hc)|].
    now apply (in_map (fun tok => replace raw_url (Re.m_whole c) tok)) in Hin.
  - intros pre list_ post Hpre Hlen Hdot Hclose Hd.
    pose proof (commaexp_search_shape pre post Hpre list_ Hlen Hdot Hclose)
      as Hs.
    pose proof (commaexp_first_occurrence _ _ Hs) as Hfirst.
    cbn [Re.m_pre Re.m_whole Re.m_post] in Hfirst.
    rewrite (comma_urls _ _ Hd Hs).
    unfold Re.group. cbn [Re.m_groups Re.m_whole Re.lookup Nat.eqb].
    f_equal. apply map_ext. intros tok.
    apply replace_unfold; [discriminate|exact Hfirst].
Qed.

Lemma expand_url_comma_list_witness :
  (Re.search dotexp_re (lit "http://x.com/{a,b,}") = None
   /\ Re.search commaexp_re (lit "http://x.com/{a,b,}")
      = Some comma_example_match
   /\ expand_url (lit "http://x.com/{a,b,}")
      = Ok (map (fun tok =>
                   replace (lit "http://x.com/{a,b,}") (lit "{a,b,}") tok)
                [lit "a"; lit "b"; []]))
  /\ expand_url (lit "http://x.com/"
                 ++ ("{"%char :: lit "a,b," ++ ["}"%char]) ++ [])
     = Ok (map (fun tok =>
                  lit "http://x.com/" ++ tok
                  ++ replace [] ("{"%char :: lit "a,b," ++ ["}"%char]) tok)
               (split ","%char (lit "a,b,"))).
Proof.
  assert (Hd : Re.search dotexp_re (lit "http://x.com/{a,b,}") = None)
    by (vm_compute; reflexivity).
  assert (Hc : Re.search commaexp_re (lit "http://x.com/{a,b,}")
               = Some comma_example_match) by (vm_compute; reflexivity).
  split.
  - split; [exact Hd|]. split; [exact Hc|].
    exact (proj1 (proj2 (proj2 (proj2 (proj2
             (proj1 expand_url_comma_list _ _ Hd Hc)))))).
  - refine (proj1 (proj2 expand_url_comma_list)
              (lit "http://x.com/") (lit "a,b,") [] _ _ eq_refl _ Hd).
    + absent_char.
    + vm_compute. repeat constructor.
    + absent_char.
Defined.

(** C10: a URL in which the comma pattern matches with a group 1 that holds
    no comma, and in which the range pattern does not match, takes the comma
    branch and expands to exactly one URL: the raw URL with the braces of
    the group removed and the token kept.  [expand_url] returns; it does not
    raise.  Spelled out for a URL whose first brace opens a group of one
    token (no comma, no closing brace, no line feed inside).  In particular
    for [http://x.com/{abc}]. *)
Theorem expand_url_single_token :
  (forall raw_url c,
     Re.search dotexp_re raw_url = None ->
     Re.search commaexp_re raw_url = Some c ->
     ~ In ","%char (Re.group c 1) ->
     raw_url = Re.m_pre c ++ "{"%char :: Re.group c 1 ++ "}"%char :: Re.m_post c
     /\ expand_url raw_url
        = Ok [Re.m_pre c ++ Re.group c 1
              ++ replace (Re.m_post c) (Re.m_whole c) (Re.group c 1)]
     /\ (count_sub raw_url (Re.m_whole c) = 1 ->
         expand_url raw_url = Ok [Re.m_pre c ++ Re.group c 1 ++ Re.m_post c]))
  /\ (forall pre tok post,
        ~ In "{"%char pre ->
        1 <= length tok -> forallb Re.dot tok = true ->
        ~ In "}"%char tok -> ~ In ","%char tok ->
        Re.search dotexp_re (pre ++ ("{"%char :: tok ++ ["}"%char]) ++ post)
        = None ->
        expand_url (pre ++ ("{"%char :: tok ++ ["}"%char]) ++ post)
        = Ok [pre ++ tok
              ++ replace post ("{"%char :: tok ++ ["}"%char]) tok])
  /\ expand_url (lit "http://x.com/{abc}") = Ok [lit "http://x.com/abc"].
Proof.
  assert (General : forall raw_url c,
     Re.search dotexp_re raw_url = None ->
     Re.search commaexp_re raw_url = Some c ->
     ~ In ","%char (Re.group c 1) ->
     raw_url = Re.m_pre c ++ "{"%char :: Re.group c 1 ++ "}"%char :: Re.m_post c
     /\ expand_url raw_url
        = Ok [Re.m_pre c ++ Re.group c 1
              ++ replace (Re.m_post c) (Re.m_whole c) (Re.group c 1)]
     /\ (count_sub raw_url (Re.m_whole c) = 1 ->
         expand_url raw_url = Ok [Re.m_pre c ++ Re.group c 1 ++ Re.m_post c]));
    [|split; [exact General|split; [|vm_compute; reflexivity]];
      intros pre tok post Hpre Hlen Hdot Hclose Hcomma Hd;
      exact (proj1 (proj2 (General _ _ Hd
               (commaexp_search_shape pre post Hpre tok Hlen Hdot Hclose)
               Hcomma)))].
  intros raw_url c Hd Hc Hcomma.
  destruct (commaexp_whole _ _ Hc) as (Hw & _).
  pose proof (commaexp_first_occurrence _ _ Hc) as Hfirst.
  assert (Hne : Re.m_whole c <> []) by (rewrite Hw; discriminate).
  assert (Hurls : expand_url raw_url
                  = Ok [Re.m_pre c ++ Re.group c 1
                        ++ replace (Re.m_post c) (Re.m_whole c) (Re.group c 1)]).
  { rewrite (comma_urls _ _ Hd Hc), (split_without_sep _ _ Hcomma).
    cbn [map]. now rewrite (replace_unfold _ _ _ _ _ Hne Hfirst). }
  split; [|split; [exact Hurls|]].
  - apply find_split_some in Hfirst. rewrite Hfirst, Hw.
    simpl. now rewrite <- app_assoc.
  - intros Hone. rewrite Hurls.
    rewrite (count_sub_unfold _ _ _ _ Hne Hfirst) in Hone.
    injection Hone as Hone. apply count_sub_zero in Hone.
    now rewrite (replace_absent _ _ _ Hne Hone).
Qed.

Lemma expand_url_single_token_witness :
  (Re.search dotexp_re (lit "http://x.com/{abc}") = None
   /\ Re.search commaexp_re (lit "http://x.com/{abc}")
      = Some single_example_match
   /\ ~ In ","%char (lit "abc")
   /\ count_sub (lit "http://x.com/{abc}") (lit "{abc}") = 1
   /\ expand_url (lit "http://x.com/{abc}")
      = Ok [lit "http://x.com/" ++ lit "abc" ++ []])
  /\ expand_url (lit "http://x.com/"
                 ++ ("{"%char :: lit "abc" ++ ["}"%char]) ++ [])
     = Ok [lit "http://x.com/" ++ lit "abc"
           ++ replace [] ("{"%char :: lit "abc" ++ ["}"%char]) (lit "abc")].
Proof.
  assert (Hd : Re.search dotexp_re (lit "http://x.com/{abc}") = None)
    by (vm_compute; reflexivity).
  assert (Hc : Re.search commaexp_re (lit "http://x.com/{abc}")
               = Some single_example_match) by (vm_compute; reflexivity).
  assert (Hcomma : ~ In ","%char (Re.group single_example_match 1))
    by absent_char.
  assert (Hone : count_sub (lit "http://x.com/{abc}")
                           (Re.m_whole single_example_match) = 1)
    by (vm_compute; reflexivity).
  split.
  - split; [exact Hd|]. split; [exact Hc|]. split; [exact Hcomma|].
    split; [exact Hone|].
    exact (proj2 (proj2 (proj1 expand_url_single_token _ _ Hd Hc Hcomma)) Hone).
  - refine (proj1 (proj2 expand_url_single_token)
              (lit "http://x.com/") (lit "abc") [] _ _ eq_refl _ _ Hd).
    + absent_char.
    + vm_compute. repeat constructor.
    + absent_char.
    + absent_char.
Defined.

(** The claim C3 as the specification states it fails: in
    [http://x.com/{a,b}/{a,b}] the second brace group is rewritten together
    with the first one in both URLs of the result. *)
Lemma expand_url_second_group_rewritten :
  exists m urls,
    expanded_match (lit "http://x.com/{a,b}/{a,b}") = Some m
    /\ expand_url (lit "http://x.com/{a,b}/{a,b}") = Ok urls
    /\ urls = [lit "http://x.com/a/a"; lit "http://x.com/b/b"]
    /\ Re.m_post m = lit "/{a,b}"
    /\ ~ only_match_expanded m urls.
Proof.
  eexists. eexists.
  split; [vm_compute; reflexivity|].
  split; [vm_compute; reflexivity|].
  split; [reflexivity|]. split; [reflexivity|].
  intros H. destruct (H (lit "http://x.com/a/a")) as [tok Htok]; [now left|].
  cbn [Re.m_pre Re.m_post] in Htok.
  apply (f_equal (@rev ascii)) in Htok.
  rewrite !rev_app_distr in Htok. vm_compute in Htok. discriminate Htok.
Qed.

(** C3, amended: a call of [expand_url] expands one brace expression, the
    leftmost match of the range pattern when there is one, else the
    leftmost match of the comma pattern.  Every URL of the result is the raw
    URL in which each occurrence of the text of that match is replaced by
    the same token: the text before the match is kept, and the text after
    it is kept except where the text of the match occurs again.  When that
    text occurs once in the raw URL, every other brace group is left as it
    is in every URL of the result.  A URL without a match is returned
    alone. *)
Theorem expand_url_one_expression :
  forall raw_url,
    (forall m urls,
        expanded_match raw_url = Some m ->
        expand_url raw_url = Ok urls ->
        raw_url = Re.m_pre m ++ Re.m_whole m ++ Re.m_post m
        /\ (forall u, In u urls ->
              exists tok,
                u = Re.m_pre m ++ tok
                    ++ replace (Re.m_post m) (Re.m_whole m) tok)
        /\ (count_sub raw_url (Re.m_whole m) = 1 -> only_match_expanded m urls))
    /\ (expanded_match raw_url = None -> expand_url raw_url = Ok [raw_url]).
Proof.
  intros raw_url. split.
  - intros m urls Hm Hu.
    assert (Hfirst : find_split (Re.m_whole m) raw_url
                     = Some (Re.m_pre m, Re.m_post m)
                     /\ Re.m_whole m <> []
                     /\ exists toks,
                         urls = map (fun n => replace raw_url (Re.m_whole m) n)
                                    toks).
    { unfold expanded_match in Hm. unfold expand_url in Hu.
      destruct (Re.search dotexp_re raw_url) as [d|] eqn:Hd.
      - injection Hm as <-.
        destruct (dotexp_whole _ _ Hd) as (Hw & _).
        split; [now apply dotexp_first_occurrence|].
        split; [rewrite Hw; discriminate|].
        destruct (Nat.ltb (int (Re.group d 3)) (int (Re.group d 2)));
          [discriminate|].
        injection Hu as <-. eexists. reflexivity.
      - rewrite Hm in Hu.
        destruct (commaexp_whole _ _ Hm) as (Hw & _).
        split; [now apply commaexp_first_occurrence|].
        split; [rewrite Hw; discriminate|].
        injection Hu as <-. eexists. reflexivity. }
    destruct Hfirst as (Hfirst & Hne & toks & ->).
    split; [now apply find_split_some in Hfirst|].
    split.
    + intros u Hin. apply in_map_iff in Hin as (tok & <- & _).
      exists tok. now apply replace_unfold.
    + intros Hone u Hin. apply in_map_iff in Hin as (tok & <- & _).
      exists tok. rewrite (replace_unfold _ _ _ _ _ Hne Hfirst).
      rewrite (count_sub_unfold _ _ _ _ Hne Hfirst) in Hone.
      injection Hone as Hone. apply count_sub_zero in Hone.
      now rewrite (replace_absent _ _ _ Hne Hone).
  - unfold expanded_match, expand_url.
    destruct (Re.search dotexp_re raw_url); [discriminate|].
    now intros ->.
Qed.

Lemma expand_url_one_expression_witness :
  expanded_match (lit "http://x.com/{a,b}/{c,d}") = Some two_groups_example_match
  /\ expand_url (lit "http://x.com/{a,b}/{c,d}")
     = Ok [lit "http://x.com/a/{c,d}"; lit "http://x.com/b/{c,d}"]
  /\ count_sub (lit "http://x.com/{a,b}/{c,d}") (lit "{a,b}") = 1
  /\ only_match_expanded two_groups_example_match
       [lit "http://x.com/a/{c,d}"; lit "http://x.com/b/{c,d}"].
Proof.
  assert (Hm : expanded_match (lit "http://x.com/{a,b}/{c,d}")
               = Some two_groups_example_match) by (vm_compute; reflexivity).
  assert (Hu : expand_url (lit "http://x.com/{a,b}/{c,d}")
               = Ok [lit "http://x.com/a/{c,d}"; lit "http://x.com/b/{c,d}"])
    by (vm_compute; reflexivity).
  assert (Hone : count_sub (lit "http://x.com/{a,b}/{c,d}")
                           (Re.m_whole two_groups_example_match) = 1)
    by (vm_compute; reflexivity).
  split; [exact Hm|]. split; [exact Hu|]. split; [exact Hone|].
  exact (proj2 (proj2 (proj1 (expand_url_one_expression _) _ _ Hm Hu)) Hone).
Defined.

(** ** [gen_metadata] *)

Section TagsPattern.
Import Re ReFacts.

Lemma lstrip_split (s : text) :
  exists w, s = w ++ lstrip s /\ forallb is_space w = true.
Proof.
  induction s as [|c s (w & Hs & Hw)]; [now exists []|].
  simpl. destruct (is_space c) eqn:E.
  - exists (c :: w). simpl. rewrite E, Hw. split; [now rewrite <- Hs|reflexivity].
  - now exists [].
Qed.

Lemma lstrip_head (s : text) :
  match lstrip s with [] => True | c :: _ => is_space c = false end.
Proof.
  induction s as [|c s IH]; [exact I|].
  simpl. destruct (is_space c) eqn:E; [exact IH|exact E].
Qed.

Lemma rstrip_split (s : text) :
  exists w, s = rstrip s ++ w /\ forallb is_space w = true.
Proof.
  destruct (lstrip_split (rev s)) as (w & Hs & Hw).
  exists (rev w). split.
  - unfold rstrip. rewrite <- rev_app_distr, <- Hs. symmetry. apply rev_involutive.
  - rewrite forallb_forall in *. intros x Hx. apply Hw. now apply in_rev.
Qed.

Lemma rstrip_last (s : text) :
  forall p x, rstrip s = p ++ [x] -> is_space x = false.
Proof.
  intros p x H. unfold rstrip in H.
  apply (f_equal (@rev ascii)) in H.
  rewrite rev_involutive, rev_app_distr in H. simpl in H.
  pose proof (lstrip_head (rev s)) as Hh. now rewrite H in Hh.
Qed.

Lemma lstrip_app_comma (t rest : text) :
  lstrip (t ++ ","%char :: rest) = lstrip t ++ ","%char :: rest.
Proof.
  induction t as [|c t IH]; [reflexivity|].
  simpl. now destruct (is_space c).
Qed.

Lemma comma_not_space : is_space ","%char = false.
Proof. reflexivity. Qed.

(** The pattern of the tags fails where the white space at the start of
    the text is followed by something else than a comma. *)
Lemma tags_re_fails (w : text) (x : ascii) (rest : text) :
  forallb is_space w = true -> is_space x = false -> x <> ","%char ->
  run tags_re [] [] (w ++ x :: rest) = None.
Proof.
  intros Hw Hx Hne. unfold tags_re, star. cbn [run].
  apply rep_fails. intros a r Hs Ha.
  assert (Hr : exists y r', r = y :: r' /\ y <> ","%char).
  { revert a Hs Ha. induction w as [|c w IH]; intros a Hs Ha.
    - simpl in Hs. destruct a as [|y a].
      + simpl in Hs. subst r. now exists x, rest.
      + simpl in Hs. injection Hs as -> Hs. simpl in Ha.
        now rewrite Hx in Ha.
    - simpl in Hw. apply andb_prop in Hw as [Hc Hw].
      destruct a as [|y a].
      + simpl in Hs. subst r. exists c, (w ++ x :: rest). split; [reflexivity|].
        intros ->. now rewrite comma_not_space in Hc.
      + simpl in Hs. injection Hs as -> Hs. simpl in Ha.
        apply andb_prop in Ha as [_ Ha]. now apply (IH Hw a). }
  destruct Hr as (y & r' & -> & Hy). cbn [run].
  destruct (Ascii.eqb y ",") eqn:E; [|reflexivity].
  apply Ascii.eqb_eq in E. contradiction.
Qed.

Lemma tags_re_here (w w2 rest : text) :
  forallb is_space w = true -> forallb is_space w2 = true ->
  match rest with [] => True | c :: _ => is_space c = false end ->
  run tags_re [] [] (w ++ ","%char :: w2 ++ rest) = Some (rest, []).
Proof.
  intros Hw Hw2 Hrest. unfold tags_re, star. cbn [run].
  apply rep_greedy_all; [assumption|exact comma_not_space| |lia].
  cbn [run]. rewrite Ascii.eqb_refl.
  apply rep_greedy_all; [assumption|assumption|reflexivity|lia].
Qed.

End TagsPattern.

Section TagsSplit.
Import ReFacts.

Lemma split_cases (s : text) :
  (~ In ","%char s /\ split ","%char s = [s])
  \/ (exists t rest, s = t ++ ","%char :: rest /\ ~ In ","%char t
                     /\ split ","%char s = t :: split ","%char rest).
Proof.
  induction s as [|c s IH].
  - left. split; [intros []|reflexivity].
  - destruct (Ascii.eqb c ",") eqn:E.
    + apply Ascii.eqb_eq in E; subst c. right. exists [], s.
      split; [reflexivity|]. split; [intros []|]. simpl. reflexivity.
    + assert (Hc : c <> ","%char) by (intros ->; now rewrite Ascii.eqb_refl in E).
      destruct IH as [(Hno & Hs)|(t & rest & -> & Hno & Hs)].
      * left. split.
        -- intros [H|H]; contradiction.
        -- simpl. now rewrite E, Hs.
      * right. exists (c :: t), rest.
        split; [reflexivity|]. split.
        -- intros [H|H]; contradiction.
        -- change ((c :: t) ++ ","%char :: rest) with (c :: t ++ ","%char :: rest).
           cbn [split]. now rewrite E, Hs.
Qed.

Lemma tags_search_none (s : text) :
  ~ In ","%char s -> Re.search tags_re s = None.
Proof.
  intros Hno. destruct (Re.search tags_re s) as [m|] eqn:E; [|reflexivity].
  exfalso. apply search_sound in E as (Hs & Hrun & _).
  unfold tags_re, Re.star in Hrun. cbn [Re.run] in Hrun.
  apply rep_sound in Hrun as (a & r & Hw & _ & _ & Hk). cbn [Re.run] in Hk.
  destruct r as [|y r]; [discriminate|].
  destruct (Ascii.eqb y ",") eqn:Ey; [|discriminate].
  apply Ascii.eqb_eq in Ey; subst y.
  apply Hno. rewrite Hs, Hw.
  apply in_or_app. right. apply in_or_app. right. now left.
Qed.

Lemma tags_search (t rest : text) :
  ~ In ","%char t ->
  exists w w2,
    Re.search tags_re (t ++ ","%char :: rest)
    = Some {| Re.m_pre := rstrip t; Re.m_whole := w ++ ","%char :: w2;
              Re.m_post := lstrip rest; Re.m_groups := [] |}.
Proof.
  intros Hno.
  destruct (rstrip_split t) as (w & Ht & Hw).
  destruct (lstrip_split rest) as (w2 & Hr & Hw2).
  exists w, w2.
  assert (Hs : t ++ ","%char :: rest
               = rstrip t ++ (w ++ ","%char :: w2) ++ lstrip rest).
  { rewrite Ht at 1. rewrite Hr at 1.
    repeat (rewrite <- app_assoc; simpl). reflexivity. }
  rewrite Hs. apply search_intro.
  - rewrite <- app_assoc. simpl. apply tags_re_here; auto.
    apply lstrip_head.
  - intros p q Hpq Hq.
    destruct (exists_last Hq) as (q0 & y & ->).
    assert (Hy : is_space y = false).
    { apply (rstrip_last t (p ++ q0) y). now rewrite Hpq, app_assoc. }
    destruct (lstrip_split (q0 ++ [y])) as (a & Ha & Haw).
    pose proof (lstrip_head (q0 ++ [y])) as Hh.
    destruct (lstrip (q0 ++ [y])) as [|x q'] eqn:El.
    + exfalso. rewrite app_nil_r in Ha.
      rewrite forallb_forall in Haw.
      rewrite (Haw y) in Hy; [discriminate|].
      rewrite <- Ha. apply in_or_app. right. now left.
    + rewrite Ha. rewrite <- app_assoc. simpl.
      apply tags_re_fails; auto.
      intros ->. apply Hno. rewrite Ht, Hpq, Ha.
      apply in_or_app. left. apply in_or_app. right.
      apply in_or_app. right. now left.
Qed.

Lemma split_loop_comma (fuel : nat) (t rest : text) :
  ~ In ","%char t ->
  Re.split_loop (S fuel) tags_re (t ++ ","%char :: rest)
  = rstrip t :: Re.split_loop fuel tags_re (lstrip rest).
Proof.
  intros Hno. destruct (tags_search t rest Hno) as (w & w2 & Hs).
  cbn [Re.split_loop]. rewrite Hs. cbn [Re.m_whole Re.m_pre Re.m_post].
  destruct w; reflexivity.
Qed.

Lemma lstrip_length (s : text) : length (lstrip s) <= length s.
Proof.
  induction s as [|c s IH]; [reflexivity|].
  simpl. destruct (is_space c); simpl; lia.
Qed.

Lemma lstrip_no_comma (s : text) : ~ In ","%char s -> ~ In ","%char (lstrip s).
Proof.
  intros Hno Hin. apply Hno.
  destruct (lstrip_split s) as (w & Hs & _). rewrite Hs.
  apply in_or_app. now right.
Qed.

Lemma split_loop_tail (fuel : nat) :
  forall s, length (lstrip s) < fuel ->
            Re.split_loop fuel tags_re (lstrip s)
            = trim_after_comma (split ","%char s).
Proof.
  induction fuel as [|fuel IH]; intros s Hf; [lia|].
  destruct (split_cases s) as [(Hno & Hs)|(t & rest & -> & Hno & Hs)].
  - rewrite Hs. cbn [Re.split_loop trim_after_comma].
    now rewrite (tags_search_none _ (lstrip_no_comma _ Hno)).
  - rewrite Hs. rewrite lstrip_app_comma in *.
    rewrite (split_loop_comma _ _ _ (lstrip_no_comma _ Hno)).
    rewrite IH.
    + pose proof (split_nonempty ","%char rest) as Hne.
      destruct (split ","%char rest); [congruence|reflexivity].
    + pose proof (lstrip_length rest).
      rewrite length_app in Hf. simpl in Hf. lia.
Qed.

(** [re.split] with the pattern of the tags splits at the commas and takes
    the white space next to a comma away. *)
Lemma tags_split (s : text) : Re.split tags_re s = comma_trimmed s.
Proof.
  unfold Re.split, comma_trimmed.
  destruct (split_cases s) as [(Hno & Hs)|(t & rest & -> & Hno & Hs)].
  - rewrite Hs. cbn [Re.split_loop]. now rewrite (tags_search_none _ Hno).
  - rewrite Hs. rewrite (split_loop_comma _ _ _ Hno).
    rewrite split_loop_tail.
    + pose proof (split_nonempty ","%char rest) as Hne.
      destruct (split ","%char rest); [congruence|reflexivity].
    + pose proof (lstrip_length rest).
      rewrite length_app. simpl. lia.
Qed.

End TagsSplit.

(** The claim C9 as the specification states it fails: the white space at
    the start of the tags string is kept in the first tag. *)
Lemma gen_metadata_tags_not_trimmed :
  md_tags (gen_metadata untitled_page spaced_tags_args) = [lit " a"]
  /\ trimmed_tags (a_tags spaced_tags_args) = [lit "a"]
  /\ md_tags (gen_metadata untitled_page spaced_tags_args)
     <> trimmed_tags (a_tags spaced_tags_args).
Proof.
  split; [reflexivity|]. split; [reflexivity|].
  vm_compute. discriminate.
Qed.

(** C9, amended: the title of the metadata is the title of the command line
    when that is not empty, else the title of the page record; the same for
    the description; the tags are, for a tags string that is not empty, its
    pieces between the commas with the white space next to each comma taken
    away (white space at the start of the string and at its end is kept),
    and the empty list for an empty tags string. *)
Theorem gen_metadata_fields (pg : page) (a : args) :
  md_title (gen_metadata pg a)
  = (if truthy (a_title a) then a_title a else p_title pg)
  /\ md_description (gen_metadata pg a)
     = (if truthy (a_desc a) then a_desc a else p_description pg)
  /\ md_tags (gen_metadata pg a)
     = (if truthy (a_tags a) then comma_trimmed (a_tags a) else []).
Proof.
  split; [reflexivity|]. split; [reflexivity|].
  unfold gen_metadata. cbn [md_tags].
  destruct (truthy (a_tags a)); [apply tags_split|reflexivity].
Qed.


(** ** [download_page] *)

Section Selection.

Variable settings : Type.
Variable re_match : text -> text -> nat -> result bool.
Variable extract : text -> settings -> result page.
Variable url : text.

Lemma text_eqb_refl (t : text) : text_eqb t t = true.
Proof. unfold text_eqb. destruct (list_eq_dec ascii_dec t t); congruence. Qed.

Lemma text_eqb_eq (a b : text) : text_eqb a b = true -> a = b.
Proof.
  unfold text_eqb. destruct (list_eq_dec ascii_dec a b); [auto|discriminate].
Qed.

Lemma getitem_first (before after : list (text * settings))
      (key : text) (rules : settings) :
  (forall k v, In (k, v) before -> k <> key) ->
  getitem settings (before ++ (key, rules) :: after) key = Ok rules.
Proof.
  induction before as [|[k v] before IH]; intros Hb; simpl.
  - now rewrite text_eqb_refl.
  - destruct (text_eqb key k) eqn:E.
    + apply text_eqb_eq in E. exfalso. apply (Hb k v); [now left|congruence].
    + apply IH. intros k' v' Hin. apply (Hb k' v'). now right.
Qed.

Lemma select_entry_first (before after : list (text * settings))
      (entries : list (text * settings)) (key : text) :
  (forall k v, In (k, v) before -> re_match k url Re.IGNORECASE = Ok false) ->
  re_match key url Re.IGNORECASE = Ok true ->
  select_entry settings re_match
               (map fst before ++ key :: map fst after) entries url
  = getitem settings entries key.
Proof.
  induction before as [|[k v] before IH]; intros Hb Hk; simpl.
  - now rewrite Hk.
  - rewrite (Hb k v) by now left. simpl.
    apply IH; [|assumption]. intros k' v' Hin. apply (Hb k' v'). now right.
Qed.

Lemma select_entry_none (keys : list text) (entries : list (text * settings)) :
  (forall k, In k keys -> re_match k url Re.IGNORECASE = Ok false) ->
  select_entry settings re_match keys entries url
  = Raise "No matching config entry".
Proof.
  induction keys as [|k keys IH]; intros Hk; simpl; [reflexivity|].
  rewrite (Hk k) by now left. simpl. apply IH.
  intros k' Hin. apply Hk. now right.
Qed.

End Selection.

(** C4: [download_page] goes through the entries in the order of the
    configuration and tests the pattern of each against the URL with
    [re.match] and the flag [re.IGNORECASE].  The entry of the first
    pattern that matches gives the rules with which the page is extracted,
    whatever the entries after it.  When no pattern matches, the function
    raises ["No matching config entry"]; the list comprehension of [main]
    over the URLs then raises too, and no page is returned. *)
Theorem download_page_selects_first_match :
  forall (settings : Type) (re_match : text -> text -> nat -> result bool)
         (extract : text -> settings -> result page)
         (url : text) (entries : list (text * settings)) (n maxn : nat),
    (forall before urlprefix rules after,
        entries = before ++ (urlprefix, rules) :: after ->
        (forall k v, In (k, v) before ->
                     re_match k url Re.IGNORECASE = Ok false) ->
        re_match urlprefix url Re.IGNORECASE = Ok true ->
        select_entry settings re_match (map fst entries) entries url = Ok rules
        /\ download_page settings re_match extract url entries n maxn
           = extract url rules)
    /\ ((forall k v, In (k, v) entries ->
                     re_match k url Re.IGNORECASE = Ok false) ->
        download_page settings re_match extract url entries n maxn
        = Raise "No matching config entry"
        /\ (forall urls first,
              In url urls ->
              raises (download_pages settings re_match extract entries maxn
                                     first urls))
        /\ (forall FS write_file render create_directory a root fs urls,
              expand_all (a_url a) = Ok urls ->
              In url urls ->
              exists msg,
                main settings re_match extract FS write_file render
                     create_directory a entries root fs
                = (fs, Raise msg))).
Proof.
  intros settings re_match extract url entries n maxn. split.
  - intros before urlprefix rules after -> Hb Hk.
    assert (Hsel : select_entry settings re_match
                     (map fst (before ++ (urlprefix, rules) :: after))
                     (before ++ (urlprefix, rules) :: after) url
                   = Ok rules).
    { rewrite map_app. cbn [map fst].
      rewrite (select_entry_first settings re_match url before after _ _ Hb Hk).
      apply getitem_first. intros k v Hin ->.
      rewrite (Hb _ _ Hin) in Hk. discriminate. }
    split; [exact Hsel|]. unfold download_page. now rewrite Hsel.
  - intros Hnone.
    assert (Hd : download_page settings re_match extract url entries n maxn
                 = Raise "No matching config entry").
    { unfold download_page. rewrite select_entry_none; [reflexivity|].
      intros k Hin. apply in_map_iff in Hin as ([k' v] & <- & Hin).
      now apply (Hnone k' v). }
    assert (Hall : forall total urls first,
               In url urls ->
               raises (download_pages settings re_match extract entries total
                                      first urls)).
    { intros total urls.
      induction urls as [|u urls IH]; intros first Hin; [destruct Hin|].
      cbn [download_pages].
      destruct (download_page settings re_match extract u entries first total)
        as [pg|msg] eqn:Eu.
      - destruct Hin as [->|Hin].
        + unfold download_page in Eu, Hd. rewrite Hd in Eu. discriminate.
        + cbn [bind]. destruct (IH (S first) Hin) as [msg Hr].
          rewrite Hr. now exists msg.
      - now exists msg. }
    split; [exact Hd|]. split; [apply Hall|].
    intros FS write_file render create_directory a root fs urls Hu Hin.
    unfold main. rewrite Hu.
    destruct (Hall (length urls) urls 0 Hin) as [msg Hr].
    rewrite Hr. now exists msg.
Qed.

Lemma download_page_selects_first_match_witness :
  download_page nat literal_match page_of_rules
                (lit "HTTP://B.COM/story") two_entries 0 1
  = page_of_rules (lit "HTTP://B.COM/story") 2
  /\ download_page nat literal_match page_of_rules
                   (lit "http://c.com/story") two_entries 0 1
     = Raise "No matching config entry".
Proof.
  split.
  - refine (proj2 (proj1 (download_page_selects_first_match
                            nat literal_match page_of_rules
                            (lit "HTTP://B.COM/story") two_entries 0 1)
                         [(lit "http://a.com/", 1)] (lit "http://b.com/") 2 []
                         eq_refl _ eq_refl)).
    intros k v [H|[]]. injection H as <- <-. reflexivity.
  - refine (proj1 (proj2 (download_page_selects_first_match
                            nat literal_match page_of_rules
                            (lit "http://c.com/story") two_entries 0 1) _)).
    intros k v [H|[H|[]]]; injection H as <- <-; reflexivity.
Defined.

(** ** [gen_controls] and [save_pages] *)

Lemma format_suffix (k : nat) :
  format_int (lit " - Page {:03}.html") false k
  = Ok (lit " - Page " ++ zfill 3 (str k) ++ lit ".html").
Proof. cbn. now rewrite <- app_assoc. Qed.

(** For a name without braces, [format] fills the page number in. *)
Lemma format_brace_free (name : text) (k : nat) :
  brace_free name = true ->
  format_int (name ++ lit " - Page {:03}.html") false k
  = Ok (sibling_name name k).
Proof.
  unfold sibling_name. induction name as [|c name IH]; intros Hb.
  - apply format_suffix.
  - simpl in Hb. apply andb_prop in Hb as [Hc Hb].
    apply negb_true_iff, orb_false_iff in Hc as [Hc1 Hc2].
    rewrite <- !app_comm_cons. cbn [format_int]. rewrite Hc1, Hc2.
    now rewrite (IH Hb).
Qed.

(** The controls of a download of one page, and of page [n] (from 0) of
    several pages when the name has no brace. *)
Lemma gen_controls_single (name : text) (n : nat) :
  gen_controls name n 1 = Ok (controls_template []).
Proof. reflexivity. Qed.

Lemma gen_controls_brace_free (name : text) (n pagenum : nat) :
  brace_free name = true -> pagenum <> 1 ->
  gen_controls name n pagenum
  = Ok (controls_template
          ((if Nat.ltb 0 n then prev_link (sibling_name name n) else [])
           ++ page_label (n + 1) pagenum
           ++ (if Nat.ltb n (pagenum - 1)
               then next_link (sibling_name name (n + 2)) else []))).
Proof.
  intros Hb Hp. unfold gen_controls.
  destruct (Nat.eqb_spec pagenum 1) as [|_]; [contradiction|].
  rewrite !(format_brace_free _ _ Hb).
  destruct (Nat.ltb 0 n), (Nat.ltb n (pagenum - 1)); cbn [bind app];
    rewrite ?app_nil_r, <- ?app_assoc; reflexivity.
Qed.

(** The file of page [n] (from 0) of several pages, in a directory whose
    name does not end with a slash, for a name that does not start with
    one. *)
Lemma page_path_several (path name : text) (n total : nat) :
  1 < total ->
  page_path path name n total
  = os_path_join path name ++ lit " - Page " ++ zfill 3 (str (n + 1))
    ++ lit ".html".
Proof.
  intros Ht. unfold page_path.
  destruct (Nat.ltb_spec 1 total); [|lia]. now rewrite <- !app_assoc.
Qed.

Lemma page_path_single (path name : text) (n : nat) :
  page_path path name n 1 = os_path_join path name ++ lit ".html".
Proof. reflexivity. Qed.

(** A download of one page writes one file, without a page number in its
    name, with the controls that hold nothing. *)
Lemma save_pages_single (FS : Type)
      (write_file : text -> text -> FS -> FS * result unit)
      (render : text -> page -> result text)
      (path name : text) (pg : page) (out : text) (fs : FS) :
  render (controls_template []) pg = Ok out ->
  save_pages FS write_file render path name [pg] fs
  = write_all FS write_file [(os_path_join path name ++ lit ".html", out)] fs.
Proof.
  intros Hr. unfold save_pages. cbn [length save_loop write_all].
  rewrite gen_controls_single, Hr. rewrite page_path_single.
  destruct (write_file (os_path_join path name ++ lit ".html") out fs)
    as [fs' [[]|msg]]; reflexivity.
Qed.

(** C6, on the code: with a brace in the name the links of the controls
    leave the convention that [save_pages] follows for the names of the
    files.  For the name [a{{b] and two pages, the first page links to
    [a{b - Page 002.html] while the second page is written to
    [a{{b - Page 002.html]; for the name [Story {x}] the controls are not
    generated at all, [format] raises. *)
Theorem gen_controls_brace_in_name :
  gen_controls (lit "a{{b") 0 2
  = Ok (controls_template
          (page_label 1 2 ++ next_link (lit "a{b - Page 002.html")))
  /\ page_path (lit "/out") (lit "a{{b") 1 2 = lit "/out/a{{b - Page 002.html"
  /\ sibling_name (lit "a{{b") 2 = lit "a{{b - Page 002.html"
  /\ raises (gen_controls (lit "Story {x}") 0 2)
  /\ page_path (lit "/out") (lit "Story {x}") 0 2
     = lit "/out/Story {x} - Page 001.html".
Proof.
  split; [vm_compute; reflexivity|].
  split; [vm_compute; reflexivity|].
  split; [vm_compute; reflexivity|].
  split; [|vm_compute; reflexivity].
  eexists. vm_compute. reflexivity.
Qed.

(** ** [sanitize_body]: the links *)

Section Links.
Import Re ReFacts.

(** A run of literal characters in a pattern is a prefix test. *)
Lemma run_chars (l : text) (pat : regex) (marks caps : env) (s : text) :
  run (map Chr l ++ pat) marks caps s
  = match strip_prefix l s with
    | Some r => run pat marks caps r
    | None => None
    end.
Proof.
  revert s; induction l as [|c l IH]; intros s; [reflexivity|].
  simpl map. simpl app. cbn [run strip_prefix].
  destruct s as [|x s]; [reflexivity|].
  rewrite (Ascii.eqb_sym x c). destruct (Ascii.eqb c x); [apply IH|reflexivity].
Qed.

Lemma search_skip (pat : regex) (p s : text) :
  (forall a b, p = a ++ b -> b <> [] -> run pat [] [] (b ++ s) = None) ->
  search pat (p ++ s) = option_map (prepend p) (search pat s).
Proof.
  induction p as [|c p IH]; intros Hfail.
  - simpl. destruct (search pat s) as [[? ? ? ?]|]; reflexivity.
  - pose proof (Hfail [] (c :: p) eq_refl) as H0. simpl app in *.
    cbn [search]. rewrite H0 by discriminate.
    rewrite IH.
    + destruct (search pat s) as [[? ? ? ?]|]; reflexivity.
    + intros a b Hab Hb. apply (Hfail (c :: a) b); [|assumption].
      simpl. now rewrite Hab.
Qed.

Lemma search_post_length (pat : regex) (s : text) (m : rmatch) :
  search pat s = Some m -> m_whole m <> [] -> length (m_post m) < length s.
Proof.
  intros H Hw. apply search_sound in H as (Hs & _). rewrite Hs.
  rewrite !length_app. destruct (m_whole m); [congruence|simpl; lia].
Qed.

(** Enough fuel: [re.sub] does not depend on it. *)
Lemma sub_loop_fuel (pat : regex) (repl : rmatch -> text) (limited : bool) :
  forall fuel1 fuel2 left s,
    length s < fuel1 -> length s < fuel2 ->
    sub_loop fuel1 pat repl limited left s
    = sub_loop fuel2 pat repl limited left s.
Proof.
  induction fuel1 as [|f1 IH]; intros fuel2 left s H1 H2; [lia|].
  destruct fuel2 as [|f2]; [lia|]. cbn [sub_loop].
  destruct (limited && Nat.eqb left 0); [reflexivity|].
  destruct (search pat s) as [m|] eqn:E; [|reflexivity].
  destruct (m_whole m) as [|w ws] eqn:Ew; [reflexivity|].
  assert (length (m_post m) < length s).
  { apply (search_post_length pat); [assumption|]. rewrite Ew. discriminate. }
  do 2 f_equal. apply IH; lia.
Qed.

Lemma run_link (s : text) :
  run link_re [] [] s
  = match strip_prefix href_open s with
    | Some r => if absolute_target r then None else Some (r, [])
    | None => None
    end.
Proof.
  unfold link_re, chars, href_open.
  change (map Chr (lit "<a href=")
            ++ [Chr dquote; NotAhead [lit "http://"; lit "www"]])
    with (map Chr (lit "<a href=" ++ [dquote])
            ++ [NotAhead [lit "http://"; lit "www"]]).
  rewrite run_chars.
  destruct (strip_prefix (lit "<a href=" ++ [dquote]) s) as [r|]; [|reflexivity].
  cbn [run existsb]. unfold absolute_target.
  rewrite orb_false_r. reflexivity.
Qed.

(** An occurrence of a text whose first character does not come again in
    it cannot start inside another occurrence. *)
Lemma no_overlap (x : ascii) (l a b r : text) :
  ~ In x l -> a <> [] -> b <> [] -> x :: l = a ++ b ->
  strip_prefix (x :: l) (b ++ r) = None.
Proof.
  intros Hx Ha Hb Hab. destruct b as [|y b]; [congruence|].
  destruct a as [|z a]; [congruence|]. simpl in Hab. injection Hab as _ Hl.
  simpl. destruct (Ascii.eqb_spec x y) as [->|_]; [|reflexivity].
  exfalso. apply Hx. rewrite Hl. apply in_or_app. right. now left.
Qed.

Lemma href_open_shape :
  exists l, href_open = "<"%char :: l /\ ~ In "<"%char l.
Proof.
  eexists. split; [reflexivity|].
  simpl. intros H. repeat (destruct H as [H|H]; [discriminate H|]). exact H.
Qed.

Lemma strip_prefix_longer (l x r : text) :
  strip_prefix l x = None -> length l <= length x ->
  strip_prefix l (x ++ r) = None.
Proof.
  revert x; induction l as [|c l IH]; intros x H Hl; [discriminate|].
  destruct x as [|y x]; [simpl in Hl; lia|].
  simpl in *. destruct (Ascii.eqb c y); [|reflexivity].
  apply IH; [assumption|lia].
Qed.

Lemma find_split_present (old p r : text) :
  find_split old (p ++ old ++ r) <> None.
Proof.
  induction p as [|c p IH].
  - simpl app. destruct (old ++ r) as [|x t] eqn:E.
    + apply app_eq_nil in E as [-> ->]. discriminate.
    + cbn [find_split]. rewrite <- E, strip_prefix_app. discriminate.
  - simpl app. cbn [find_split].
    destruct (strip_prefix old (c :: p ++ old ++ r)); [discriminate|].
    destruct (find_split old (p ++ old ++ r)) as [[? ?]|];
      [discriminate|congruence].
Qed.

(** The search of the link pattern, along the occurrences of
    [href_open]. *)
Lemma link_search (s : text) :
  match find_split href_open s with
  | None => search link_re s = None
  | Some (pre, post) =>
      if absolute_target post
      then search link_re s
           = option_map (prepend (pre ++ href_open)) (search link_re post)
      else search link_re s
           = Some {| m_pre := pre; m_whole := href_open; m_post := post;
                     m_groups := [] |}
  end.
Proof.
  destruct (find_split href_open s) as [[pre post]|] eqn:F.
  - pose proof (find_split_first _ _ _ _ F) as Hfirst.
    pose proof (find_split_some _ _ _ _ F) as Hs.
    destruct (absolute_target post) eqn:Ea.
    + rewrite Hs at 1. rewrite app_assoc. apply search_skip.
      intros a b Hab Hb. rewrite run_link.
      destruct (strip_prefix href_open (b ++ post)) as [r|] eqn:E;
        [|reflexivity].
      destruct (Nat.lt_ge_cases (length a) (length pre)) as [Hlt|Hge].
      * rewrite (Hfirst a (b ++ post)) in E; [discriminate| |assumption].
        rewrite Hs, app_assoc, Hab, <- app_assoc. reflexivity.
      * assert (Hsplit : exists a', a = pre ++ a' /\ href_open = a' ++ b).
        { clear - Hab Hge. revert a Hab Hge.
          induction pre as [|c pre IH]; intros a Hab Hge.
          - exists a. split; [reflexivity|exact Hab].
          - destruct a as [|z a]; [simpl in Hge; lia|].
            simpl in Hab. injection Hab as -> Hab.
            destruct (IH a Hab) as (a' & -> & H); [simpl in Hge; lia|].
            now exists a'. }
        destruct Hsplit as (a' & -> & Ha').
        destruct a' as [|z a'].
        -- simpl in Ha'. subst b. rewrite strip_prefix_app in E.
           injection E as <-. now rewrite Ea.
        -- destruct href_open_shape as (l & Hl & Hnot).
           rewrite Hl in Ha', E.
           rewrite (no_overlap _ _ (z :: a') b post Hnot) in E;
             [discriminate|discriminate|assumption|assumption].
    + rewrite Hs at 1. apply search_intro.
      * rewrite run_link, strip_prefix_app. now rewrite Ea.
      * intros p q Hpq Hq. rewrite run_link.
        rewrite (Hfirst p (q ++ href_open ++ post)); [reflexivity| |].
        -- rewrite Hs, Hpq, <- app_assoc. reflexivity.
        -- rewrite Hpq, length_app. destruct q; [congruence|simpl; lia].
  - destruct (search link_re s) as [m|] eqn:E; [|reflexivity].
    exfalso. apply search_sound in E as (Hs & Hrun & _).
    rewrite run_link in Hrun.
    destruct (strip_prefix href_open (m_whole m ++ m_post m)) as [r|] eqn:Ep;
      [|discriminate].
    apply strip_prefix_some in Ep.
    apply (find_split_present href_open (m_pre m) r).
    now rewrite <- Ep, <- Hs.
Qed.

End Links.

Section LinkPass.
Import ReFacts.

Lemma sub_loop_step (fuel : nat) (pat : Re.regex) (repl : Re.rmatch -> text)
      (left : nat) (s : text) (m : Re.rmatch) :
  Re.search pat s = Some m -> Re.m_whole m <> [] -> left <> 0 ->
  Re.sub_loop (S fuel) pat repl true left s
  = Re.m_pre m ++ repl m
    ++ Re.sub_loop fuel pat repl true (pred left) (Re.m_post m).
Proof.
  intros Hs Hw Hl. cbn [Re.sub_loop]. rewrite Hs.
  destruct (Nat.eqb_spec left 0); [contradiction|]. cbn [andb].
  destruct (Re.m_whole m); [congruence|reflexivity].
Qed.

Lemma sub_loop_exhausted (fuel : nat) (pat : Re.regex)
      (repl : Re.rmatch -> text) (s : text) :
  Re.sub_loop fuel pat repl true 0 s = s.
Proof. destruct fuel; reflexivity. Qed.

Lemma sub_loop_no_match (fuel : nat) (pat : Re.regex)
      (repl : Re.rmatch -> text) (limited : bool) (left : nat) (s : text) :
  Re.search pat s = None -> Re.sub_loop fuel pat repl limited left s = s.
Proof.
  intros Hs. destruct fuel; [reflexivity|]. cbn [Re.sub_loop]. rewrite Hs.
  now destruct (limited && Nat.eqb left 0).
Qed.

Lemma sub_loop_skip (fuel : nat) (pat : Re.regex) (repl : Re.rmatch -> text)
      (left : nat) (p post : text) :
  (forall m, repl (prepend p m) = repl m) ->
  Re.search pat (p ++ post) = option_map (prepend p) (Re.search pat post) ->
  Re.sub_loop (S fuel) pat repl true left (p ++ post)
  = p ++ Re.sub_loop (S fuel) pat repl true left post.
Proof.
  intros Hrepl Hs. cbn [Re.sub_loop]. rewrite Hs.
  destruct (true && Nat.eqb left 0); [reflexivity|].
  destruct (Re.search pat post) as [m|]; [|reflexivity].
  cbn [option_map prepend Re.m_whole Re.m_pre Re.m_post].
  destruct (Re.m_whole m); [reflexivity|].
  rewrite Hrepl, <- app_assoc. reflexivity.
Qed.

Lemma absolute_links_none (fuel : nat) (base s : text) :
  relative_links_loop fuel s = 0 -> absolute_links_loop fuel base s = s.
Proof.
  revert s; induction fuel as [|fuel IH]; intros s H; [reflexivity|].
  cbn [relative_links_loop absolute_links_loop] in *.
  destruct (find_split href_open s) as [[pre post]|] eqn:F; [|reflexivity].
  destruct (absolute_target post); [|discriminate].
  rewrite IH by exact H. apply find_split_some in F. now rewrite F.
Qed.

Lemma href_open_nonempty : href_open <> [].
Proof. discriminate. Qed.

(** Within its budget of matches the first substitution does what the
    specification says. *)
Lemma sub_links_absolute (base : text) :
  forall fuel' fuel s left,
    length s < fuel' -> length s < fuel ->
    relative_links_loop fuel' s <= left ->
    Re.sub_loop fuel link_re (fun _ => href_open ++ base) true left s
    = absolute_links_loop fuel' base s.
Proof.
  induction fuel' as [|f' IH]; intros fuel s left Hf' Hf Hrel; [lia|].
  destruct fuel as [|f]; [lia|].
  pose proof (link_search s) as Hsearch.
  cbn [relative_links_loop absolute_links_loop] in *.
  destruct (find_split href_open s) as [[pre post]|] eqn:F.
  - pose proof (find_split_post_length _ _ _ _ href_open_nonempty F) as Hlen.
    pose proof (find_split_some _ _ _ _ F) as Hs.
    destruct (absolute_target post) eqn:Ea.
    + rewrite Hs in Hsearch |- * at 1.
      rewrite app_assoc in Hsearch |- *.
      rewrite sub_loop_skip; [|reflexivity|exact Hsearch].
      rewrite (IH (S f) post left); [|lia|lia|exact Hrel].
      now rewrite <- app_assoc.
    + rewrite (sub_loop_step _ _ _ _ _ _ Hsearch);
        [|exact href_open_nonempty|lia].
      cbn [Re.m_pre Re.m_post].
      rewrite (IH f post (pred left)); [|lia|lia|lia].
      now rewrite <- app_assoc.
  - now apply sub_loop_no_match.
Qed.

Lemma sub_links (base body : text) :
  relative_links body <= Re.IGNORECASE ->
  Re.sub link_re (fun _ => href_open ++ base) body Re.IGNORECASE
  = absolute_links base body.
Proof.
  intros H. unfold Re.sub, absolute_links.
  apply sub_links_absolute; [lia|lia|exact H].
Qed.

Lemma plain_template_ok (tpl : text) :
  existsb (Ascii.eqb backslash) tpl = false -> plain_template tpl = Some tpl.
Proof. intros H. unfold plain_template. now rewrite H. Qed.

(** Without [<font ] in the text there is nothing for the two font
    substitutions to match. *)
Lemma font_face_no_tag (s : text) :
  find_split (lit "<font ") s = None -> Re.search font_face_re s = None.
Proof.
  intros F. destruct (Re.search font_face_re s) as [m|] eqn:E; [|reflexivity].
  exfalso. apply search_sound in E as (Hs & Hrun & _).
  unfold font_face_re, Re.chars in Hrun. cbn [app Re.run] in Hrun.
  rewrite run_chars in Hrun.
  destruct (strip_prefix (lit "<font ") (Re.m_whole m ++ Re.m_post m))
    as [r|] eqn:Ep; [|discriminate].
  apply strip_prefix_some in Ep.
  apply (find_split_present (lit "<font ") (Re.m_pre m) r).
  now rewrite <- Ep, <- Hs.
Qed.

Lemma font_size_no_tag (s : text) :
  find_split (lit "<font ") s = None -> Re.search font_size_re s = None.
Proof.
  intros F. destruct (Re.search font_size_re s) as [m|] eqn:E; [|reflexivity].
  exfalso. apply search_sound in E as (Hs & Hrun & _).
  unfold font_size_re, Re.chars in Hrun. cbn [app Re.run] in Hrun.
  rewrite run_chars in Hrun.
  destruct (strip_prefix (lit "<font ") (Re.m_whole m ++ Re.m_post m))
    as [r|] eqn:Ep; [|discriminate].
  apply strip_prefix_some in Ep.
  apply (find_split_present (lit "<font ") (Re.m_pre m) r).
  now rewrite <- Ep, <- Hs.
Qed.

End LinkPass.

(** The claim C1 as the specification states it fails at its own example:
    the base URL ends with a slash and the target [/foo] starts with one,
    and the link gets both. *)
Lemma sanitize_body_root_relative :
  sanitize_body root_relative_body page_url
  = Some (href_open ++ lit "http://site.com/dir//foo" ++ [dquote] ++ lit ">")
  /\ sanitize_body root_relative_body page_url
     <> Some (href_open ++ lit "http://site.com/dir/foo" ++ [dquote] ++ lit ">").
Proof. split; [vm_compute; reflexivity|vm_compute; discriminate]. Qed.

(** The substitution stops after [re.IGNORECASE] = 2 matches: a third link
    is kept as it is. *)
Lemma sanitize_body_third_link :
  sanitize_body three_links_body page_url
  = Some (href_open ++ lit "http://site.com/dir/a" ++ [dquote] ++ lit ">"
          ++ href_open ++ lit "http://site.com/dir/b" ++ [dquote] ++ lit ">"
          ++ href_open ++ lit "c" ++ [dquote] ++ lit ">")
  /\ relative_links three_links_body = 3.
Proof. split; vm_compute; reflexivity. Qed.

(** C1, amended: for a page URL whose base URL (the segments of the URL
    between slashes without the last one, joined by slashes, and a slash at
    the end) holds no backslash, and a body with at most two links to
    rewrite, the first substitution of the sanitizer puts the base URL after
    every [<a href=] with its double quote that is not followed by [http://]
    or [www], and keeps the occurrences that are so followed; the two font
    substitutions then work on that text, and leave it as it is when it
    holds no [<font ].  In particular the link to [/foo] on the page
    [http://site.com/dir/page.html] becomes a link to
    [http://site.com/dir//foo], and the link to [http://other.com] is
    kept. *)
Theorem sanitize_body_absolute_links :
  (forall body url,
      existsb (Ascii.eqb backslash) (baseurl_of url) = false ->
      relative_links body <= 2 ->
      sanitize_body body url
      = Some (Re.sub font_size_re (fun m => Re.group m 1)
                (Re.sub font_face_re (fun m => Re.group m 1)
                   (absolute_links (baseurl_of url) body) Re.IGNORECASE)
                Re.IGNORECASE)
      /\ (find_split (lit "<font ") (absolute_links (baseurl_of url) body) = None ->
          sanitize_body body url = Some (absolute_links (baseurl_of url) body)))
  /\ sanitize_body root_relative_body page_url
     = Some (href_open ++ lit "http://site.com/dir//foo" ++ [dquote] ++ lit ">")
  /\ sanitize_body other_site_body page_url = Some other_site_body.
Proof.
  split; [|split; vm_compute; reflexivity].
  intros body url Hb Hrel.
  assert (Hs : sanitize_body body url
               = Some (Re.sub font_size_re (fun m => Re.group m 1)
                         (Re.sub font_face_re (fun m => Re.group m 1)
                            (absolute_links (baseurl_of url) body) Re.IGNORECASE)
                         Re.IGNORECASE)).
  { unfold sanitize_body. rewrite plain_template_ok.
    - now rewrite sub_links.
    - rewrite existsb_app, Hb. reflexivity. }
  split; [exact Hs|].
  intros F. rewrite Hs. f_equal. unfold Re.sub at 2.
  rewrite sub_loop_no_match by (now apply font_face_no_tag).
  unfold Re.sub. now rewrite sub_loop_no_match by (now apply font_size_no_tag).
Qed.

Lemma sanitize_body_absolute_links_witness :
  existsb (Ascii.eqb backslash) (baseurl_of page_url) = false
  /\ relative_links root_relative_body <= 2
  /\ find_split (lit "<font ") (absolute_links (baseurl_of page_url)
                                               root_relative_body) = None
  /\ sanitize_body root_relative_body page_url
     = Some (absolute_links (baseurl_of page_url) root_relative_body).
Proof.
  assert (Hb : existsb (Ascii.eqb backslash) (baseurl_of page_url) = false)
    by (vm_compute; reflexivity).
  assert (Hrel : relative_links root_relative_body <= 2)
    by (vm_compute; repeat constructor).
  assert (F : find_split (lit "<font ") (absolute_links (baseurl_of page_url)
                                                        root_relative_body)
              = None) by (vm_compute; reflexivity).
  split; [exact Hb|]. split; [exact Hrel|]. split; [exact F|].
  exact (proj2 (proj1 sanitize_body_absolute_links _ _ Hb Hrel) F).
Defined.

(** ** [sanitize_body]: the font attributes *)

Section FontPass.
Import ReFacts.

Lemma font_face_re_attr : font_face_re = font_attr_re (lit "face").
Proof. reflexivity. Qed.

Lemma font_size_re_attr : font_size_re = font_attr_re (lit "size").
Proof. reflexivity. Qed.

Lemma font_attr_needs_tag (attr s rest : text) (caps : Re.env) :
  Re.run (font_attr_re attr) [] [] s = Some (rest, caps) ->
  exists r, s = lit "<font " ++ r.
Proof.
  unfold font_attr_re, Re.chars. cbn [app Re.run]. rewrite run_chars.
  destruct (strip_prefix (lit "<font ") s) as [r|] eqn:E; [|discriminate].
  intros _. exists r. now apply strip_prefix_some.
Qed.

Lemma font_attr_no_tag (attr s : text) :
  find_split (lit "<font ") s = None -> Re.search (font_attr_re attr) s = None.
Proof.
  intros F. destruct (Re.search (font_attr_re attr) s) as [m|] eqn:E;
    [|reflexivity].
  exfalso. apply search_sound in E as (Hs & Hrun & _).
  apply font_attr_needs_tag in Hrun as (r & Hr).
  apply (find_split_present (lit "<font ") (Re.m_pre m) r).
  now rewrite <- Hr, <- Hs.
Qed.

Variables (attr A V post : text).
Hypothesis A_in_tag : forallb Re.not_gt A = true.
Hypothesis attr_first :
  find_split (attr ++ ["="%char; dquote]) (A ++ attr ++ ["="%char; dquote])
  = Some (A, []).
Hypothesis V_nonempty : 1 <= length V.
Hypothesis V_line : forallb Re.dot V = true.
Hypothesis V_unquoted : ~ In dquote V.

Lemma font_attr_re_eq :
  font_attr_re attr
  = Re.Open 1
    :: map Re.Chr (lit "<font ")
    ++ Re.Rep Re.not_gt 0 false
    :: Re.Close 1
    :: map Re.Chr (attr ++ ["="%char; dquote])
    ++ [Re.Rep Re.dot 1 false; Re.Chr dquote].
Proof. reflexivity. Qed.

Lemma value_run (marks caps : Re.env) :
  Re.run [Re.Rep Re.dot 1 false; Re.Chr dquote] marks caps
         (V ++ dquote :: post)
  = Some (post, caps).
Proof.
  cbn [Re.run].
  apply rep_lazy_first; [exact V_line|exact V_nonempty| |].
  - cbn [Re.run]. now rewrite Ascii.eqb_refl.
  - intros p q -> Hq _. destruct q as [|y q]; [congruence|].
    rewrite <- app_comm_cons. cbn [Re.run].
    destruct (Ascii.eqb_spec y dquote) as [->|_]; [|reflexivity].
    exfalso. apply V_unquoted. apply in_or_app. right. now left.
Qed.

(** The match of a font pattern at a tag: group 1 is the tag up to the
    attribute, the match ends with the double quote that closes the
    value. *)
Lemma font_attr_run :
  Re.run (font_attr_re attr) [] []
         (lit "<font " ++ A ++ (attr ++ ["="%char; dquote])
              ++ V ++ dquote :: post)
  = Some (post, [(1, lit "<font " ++ A)]).
Proof.
  rewrite font_attr_re_eq. cbn [Re.run]. rewrite run_chars.
  rewrite strip_prefix_app. cbn [Re.run].
  apply rep_lazy_first; [exact A_in_tag|lia| |].
  - cbn [Re.run]. rewrite run_chars, strip_prefix_app.
    rewrite value_run.
    rewrite (app_assoc (lit "<font ") A). now rewrite captured_here.
  - intros p q -> Hq _. cbn [Re.run]. rewrite run_chars.
    rewrite (app_assoc q).
    rewrite strip_prefix_longer; [reflexivity| |].
    + apply (find_split_first _ _ _ _ attr_first p).
      * now rewrite <- app_assoc.
      * rewrite length_app. destruct q; [congruence|simpl; lia].
    + rewrite !length_app. lia.
Qed.

Variable pre : text.
Hypothesis pre_no_tag :
  find_split (lit "<font ") (pre ++ lit "<font ") = Some (pre, []).
Hypothesis post_no_tag : find_split (lit "<font ") post = None.

Lemma font_attr_search :
  Re.search (font_attr_re attr)
            (pre ++ (lit "<font " ++ A ++ attribute attr V) ++ post)
  = Some {| Re.m_pre := pre;
            Re.m_whole := lit "<font " ++ A ++ attribute attr V;
            Re.m_post := post;
            Re.m_groups := [(1, lit "<font " ++ A)] |}.
Proof.
  assert (Hshape : forall r,
             (lit "<font " ++ A ++ attribute attr V) ++ r
             = lit "<font " ++ A ++ (attr ++ ["="%char; dquote])
                   ++ V ++ dquote :: r).
  { intros r. unfold attribute.
    repeat (rewrite <- app_assoc; cbn [app]). reflexivity. }
  apply search_intro.
  - rewrite Hshape. apply font_attr_run.
  - intros p q -> Hq.
    destruct (Re.run (font_attr_re attr) [] []
                (q ++ (lit "<font " ++ A ++ attribute attr V) ++ post))
      as [[rest caps]|] eqn:E; [|reflexivity].
    exfalso. apply font_attr_needs_tag in E as (r & Hr).
    pose proof (find_split_first _ _ _ _ pre_no_tag p (q ++ lit "<font "))
      as Hfirst.
    rewrite <- app_assoc in Hfirst. specialize (Hfirst eq_refl).
    rewrite length_app in Hfirst.
    assert (Hnone : strip_prefix (lit "<font ") (q ++ lit "<font ") = None)
      by (apply Hfirst; destruct q; [congruence|simpl; lia]).
    apply (strip_prefix_longer _ _ (A ++ attribute attr V ++ post)) in Hnone;
      [|rewrite length_app; lia].
    replace ((q ++ lit "<font ") ++ A ++ attribute attr V ++ post)
      with (lit "<font " ++ r) in Hnone
      by (rewrite <- Hr, <- !app_assoc; reflexivity).
    now rewrite strip_prefix_app in Hnone.
Qed.

(** One tag with the attribute, no other font tag: the substitution takes
    the attribute with its value away and keeps the rest. *)
Lemma font_attr_sub :
  Re.sub (font_attr_re attr) (fun m => Re.group m 1)
         (pre ++ (lit "<font " ++ A ++ attribute attr V) ++ post)
         Re.IGNORECASE
  = pre ++ (lit "<font " ++ A) ++ post.
Proof.
  unfold Re.sub. cbn [Re.IGNORECASE Nat.eqb negb].
  rewrite (sub_loop_step _ _ _ _ _ _ font_attr_search); [| |discriminate].
  - cbn [Re.m_pre Re.m_post Re.m_groups Re.group Re.lookup Nat.eqb].
    unfold Re.group. cbn [Re.m_groups Re.lookup Nat.eqb].
    rewrite sub_loop_no_match; [reflexivity|].
    now apply font_attr_no_tag.
  - cbn [Re.m_whole]. discriminate.
Qed.

End FontPass.

(** The font patterns against the direct description of what they find. *)

Section FontScan.
Import ReFacts.

Variable attr : text.

Lemma rep_lazy_nil {R : Type} (cls : ascii -> bool) (k : text -> option R) :
  Re.rep cls false k 0 [] = k [].
Proof. cbn. now destruct (k []). Qed.

Lemma rep_lazy_cons {R : Type} (cls : ascii -> bool) (k : text -> option R)
      (x : ascii) (s : text) :
  Re.rep cls false k 0 (x :: s)
  = Re.orelse (k (x :: s)) (if cls x then Re.rep cls false k 0 s else None).
Proof. reflexivity. Qed.

Lemma rep_one_cons {R : Type} (cls : ascii -> bool) (k : text -> option R)
      (x : ascii) (s : text) :
  Re.rep cls false k 1 (x :: s)
  = if cls x then Re.rep cls false k 0 s else None.
Proof. reflexivity. Qed.

Lemma attr_value_sound (v V rest : text) :
  attr_value v = Some (V, rest) -> v = V ++ dquote :: rest /\ V <> [].
Proof.
  unfold attr_value. destruct v as [|c v']; [discriminate|].
  destruct (find_split [dquote] v') as [[w r]|] eqn:F; [|discriminate].
  destruct (forallb Re.dot (c :: w)); [|discriminate].
  intros H. injection H as <- <-. apply find_split_some in F. subst v'.
  split; [reflexivity|discriminate].
Qed.

(** The lazy run of characters up to the double quote that closes the
    value. *)
Lemma value_tail_run {R : Type} (k : text -> option R) (done : text -> R) :
  (forall s, k s = match s with
                   | x :: s' => if Ascii.eqb x dquote then Some (done s')
                                else None
                   | [] => None
                   end) ->
  forall s,
    Re.rep Re.dot false k 0 s
    = match find_split [dquote] s with
      | Some (w, rest) => if forallb Re.dot w then Some (done rest) else None
      | None => None
      end.
Proof.
  intros Hk. induction s as [|x s IH].
  - rewrite rep_lazy_nil, Hk. reflexivity.
  - rewrite rep_lazy_cons, Hk, IH. cbn [find_split strip_prefix].
    rewrite (Ascii.eqb_sym dquote x).
    destruct (Ascii.eqb x dquote); [reflexivity|]. cbn [Re.orelse].
    destruct (find_split [dquote] s) as [[w rest]|].
    + cbn [forallb]. destruct (Re.dot x); reflexivity.
    + destruct (Re.dot x); reflexivity.
Qed.

Lemma value_run_spec (marks caps : Re.env) (v : text) :
  Re.run [Re.Rep Re.dot 1 false; Re.Chr dquote] marks caps v
  = match attr_value v with
    | Some (_, rest) => Some (rest, caps)
    | None => None
    end.
Proof.
  cbn [Re.run]. destruct v as [|c v']; [reflexivity|].
  rewrite rep_one_cons.
  rewrite (value_tail_run _ (fun rest => (rest, caps)))
    by (intros [|x s']; reflexivity).
  unfold attr_value. cbn [forallb].
  destruct (find_split [dquote] v') as [[w rest]|];
    destruct (Re.dot c); try reflexivity.
  cbn [andb]. destruct (forallb Re.dot w); reflexivity.
Qed.

Lemma attr_here_run (P r : text) :
  Re.run (Re.Close 1
            :: map Re.Chr (attr ++ ["="%char; dquote])
            ++ [Re.Rep Re.dot 1 false; Re.Chr dquote])
         [(1, P ++ r)] [] r
  = match attr_here attr r with
    | Some (_, rest) => Some (rest, [(1, P)])
    | None => None
    end.
Proof.
  cbn [Re.run]. rewrite captured_here, run_chars. unfold attr_here.
  destruct (strip_prefix (attr ++ ["="%char; dquote]) r) as [v|];
    [apply value_run_spec|reflexivity].
Qed.

(** The lazy run through the tag: the first attribute with a value is the
    one that the pattern finds. *)
Lemma tag_attr_run :
  forall r P,
    Re.rep Re.not_gt false
           (Re.run (Re.Close 1
                      :: map Re.Chr (attr ++ ["="%char; dquote])
                      ++ [Re.Rep Re.dot 1 false; Re.Chr dquote])
                   [(1, P ++ r)] [])
           0 r
    = match tag_attr attr r with
      | Some (A, _, rest) => Some (rest, [(1, P ++ A)])
      | None => None
      end.
Proof.
  induction r as [|x r IH]; intros P.
  - rewrite rep_lazy_nil, attr_here_run. cbn [tag_attr].
    destruct (attr_here attr []) as [[V rest]|]; [|reflexivity].
    now rewrite app_nil_r.
  - rewrite rep_lazy_cons, attr_here_run. cbn [tag_attr].
    destruct (attr_here attr (x :: r)) as [[V rest]|].
    + cbn [Re.orelse]. now rewrite app_nil_r.
    + cbn [Re.orelse]. destruct (Re.not_gt x); [|reflexivity].
      replace (P ++ x :: r) with ((P ++ [x]) ++ r)
        by (now rewrite <- app_assoc).
      rewrite IH. destruct (tag_attr attr r) as [[[A V] rest]|];
        [|reflexivity].
      now rewrite <- app_assoc.
Qed.

Lemma font_run_spec (s : text) :
  Re.run (font_attr_re attr) [] [] s
  = match tag_here attr s with
    | Some (A, _, rest) => Some (rest, [(1, lit "<font " ++ A)])
    | None => None
    end.
Proof.
  rewrite font_attr_re_eq. cbn [Re.run]. rewrite run_chars. unfold tag_here.
  destruct (strip_prefix (lit "<font ") s) as [r|] eqn:E; [|reflexivity].
  apply strip_prefix_some in E. subst s. cbn [Re.run]. apply tag_attr_run.
Qed.

Lemma attr_here_sound (r V rest : text) :
  attr_here attr r = Some (V, rest) ->
  r = attribute attr V ++ rest /\ V <> [].
Proof.
  unfold attr_here.
  destruct (strip_prefix (attr ++ ["="%char; dquote]) r) as [v|] eqn:E;
    [|discriminate].
  intros H. apply attr_value_sound in H as [-> HV].
  apply strip_prefix_some in E. subst r. split; [|exact HV].
  unfold attribute. now rewrite <- !app_assoc.
Qed.

Lemma tag_attr_sound :
  forall r A V rest,
    tag_attr attr r = Some (A, V, rest) ->
    r = A ++ attribute attr V ++ rest /\ V <> [].
Proof.
  induction r as [|x r IH]; intros A V rest H; cbn [tag_attr] in H.
  - destruct (attr_here attr []) as [[V' rest']|] eqn:E; [|discriminate].
    injection H as <- <- <-. now apply attr_here_sound.
  - destruct (attr_here attr (x :: r)) as [[V' rest']|] eqn:E.
    + injection H as <- <- <-. now apply attr_here_sound.
    + destruct (Re.not_gt x); [|discriminate].
      destruct (tag_attr attr r) as [[[A' V'] rest']|] eqn:Et; [|discriminate].
      injection H as <- <- <-. destruct (IH _ _ _ eq_refl) as [-> HV].
      split; [reflexivity|exact HV].
Qed.

Lemma tag_here_sound (s A V rest : text) :
  tag_here attr s = Some (A, V, rest) ->
  s = (lit "<font " ++ A ++ attribute attr V) ++ rest.
Proof.
  unfold tag_here.
  destruct (strip_prefix (lit "<font ") s) as [r|] eqn:E; [|discriminate].
  intros H. apply tag_attr_sound in H as [-> _].
  apply strip_prefix_some in E. subst s. now rewrite <- !app_assoc.
Qed.

Lemma first_tag_sound :
  forall s pre A V rest,
    first_tag attr s = Some (pre, A, V, rest) ->
    s = pre ++ (lit "<font " ++ A ++ attribute attr V) ++ rest.
Proof.
  induction s as [|c s IH]; intros pre A V rest H; cbn [first_tag] in H.
  - destruct (tag_here attr []) as [[[A' V'] rest']|] eqn:E; [|discriminate].
    injection H as <- <- <- <-. now apply tag_here_sound.
  - destruct (tag_here attr (c :: s)) as [[[A' V'] rest']|] eqn:E.
    + injection H as <- <- <- <-. now apply tag_here_sound.
    + destruct (first_tag attr s) as [[[[pre' A'] V'] rest']|] eqn:Ef;
        [|discriminate].
      injection H as <- <- <- <-. now rewrite (IH _ _ _ _ eq_refl) at 1.
Qed.

Lemma first_tag_rest (s pre A V rest : text) :
  first_tag attr s = Some (pre, A, V, rest) -> length rest < length s.
Proof.
  intros H. apply first_tag_sound in H. subst s.
  rewrite !length_app. simpl. lia.
Qed.

(** [re.search] with a font pattern finds the first tag with the
    attribute. *)
Lemma font_search_spec :
  forall s,
    Re.search (font_attr_re attr) s
    = match first_tag attr s with
      | Some (pre, A, V, rest) =>
          Some {| Re.m_pre := pre;
                  Re.m_whole := lit "<font " ++ A ++ attribute attr V;
                  Re.m_post := rest;
                  Re.m_groups := [(1, lit "<font " ++ A)] |}
      | None => None
      end.
Proof.
  assert (Hhere : forall s A V rest,
             tag_here attr s = Some (A, V, rest) ->
             firstn (length s - length rest) s
             = lit "<font " ++ A ++ attribute attr V).
  { intros s A V rest E. rewrite (tag_here_sound _ _ _ _ E).
    apply firstn_diff. }
  induction s as [|c s IH]; cbn [Re.search first_tag]; rewrite font_run_spec.
  - destruct (tag_here attr []) as [[[A V] rest]|] eqn:E; [|reflexivity].
    now rewrite (Hhere _ _ _ _ E).
  - destruct (tag_here attr (c :: s)) as [[[A V] rest]|] eqn:E.
    + now rewrite (Hhere _ _ _ _ E).
    + rewrite IH.
      destruct (first_tag attr s) as [[[[pre A] V] rest]|]; reflexivity.
Qed.

(** Within its budget of matches a font substitution does what the
    direct description says. *)
Lemma sub_font_loop :
  forall fuel left s,
    font_tags_loop fuel attr s <= left ->
    Re.sub_loop fuel (font_attr_re attr) (fun m => Re.group m 1) true left s
    = strip_attr_loop fuel attr s.
Proof.
  induction fuel as [|fuel IH]; intros left s H; [reflexivity|].
  pose proof (font_search_spec s) as Hs.
  cbn [font_tags_loop strip_attr_loop] in *.
  destruct (first_tag attr s) as [[[[pre A] V] rest]|].
  - rewrite (sub_loop_step _ _ _ _ _ _ Hs); [| |lia].
    + cbn [Re.m_pre Re.m_post]. unfold Re.group.
      cbn [Re.m_groups Re.lookup Nat.eqb].
      rewrite IH by lia. now rewrite <- app_assoc.
    + cbn [Re.m_whole]. intros E. apply app_eq_nil in E as [E _].
      discriminate E.
  - now apply sub_loop_no_match.
Qed.

Lemma sub_font (s : text) :
  font_tags attr s <= Re.IGNORECASE ->
  Re.sub (font_attr_re attr) (fun m => Re.group m 1) s Re.IGNORECASE
  = strip_attr attr s.
Proof. intros H. unfold Re.sub, strip_attr. now apply sub_font_loop. Qed.

Lemma strip_attr_loop_fuel :
  forall fuel fuel' s,
    length s < fuel -> length s < fuel' ->
    strip_attr_loop fuel attr s = strip_attr_loop fuel' attr s.
Proof.
  induction fuel as [|fuel IH]; intros fuel' s Hf Hf'; [lia|].
  destruct fuel' as [|fuel']; [lia|]. cbn [strip_attr_loop].
  destruct (first_tag attr s) as [[[[pre A] V] rest]|] eqn:E; [|reflexivity].
  apply first_tag_rest in E. now rewrite (IH fuel' rest) by lia.
Qed.

Lemma font_tags_loop_fuel :
  forall fuel fuel' s,
    length s < fuel -> length s < fuel' ->
    font_tags_loop fuel attr s = font_tags_loop fuel' attr s.
Proof.
  induction fuel as [|fuel IH]; intros fuel' s Hf Hf'; [lia|].
  destruct fuel' as [|fuel']; [lia|]. cbn [font_tags_loop].
  destruct (first_tag attr s) as [[[[pre A] V] rest]|] eqn:E; [|reflexivity].
  apply first_tag_rest in E. now rewrite (IH fuel' rest) by lia.
Qed.

(** One step of the direct description. *)
Lemma strip_attr_step (s pre A V rest : text) :
  first_tag attr s = Some (pre, A, V, rest) ->
  strip_attr attr s = pre ++ (lit "<font " ++ A) ++ strip_attr attr rest
  /\ font_tags attr s = S (font_tags attr rest).
Proof.
  intros E. pose proof (first_tag_rest _ _ _ _ _ E) as Hlen.
  unfold strip_attr, font_tags. cbn [strip_attr_loop font_tags_loop].
  rewrite E. split.
  - rewrite (strip_attr_loop_fuel (length s) (S (length rest))) by lia.
    now rewrite <- app_assoc.
  - now rewrite (font_tags_loop_fuel (length s) (S (length rest))) by lia.
Qed.

Lemma strip_attr_none (s : text) :
  first_tag attr s = None -> strip_attr attr s = s /\ font_tags attr s = 0.
Proof.
  intros E. unfold strip_attr, font_tags.
  cbn [strip_attr_loop font_tags_loop]. now rewrite E.
Qed.

Lemma first_tag_no_tag (s : text) :
  find_split (lit "<font ") s = None -> first_tag attr s = None.
Proof.
  intros F. pose proof (font_attr_no_tag attr s F) as Hs.
  rewrite font_search_spec in Hs.
  now destruct (first_tag attr s) as [[[[pre A] V] rest]|].
Qed.

(** The tag that the hypotheses of [font_attr_search] describe is the first
    one with the attribute. *)
Lemma first_tag_shape (pre A V post : text) :
  find_split (lit "<font ") (pre ++ lit "<font ") = Some (pre, []) ->
  forallb Re.not_gt A = true ->
  find_split (attr ++ ["="%char; dquote]) (A ++ attr ++ ["="%char; dquote])
  = Some (A, []) ->
  1 <= length V -> forallb Re.dot V = true -> ~ In dquote V ->
  first_tag attr (pre ++ (lit "<font " ++ A ++ attribute attr V) ++ post)
  = Some (pre, A, V, post).
Proof.
  intros Hpre HA Hfirst HV1 HV2 HV3.
  pose proof (font_attr_search attr A V post HA Hfirst HV1 HV2 HV3 pre Hpre)
    as Hs.
  rewrite font_search_spec in Hs.
  destruct (first_tag attr
              (pre ++ (lit "<font " ++ A ++ attribute attr V) ++ post))
    as [[[[pre' A'] V'] rest']|]; [|discriminate].
  injection Hs as -> Hw -> ->.
  apply app_inv_head in Hw. unfold attribute in Hw.
  apply app_inv_head in Hw. injection Hw as Hw.
  apply app_inv_tail in Hw. now subst V'.
Qed.

Lemma first_tag_no_attr (s : text) :
  find_split (attr ++ ["="%char; dquote]) s = None -> first_tag attr s = None.
Proof.
  intros F.
  destruct (first_tag attr s) as [[[[pre A] V] rest]|] eqn:E; [|reflexivity].
  exfalso. apply first_tag_sound in E. subst s.
  apply (find_split_present (attr ++ ["="%char; dquote])
           (pre ++ lit "<font " ++ A) (V ++ [dquote] ++ rest)).
  rewrite <- F. f_equal. unfold attribute. now rewrite <- !app_assoc.
Qed.

End FontScan.

(** The claim C7 as the specification states it fails at its own example:
    the two attributes go, the blanks around them stay. *)
Lemma sanitize_body_font_blanks :
  sanitize_body font_example page_url
  = Some (lit "<font color=" ++ [dquote] ++ lit "red" ++ [dquote] ++ lit "  >")
  /\ sanitize_body font_example page_url
     <> Some (lit "<font color=" ++ [dquote] ++ lit "red" ++ [dquote] ++ lit ">").
Proof. split; [vm_compute; reflexivity|vm_compute; discriminate]. Qed.

Lemma sub_links_no_link (tpl body : text) :
  find_split href_open body = None ->
  Re.sub link_re (fun _ => tpl) body Re.IGNORECASE = body.
Proof.
  intros F. unfold Re.sub. apply sub_loop_no_match.
  pose proof (link_search body) as H. now rewrite F in H.
Qed.

(** The font substitutions stop after [re.IGNORECASE] = 2 matches each: a
    third tag keeps its attribute. *)
Lemma sanitize_body_third_font :
  sanitize_body three_fonts_body page_url
  = Some (lit "<font >" ++ lit "<font >"
          ++ lit "<font " ++ attribute (lit "face") (lit "c") ++ lit ">")
  /\ font_tags (lit "face") three_fonts_body = 3.
Proof. split; vm_compute; reflexivity. Qed.

(** Two tags, [size] before [face] in the first, after a link that is
    kept. *)
Lemma sanitize_body_two_fonts :
  sanitize_body two_fonts_body page_url
  = Some (other_site_body ++ lit "<font  >a</font>" ++ lit "<font >b</font>").
Proof. vm_compute. reflexivity. Qed.

(** C7, amended: for a page URL whose base URL holds no backslash and a body
    with at most two links to rewrite, the font substitutions work on the
    text that the link substitution leaves, which is the body itself when no
    link is to be rewritten.  Each of them goes through its text from the
    left: at a [<font ] whose tag, the text up to the first [>], holds the
    attribute ([face=] for the first substitution, [size=] for the second,
    then a double quote, a value of at least one character up to the next
    double quote and without a line feed, and that double quote), it takes
    away the text of the attribute where it occurs first in the tag, and
    goes on after it.  Every other character is kept, the other attributes
    of the tag and the white space around the attribute among them, in
    whatever order the attributes come.  This holds when the first
    substitution finds at most two such tags, and the second at most two in
    the text that the first one leaves.  In particular the tag with [color],
    [face] and [size] of the specification becomes the tag with [color]
    followed by two blanks. *)
Theorem sanitize_body_font_attributes :
  (forall t,
      font_tags (lit "face") t <= 2 ->
      Re.sub font_face_re (fun m => Re.group m 1) t Re.IGNORECASE
      = strip_attr (lit "face") t)
  /\ (forall t,
      font_tags (lit "size") t <= 2 ->
      Re.sub font_size_re (fun m => Re.group m 1) t Re.IGNORECASE
      = strip_attr (lit "size") t)
  /\ (forall body url,
      existsb (Ascii.eqb backslash) (baseurl_of url) = false ->
      relative_links body <= 2 ->
      font_tags (lit "face") (absolute_links (baseurl_of url) body) <= 2 ->
      font_tags (lit "size")
                (strip_attr (lit "face")
                            (absolute_links (baseurl_of url) body)) <= 2 ->
      sanitize_body body url
      = Some (strip_attr (lit "size")
                (strip_attr (lit "face")
                   (absolute_links (baseurl_of url) body)))
      /\ (relative_links body = 0 ->
          absolute_links (baseurl_of url) body = body))
  /\ (forall attr pre A V post,
      find_split (lit "<font ") (pre ++ lit "<font ") = Some (pre, []) ->
      forallb Re.not_gt A = true ->
      find_split (attr ++ ["="%char; dquote])
                 (A ++ attr ++ ["="%char; dquote]) = Some (A, []) ->
      1 <= length V -> forallb Re.dot V = true -> ~ In dquote V ->
      strip_attr attr (pre ++ (lit "<font " ++ A ++ attribute attr V) ++ post)
      = pre ++ (lit "<font " ++ A) ++ strip_attr attr post
      /\ font_tags attr
                   (pre ++ (lit "<font " ++ A ++ attribute attr V) ++ post)
         = S (font_tags attr post))
  /\ (forall attr t,
      find_split (lit "<font ") t = None
      \/ find_split (attr ++ ["="%char; dquote]) t = None ->
      strip_attr attr t = t /\ font_tags attr t = 0)
  /\ sanitize_body font_example page_url
     = Some (lit "<font color=" ++ [dquote] ++ lit "red" ++ [dquote] ++ lit "  >").
Proof.
  assert (Hface : forall t,
             font_tags (lit "face") t <= 2 ->
             Re.sub font_face_re (fun m => Re.group m 1) t Re.IGNORECASE
             = strip_attr (lit "face") t)
    by (intros t H; rewrite font_face_re_attr; now apply sub_font).
  assert (Hsize : forall t,
             font_tags (lit "size") t <= 2 ->
             Re.sub font_size_re (fun m => Re.group m 1) t Re.IGNORECASE
             = strip_attr (lit "size") t)
    by (intros t H; rewrite font_size_re_attr; now apply sub_font).
  split; [exact Hface|]. split; [exact Hsize|].
  split; [|split; [|split; [|vm_compute; reflexivity]]].
  - intros body url Hb Hrel Hf Hs. split.
    + unfold sanitize_body.
      rewrite plain_template_ok by (rewrite existsb_app, Hb; reflexivity).
      rewrite (sub_links _ _ Hrel), (Hface _ Hf), (Hsize _ Hs). reflexivity.
    + intros H0. unfold absolute_links. apply absolute_links_none. exact H0.
  - intros attr pre A V post Hpre HA Hfirst HV1 HV2 HV3.
    apply (strip_attr_step attr _ pre A V post).
    now apply first_tag_shape.
  - intros attr t [F|F]; apply strip_attr_none.
    + now apply first_tag_no_tag.
    + now apply first_tag_no_attr.
Qed.

Lemma sanitize_body_font_attributes_witness :
  (existsb (Ascii.eqb backslash) (baseurl_of page_url) = false
   /\ relative_links two_fonts_body <= 2
   /\ font_tags (lit "face")
                (absolute_links (baseurl_of page_url) two_fonts_body) <= 2
   /\ font_tags (lit "size")
                (strip_attr (lit "face")
                   (absolute_links (baseurl_of page_url) two_fonts_body)) <= 2)
  /\ sanitize_body two_fonts_body page_url
     = Some (strip_attr (lit "size")
               (strip_attr (lit "face")
                  (absolute_links (baseurl_of page_url) two_fonts_body))).
Proof.
  assert (Hb : existsb (Ascii.eqb backslash) (baseurl_of page_url) = false)
    by (vm_compute; reflexivity).
  assert (Hrel : relative_links two_fonts_body <= 2)
    by (vm_compute; repeat constructor).
  assert (Hf : font_tags (lit "face")
                 (absolute_links (baseurl_of page_url) two_fonts_body) <= 2)
    by (vm_compute; repeat constructor).
  assert (Hs : font_tags (lit "size")
                 (strip_attr (lit "face")
                    (absolute_links (baseurl_of page_url) two_fonts_body)) <= 2)
    by (vm_compute; repeat constructor).
  split; [repeat split; assumption|].
  exact (proj1 (proj1 (proj2 (proj2 sanitize_body_font_attributes))
                  _ _ Hb Hrel Hf Hs)).
Defined.


(** * Further properties of the code *)

(** ** [expand_url] *)

Section MoreBraces.
Import Re ReFacts.

Lemma search_first_char (c : ascii) (pat : regex) (s : text) :
  ~ In c s -> search (Chr c :: pat) s = None.
Proof.
  intros Hno. destruct (search (Chr c :: pat) s) as [m|] eqn:E; [|reflexivity].
  exfalso. apply search_sound in E as (Hs & Hrun & _). cbn [run] in Hrun.
  destruct (m_whole m ++ m_post m) as [|x t] eqn:Et; [discriminate|].
  destruct (Ascii.eqb_spec x c) as [->|_]; [|discriminate].
  apply Hno. rewrite Hs. apply in_or_app. right. now left.
Qed.

Lemma dotexp_has_close (s : text) (d : rmatch) :
  search dotexp_re s = Some d -> In "}"%char s.
Proof.
  intros H. destruct (dotexp_whole _ _ H) as (Hw & _).
  apply search_sound in H as (Hs & _). rewrite Hs, Hw.
  apply in_or_app. right. apply in_or_app. left.
  right. repeat (apply in_or_app; right). now left.
Qed.

Lemma commaexp_has_close (s : text) (c : rmatch) :
  search commaexp_re s = Some c -> In "}"%char s.
Proof.
  intros H. destruct (commaexp_whole _ _ H) as (Hw & _).
  apply search_sound in H as (Hs & _). rewrite Hs, Hw.
  apply in_or_app. right. apply in_or_app. left.
  right. apply in_or_app. right. now left.
Qed.

(** A greedy repetition gives one character back when the rest of the
    pattern fails after the whole run and matches one character earlier. *)
Lemma rep_greedy_back {R : Type} (cls : ascii -> bool)
      (k : text -> option R) (a : text) (x : ascii) (rest : text) (r : R) :
  forallb cls a = true -> cls x = true ->
  match rest with [] => True | c :: _ => cls c = false end ->
  k rest = None -> k (x :: rest) = Some r ->
  rep cls true k 0 (a ++ x :: rest) = Some r.
Proof.
  intros Ha Hx Hrest Hfail Hk. induction a as [|y a IH].
  - simpl app. cbn [rep pred]. rewrite Hx.
    assert (Hend : rep cls true k 0 rest = None).
    { destruct rest as [|c rest]; cbn [rep]; unfold orelse.
      - exact Hfail.
      - now rewrite Hrest. }
    rewrite Hend. unfold orelse. exact Hk.
  - simpl in Ha. apply andb_prop in Ha as [Hy Ha].
    simpl app. cbn [rep pred]. rewrite Hy, (IH Ha). reflexivity.
Qed.

(** A range whose START is written with zeros only: the last zero is the
    START, the zeros before it are the padding. *)
Lemma dotexp_search_zeros (pre post en : text) (k : nat) :
  ~ In "{"%char pre ->
  1 <= length en -> forallb is_digit en = true ->
  search dotexp_re
         (pre ++ ("{"%char :: repeat "0"%char (S k) ++ lit ".." ++ en
                           ++ ["}"%char]) ++ post)
  = Some {| m_pre := pre;
            m_whole := "{"%char :: repeat "0"%char (S k) ++ lit ".." ++ en
                                ++ ["}"%char];
            m_post := post;
            m_groups := [(3, en); (2, ["0"%char]); (1, repeat "0"%char k)] |}.
Proof.
  intros Hpre Hlen Hen. apply search_intro.
  - unfold dotexp_re, star, plus.
    replace (("{"%char :: repeat "0"%char (S k) ++ lit ".." ++ en
                       ++ ["}"%char]) ++ post)
      with ("{"%char :: repeat "0"%char k
                     ++ "0"%char :: "."%char :: "."%char :: en
                     ++ "}"%char :: post).
    2:{ change (lit "..") with ["."%char; "."%char].
        replace (S k) with (k + 1) by lia. rewrite repeat_app.
        simpl. repeat (rewrite <- app_assoc; simpl). reflexivity. }
    cbn [run]. rewrite Ascii.eqb_refl.
    apply rep_greedy_back.
    + clear. induction k; [reflexivity|simpl; exact IHk].
    + reflexivity.
    + reflexivity.
    + cbn [run rep]. reflexivity.
    + cbn [run]. rewrite captured_here.
      change ("0"%char :: "."%char :: "."%char :: en ++ "}"%char :: post)
        with (["0"%char] ++ "."%char :: "."%char :: en ++ "}"%char :: post).
      apply rep_greedy_all; [reflexivity|reflexivity| |simpl; lia].
      cbn [run]. rewrite captured_here. rewrite !Ascii.eqb_refl.
      apply rep_greedy_all; [assumption|reflexivity| |assumption].
      cbn [run]. rewrite Ascii.eqb_refl.
      unfold captured. cbn [lookup Nat.eqb].
      change ("}"%char :: post) with (["}"%char] ++ post).
      now rewrite firstn_diff.
  - intros p q Hpq Hq. now apply (brace_needed pre Hpre) with (p := p).
Qed.

End MoreBraces.

Lemma expand_url_unbraced (raw_url : text) :
  ~ In "{"%char raw_url \/ ~ In "}"%char raw_url ->
  expand_url raw_url = Ok [raw_url].
Proof.
  intros H. unfold expand_url.
  destruct (Re.search dotexp_re raw_url) as [d|] eqn:Hd.
  - exfalso. destruct H as [H|H].
    + unfold dotexp_re in Hd. now rewrite (search_first_char _ _ _ H) in Hd.
    + exact (H (dotexp_has_close _ _ Hd)).
  - destruct (Re.search commaexp_re raw_url) as [c|] eqn:Hc; [|reflexivity].
    exfalso. destruct H as [H|H].
    + unfold commaexp_re in Hc. now rewrite (search_first_char _ _ _ H) in Hc.
    + exact (H (commaexp_has_close _ _ Hc)).
Qed.

(** X1: a URL without an opening brace, or without a closing brace, is
    returned as it is, alone in the list. *)
Theorem expand_url_without_brace (raw_url : text) :
  ~ In "{"%char raw_url \/ ~ In "}"%char raw_url ->
  expand_url raw_url = Ok [raw_url].
Proof. exact (expand_url_unbraced raw_url). Qed.

Lemma expand_url_without_brace_witness :
  expand_url (lit "http://x.com/index}.html") = Ok [lit "http://x.com/index}.html"].
Proof.
  apply expand_url_without_brace. left. absent_char.
Defined.

Lemma expand_url_some (raw_url : text) (urls : list text) :
  expand_url raw_url = Ok urls -> urls <> [].
Proof.
  unfold expand_url.
  destruct (Re.search dotexp_re raw_url) as [d|].
  - destruct (Nat.ltb_spec (int (Re.group d 3)) (int (Re.group d 2)))
      as [|Hle]; [discriminate|].
    intros H. injection H as <-. intros E.
    apply (f_equal (@length text)) in E.
    rewrite !length_map in E. unfold range in E. rewrite length_seq in E.
    simpl in E. lia.
  - destruct (Re.search commaexp_re raw_url) as [c|].
    + intros H. injection H as <-. intros E.
      apply map_eq_nil in E. exact (split_nonempty _ _ E).
    + intros H. injection H as <-. discriminate.
Qed.

Lemma expand_url_raise (raw_url : text) (msg : string) :
  expand_url raw_url = Raise msg ->
  msg = "Negative dotexpansion not supported"%string.
Proof.
  unfold expand_url.
  destruct (Re.search dotexp_re raw_url) as [d|].
  - destruct (Nat.ltb (int (Re.group d 3)) (int (Re.group d 2)));
      [|discriminate].
    intros H. now injection H as <-.
  - destruct (Re.search commaexp_re raw_url); discriminate.
Qed.

(** X2: when [expand_url] returns, the list holds at least one URL; when it
    raises, the exception is the one of the negative range. *)
Theorem expand_url_not_empty (raw_url : text) :
  (forall urls, expand_url raw_url = Ok urls -> urls <> [])
  /\ (forall msg, expand_url raw_url = Raise msg ->
                  msg = "Negative dotexpansion not supported"%string).
Proof.
  split; [apply expand_url_some|apply expand_url_raise].
Qed.

Lemma expand_url_not_empty_witness :
  expand_url (lit "{a,b}") = Ok [lit "a"; lit "b"]
  /\ [lit "a"; lit "b"] <> [].
Proof.
  assert (H : expand_url (lit "{a,b}") = Ok [lit "a"; lit "b"])
    by (vm_compute; reflexivity).
  split; [exact H|].
  exact (proj1 (expand_url_not_empty (lit "{a,b}")) _ H).
Defined.

(** X3: a range whose START is written with zeros only, [k+1] of them,
    counts from 0 to END at the width [k+1], and never raises: the URLs are
    the text before the range, the number filled with zeros, and the text
    after the range. *)
Theorem expand_url_zero_start (pre post en : text) (k : nat) :
  ~ In "{"%char pre ->
  1 <= length en -> forallb is_digit en = true ->
  expand_url (pre ++ ("{"%char :: repeat "0"%char (S k) ++ lit ".." ++ en
                               ++ ["}"%char]) ++ post)
  = Ok (map (fun n =>
               pre ++ zfill (S k) (str n)
               ++ replace post
                    ("{"%char :: repeat "0"%char (S k) ++ lit ".." ++ en
                              ++ ["}"%char])
                    (zfill (S k) (str n)))
            (seq 0 (int en + 1))).
Proof.
  intros Hpre Hlen Hen.
  pose proof (dotexp_search_zeros pre post en k Hpre Hlen Hen) as Hs.
  pose proof (dotexp_first_occurrence _ _ Hs) as Hfirst.
  cbn [Re.m_pre Re.m_whole Re.m_post] in Hfirst.
  rewrite (range_urls _ _ Hs).
  - unfold Re.group. cbn [Re.m_groups Re.m_whole Re.lookup Nat.eqb].
    rewrite map_map. unfold range. rewrite repeat_length.
    change (int ["0"%char]) with 0. rewrite Nat.sub_0_r.
    replace (k + 1) with (S k) by lia.
    f_equal. apply map_ext. intros n.
    apply replace_unfold; [discriminate|exact Hfirst].
  - unfold Re.group. cbn [Re.m_groups Re.lookup Nat.eqb].
    change (int ["0"%char]) with 0. lia.
Qed.

Lemma expand_url_zero_start_witness :
  expand_url (lit "http://x.com/p"
                ++ ("{"%char :: repeat "0"%char 2 ++ lit ".." ++ lit "2"
                            ++ ["}"%char]) ++ lit ".html")
  = Ok [lit "http://x.com/p00.html"; lit "http://x.com/p01.html";
        lit "http://x.com/p02.html"].
Proof.
  refine (eq_trans (expand_url_zero_start (lit "http://x.com/p") (lit ".html")
                      (lit "2") 1 _ _ eq_refl) _).
  - absent_char.
  - vm_compute. repeat constructor.
  - vm_compute. reflexivity.
Defined.

(** ** [sanitize_body] *)

Lemma split_app_sep (sep : ascii) (d f : text) :
  split sep (d ++ sep :: f) = split sep d ++ split sep f.
Proof.
  induction d as [|c d IH].
  - simpl. now rewrite Ascii.eqb_refl.
  - rewrite <- app_comm_cons. cbn [split].
    destruct (Ascii.eqb c sep); [now rewrite IH|].
    rewrite IH. pose proof (split_nonempty sep d) as Hne.
    destruct (split sep d); [congruence|reflexivity].
Qed.

(** X4: the base URL of a page is its URL up to the last slash, the slash
    included; a URL without a slash has the base [/]. *)
Theorem baseurl_of_last_slash (dir file : text) :
  ~ In "/"%char file ->
  baseurl_of (dir ++ "/"%char :: file) = dir ++ ["/"%char]
  /\ baseurl_of file = ["/"%char].
Proof.
  intros Hfile. unfold baseurl_of. change (lit "/") with ["/"%char]. split.
  - rewrite split_app_sep, (split_without_sep _ _ Hfile), removelast_last.
    now rewrite (join_split "/"%char dir).
  - now rewrite (split_without_sep _ _ Hfile).
Qed.

Lemma baseurl_of_last_slash_witness :
  baseurl_of (lit "http://site.com/dir" ++ "/"%char :: lit "page.html")
  = lit "http://site.com/dir" ++ ["/"%char]
  /\ baseurl_of (lit "page.html") = ["/"%char].
Proof. apply baseurl_of_last_slash. absent_char. Defined.

Section LinkBudget.
Import ReFacts.

Lemma absolute_links_upto_zero (fuel : nat) (base s : text) :
  absolute_links_upto fuel 0 base s = s.
Proof. destruct fuel; reflexivity. Qed.

(** The first substitution with its budget of matches, on every body. *)
Lemma sub_links_upto (base : text) :
  forall fuel' fuel s left,
    length s < fuel' -> length s < fuel ->
    Re.sub_loop fuel link_re (fun _ => href_open ++ base) true left s
    = absolute_links_upto fuel' left base s.
Proof.
  induction fuel' as [|f' IH]; intros fuel s left Hf' Hf; [lia|].
  destruct fuel as [|f]; [lia|].
  destruct left as [|left].
  { now rewrite sub_loop_exhausted, absolute_links_upto_zero. }
  pose proof (link_search s) as Hsearch.
  cbn [absolute_links_upto].
  destruct (find_split href_open s) as [[pre post]|] eqn:F.
  - pose proof (find_split_post_length _ _ _ _ href_open_nonempty F) as Hlen.
    pose proof (find_split_some _ _ _ _ F) as Hs.
    destruct (absolute_target post) eqn:Ea.
    + rewrite Hs in Hsearch |- * at 1.
      rewrite app_assoc in Hsearch |- *.
      rewrite sub_loop_skip; [|reflexivity|exact Hsearch].
      rewrite (IH (S f) post (S left)); [|lia|lia].
      now rewrite <- app_assoc.
    + rewrite (sub_loop_step _ _ _ _ _ _ Hsearch);
        [|exact href_open_nonempty|discriminate].
      cbn [Re.m_pre Re.m_post pred].
      rewrite (IH f post left); [|lia|lia].
      now rewrite <- app_assoc.
  - now apply sub_loop_no_match.
Qed.

(** A font pattern matches only where the text of the attribute with its
    opening quote stands. *)
Lemma font_attr_needs_attr (attr s : text) (m : Re.rmatch) :
  Re.search (font_attr_re attr) s = Some m ->
  find_split (attr ++ ["="%char; dquote]) s <> None.
Proof.
  intros H. apply search_sound in H as (Hs & Hrun & _).
  rewrite font_attr_re_eq in Hrun. cbn [Re.run] in Hrun.
  rewrite run_chars in Hrun.
  destruct (strip_prefix (lit "<font ") (Re.m_whole m ++ Re.m_post m))
    as [r|] eqn:Ep; [|discriminate].
  apply strip_prefix_some in Ep. cbn [Re.run] in Hrun.
  apply rep_sound in Hrun as (a & r' & Hr & _ & _ & Hk).
  cbn [Re.run] in Hk. rewrite run_chars in Hk.
  destruct (strip_prefix (attr ++ ["="%char; dquote]) r') as [r''|] eqn:Ea;
    [|discriminate].
  apply strip_prefix_some in Ea.
  rewrite Hs, Ep, Hr, Ea.
  replace (Re.m_pre m ++ lit "<font " ++ a ++ (attr ++ ["="%char; dquote]) ++ r'')
    with ((Re.m_pre m ++ lit "<font " ++ a) ++ (attr ++ ["="%char; dquote]) ++ r'')
    by (now rewrite <- !app_assoc).
  apply find_split_present.
Qed.

Lemma relative_links_none_upto (fuel budget : nat) (base s : text) :
  relative_links_loop fuel s = 0 ->
  absolute_links_upto fuel budget base s = s.
Proof.
  revert s; induction fuel as [|fuel IH]; intros s H; [reflexivity|].
  destruct budget as [|budget]; [reflexivity|].
  cbn [relative_links_loop absolute_links_upto] in *.
  destruct (find_split href_open s) as [[pre post]|] eqn:F; [|reflexivity].
  destruct (absolute_target post); [|discriminate].
  rewrite IH by exact H. apply find_split_some in F. now rewrite F.
Qed.

End LinkBudget.

Lemma sanitize_body_link_budget (body url : text) :
  existsb (Ascii.eqb backslash) (baseurl_of url) = false ->
  sanitize_body body url
  = Some (Re.sub font_size_re (fun m => Re.group m 1)
            (Re.sub font_face_re (fun m => Re.group m 1)
               (absolute_links_upto (S (length body)) 2 (baseurl_of url) body)
               Re.IGNORECASE)
            Re.IGNORECASE).
Proof.
  intros Hb. unfold sanitize_body.
  rewrite plain_template_ok by (rewrite existsb_app, Hb; reflexivity).
  unfold Re.sub at 3. cbn [Re.IGNORECASE Nat.eqb negb].
  rewrite (sub_links_upto (baseurl_of url) (S (length body))) by lia.
  reflexivity.
Qed.

(** X5: on every body, for a page URL whose base URL holds no backslash, the
    first substitution of the sanitizer rewrites the first two links that
    are to be rewritten and nothing after the second of them: a third such
    link, and every later one, is kept as it is.  The font substitutions
    run on that text. *)
Theorem sanitize_body_two_links (body url : text) :
  existsb (Ascii.eqb backslash) (baseurl_of url) = false ->
  sanitize_body body url
  = Some (Re.sub font_size_re (fun m => Re.group m 1)
            (Re.sub font_face_re (fun m => Re.group m 1)
               (absolute_links_upto (S (length body)) 2 (baseurl_of url) body)
               Re.IGNORECASE)
            Re.IGNORECASE).
Proof. exact (sanitize_body_link_budget body url). Qed.

Lemma sanitize_body_two_links_witness :
  sanitize_body three_links_body page_url
  = Some (Re.sub font_size_re (fun m => Re.group m 1)
            (Re.sub font_face_re (fun m => Re.group m 1)
               (absolute_links_upto (S (length three_links_body)) 2
                                    (baseurl_of page_url) three_links_body)
               Re.IGNORECASE)
            Re.IGNORECASE)
  /\ absolute_links_upto (S (length three_links_body)) 2
                         (baseurl_of page_url) three_links_body
     = href_open ++ lit "http://site.com/dir/a" ++ [dquote] ++ lit ">"
       ++ href_open ++ lit "http://site.com/dir/b" ++ [dquote] ++ lit ">"
       ++ href_open ++ lit "c" ++ [dquote] ++ lit ">".
Proof.
  split.
  - apply sanitize_body_two_links. vm_compute. reflexivity.
  - vm_compute. reflexivity.
Defined.

(** X6: for a page URL whose base URL holds no backslash, a body without a
    link to rewrite and without the text [face=] or [size=] followed by a
    double quote comes back unchanged. *)
Theorem sanitize_body_unchanged (body url : text) :
  existsb (Ascii.eqb backslash) (baseurl_of url) = false ->
  relative_links body = 0 ->
  find_split (lit "face" ++ ["="%char; dquote]) body = None ->
  find_split (lit "size" ++ ["="%char; dquote]) body = None ->
  sanitize_body body url = Some body.
Proof.
  intros Hb Hrel Hface Hsize.
  rewrite (sanitize_body_link_budget _ _ Hb).
  rewrite (relative_links_none_upto _ _ _ _ Hrel).
  f_equal. unfold Re.sub at 2.
  rewrite sub_loop_no_match.
  - unfold Re.sub. apply sub_loop_no_match.
    rewrite font_size_re_attr.
    destruct (Re.search (font_attr_re (lit "size")) body) as [m|] eqn:E;
      [|reflexivity].
    exfalso. exact (font_attr_needs_attr _ _ _ E Hsize).
  - rewrite font_face_re_attr.
    destruct (Re.search (font_attr_re (lit "face")) body) as [m|] eqn:E;
      [|reflexivity].
    exfalso. exact (font_attr_needs_attr _ _ _ E Hface).
Qed.

Lemma sanitize_body_unchanged_witness :
  sanitize_body (lit "<font color=red>" ++ other_site_body ++ lit "</font>")
                page_url
  = Some (lit "<font color=red>" ++ other_site_body ++ lit "</font>").
Proof.
  apply sanitize_body_unchanged; vm_compute; reflexivity.
Defined.

(** ** [download_page] *)

Section MoreSelection.

Variable settings : Type.
Variable re_match : text -> text -> nat -> result bool.
Variable extract : text -> settings -> result page.

Lemma select_entry_raise (url : text) (before after : list text)
      (entries : list (text * settings)) (key : text) (msg : string) :
  (forall k, In k before -> re_match k url Re.IGNORECASE = Ok false) ->
  re_match key url Re.IGNORECASE = Raise msg ->
  select_entry settings re_match (before ++ key :: after) entries url
  = Raise msg.
Proof.
  induction before as [|k before IH]; intros Hb Hk; simpl.
  - now rewrite Hk.
  - rewrite (Hb k) by now left. simpl.
    apply IH; [|assumption]. intros k' Hin. apply Hb. now right.
Qed.

Lemma download_pages_each (entries : list (text * settings)) (maxn : nat) :
  forall urls first pages,
    download_pages settings re_match extract entries maxn first urls
    = Ok pages ->
    Forall2 (fun url pg =>
               download_page settings re_match extract url entries 0 maxn
               = Ok pg)
            urls pages.
Proof.
  induction urls as [|u urls IH]; intros first pages H; cbn [download_pages] in H.
  - injection H as <-. constructor.
  - destruct (download_page settings re_match extract u entries first maxn)
      as [pg|msg] eqn:Eu; [|discriminate].
    cbn [bind] in H.
    destruct (download_pages settings re_match extract entries maxn
                             (S first) urls) as [pgs|msg] eqn:Er;
      [|discriminate].
    cbn [bind] in H. injection H as <-.
    constructor; [exact Eu|]. now apply (IH (S first)).
Qed.

End MoreSelection.

(** X7: a pattern of the configuration that [re.match] refuses makes
    [download_page] raise the error of [re] when no entry before it
    matches, whatever the entries after it. *)
Theorem download_page_bad_pattern :
  forall (settings : Type) (re_match : text -> text -> nat -> result bool)
         (extract : text -> settings -> result page)
         (url : text) (before after : list (text * settings))
         (urlprefix : text) (rules : settings) (msg : string) (n maxn : nat),
    (forall k v, In (k, v) before -> re_match k url Re.IGNORECASE = Ok false) ->
    re_match urlprefix url Re.IGNORECASE = Raise msg ->
    download_page settings re_match extract url
                  (before ++ (urlprefix, rules) :: after) n maxn
    = Raise msg.
Proof.
  intros settings re_match extract url before after urlprefix rules msg n maxn
         Hb Hk.
  unfold download_page. rewrite map_app. cbn [map fst].
  rewrite (select_entry_raise settings re_match url (map fst before)
             (map fst after) _ urlprefix msg); [reflexivity| |exact Hk].
  intros k Hin. apply in_map_iff in Hin as ([k' v] & <- & Hin).
  exact (Hb k' v Hin).
Qed.

Lemma download_page_bad_pattern_witness :
  download_page nat strict_match page_of_rules (lit "http://b.com/story")
                ([(lit "http://a.com/", 1)] ++ (lit "(", 3)
                   :: [(lit "http://b.com/", 2)]) 0 1
  = Raise "re.error: missing )".
Proof.
  apply download_page_bad_pattern.
  - intros k v [H|[]]. injection H as <- <-. reflexivity.
  - reflexivity.
Defined.

(** X8: when the downloads of [main] succeed, there is one page record per
    URL, in the order of the URLs, and each record is what [download_page]
    returns for its URL. *)
Theorem download_pages_in_order :
  forall (settings : Type) (re_match : text -> text -> nat -> result bool)
         (extract : text -> settings -> result page)
         (entries : list (text * settings)) (urls : list text)
         (pages : list page),
    download_pages settings re_match extract entries (length urls) 0 urls
    = Ok pages ->
    length pages = length urls
    /\ Forall2 (fun url pg =>
                  download_page settings re_match extract url entries 0
                                (length urls) = Ok pg)
               urls pages.
Proof.
  intros settings re_match extract entries urls pages H.
  apply download_pages_each in H. split; [|exact H].
  symmetry. exact (Forall2_length H).
Qed.

Lemma download_pages_in_order_witness :
  length [{| p_body := []; p_title := str 2; p_url := lit "http://b.com/1";
             p_author_name := []; p_author_url := lit "#";
             p_description := [] |};
          {| p_body := []; p_title := str 1; p_url := lit "http://a.com/2";
             p_author_name := []; p_author_url := lit "#";
             p_description := [] |}]
  = length [lit "http://b.com/1"; lit "http://a.com/2"].
Proof.
  refine (proj1 (download_pages_in_order nat literal_match page_of_rules
                   two_entries [lit "http://b.com/1"; lit "http://a.com/2"]
                   _ _)).
  vm_compute. reflexivity.
Defined.

(** ** [create_directory] *)

Lemma str_injective (a b : nat) : str a = str b -> a = b.
Proof. intros H. rewrite <- (int_str a), <- (int_str b). now rewrite H. Qed.

Lemma candidate_injective (d : text) (i j : nat) :
  candidate d i = candidate d j -> i = j.
Proof.
  destruct i as [|i], j as [|j]; cbn [candidate]; intros H.
  - reflexivity.
  - exfalso. apply (f_equal (@length ascii)) in H.
    rewrite !length_app in H. simpl in H. lia.
  - exfalso. apply (f_equal (@length ascii)) in H.
    rewrite !length_app in H. simpl in H. lia.
  - apply app_inv_head in H. apply app_inv_head in H.
    apply str_injective in H. lia.
Qed.

Lemma NoDup_map_injective {A B : Type} (f : A -> B) (l : list A) :
  (forall x y, f x = f y -> x = y) -> NoDup l -> NoDup (map f l).
Proof.
  intros Hinj Hnd. induction Hnd as [|x l Hx Hnd IH]; simpl; constructor.
  - intros Hin. apply in_map_iff in Hin as (y & Hy & Hin).
    apply Hinj in Hy. now subst y.
  - exact IH.
Qed.

Section DirectoryLoop.

Variable exists_ : text -> bool.
Variable d : text.

Lemma free_path_step (fuel i : nat) :
  free_path exists_ (S fuel) d (candidate d i) (i + 2)
  = if exists_ (candidate d i)
    then free_path exists_ fuel d (candidate d (S i)) (S i + 2)
    else Some (candidate d i).
Proof. reflexivity. Qed.

(** The loop stops at the first name that is free. *)
Lemma free_path_some (fuel : nat) :
  forall i path,
    free_path exists_ fuel d (candidate d i) (i + 2) = Some path ->
    exists j,
      i <= j /\ path = candidate d j /\ exists_ path = false
      /\ forall l, i <= l -> l < j -> exists_ (candidate d l) = true.
Proof.
  induction fuel as [|fuel IH]; intros i path H; [discriminate|].
  rewrite free_path_step in H.
  destruct (exists_ (candidate d i)) eqn:E.
  - destruct (IH _ _ H) as (j & Hij & Hp & Hfree & Hall).
    exists j. repeat split; auto; [lia|].
    intros l Hl Hlj. destruct (Nat.eq_dec l i) as [->|Hne]; [exact E|].
    apply Hall; lia.
  - injection H as <-. exists i. repeat split; auto. intros l Hl Hlj. lia.
Qed.

Lemma free_path_none (fuel : nat) :
  forall i,
    free_path exists_ fuel d (candidate d i) (i + 2) = None ->
    forall l, i <= l -> l < i + fuel -> exists_ (candidate d l) = true.
Proof.
  induction fuel as [|fuel IH]; intros i H l Hl Hlt; [lia|].
  rewrite free_path_step in H.
  destruct (exists_ (candidate d i)) eqn:E; [|discriminate].
  destruct (Nat.eq_dec l i) as [->|Hne]; [exact E|].
  apply (IH (S i) H); lia.
Qed.

(** With finitely many names in use the loop comes to an end. *)
Lemma free_path_terminates (existing : list text) :
  (forall p, exists_ p = true -> In p existing) ->
  free_path exists_ (S (length existing)) d d 2 <> None.
Proof.
  intros Hfin Hnone.
  pose proof (free_path_none (S (length existing)) 0 Hnone) as Hall.
  assert (Hincl : incl (map (candidate d) (seq 0 (S (length existing))))
                       existing).
  { intros p Hp. apply in_map_iff in Hp as (l & <- & Hl).
    apply in_seq in Hl. apply Hfin, Hall; lia. }
  assert (Hnd : NoDup (map (candidate d) (seq 0 (S (length existing))))).
  { apply NoDup_map_injective; [|apply seq_NoDup].
    intros i j. apply candidate_injective. }
  pose proof (NoDup_incl_length Hnd Hincl) as Hlen.
  rewrite length_map, length_seq in Hlen. lia.
Qed.

(** The names in use before the first free one are all different, so there
    are no more of them than names in use. *)
Lemma first_free_bound (existing : list text) (j : nat) :
  (forall p, exists_ p = true -> In p existing) ->
  (forall l, l < j -> exists_ (candidate d l) = true) ->
  j <= length existing.
Proof.
  intros Hfin Hall.
  assert (Hincl : incl (map (candidate d) (seq 0 j)) existing).
  { intros p Hp. apply in_map_iff in Hp as (l & <- & Hl).
    apply in_seq in Hl. apply Hfin, Hall; lia. }
  assert (Hnd : NoDup (map (candidate d) (seq 0 j))).
  { apply NoDup_map_injective; [|apply seq_NoDup].
    intros a b. apply candidate_injective. }
  pose proof (NoDup_incl_length Hnd Hincl) as Hlen.
  now rewrite length_map, length_seq in Hlen.
Qed.

Lemma free_path_enough (existing : list text) (fuel : nat) :
  (forall p, exists_ p = true -> In p existing) ->
  length existing < fuel ->
  free_path exists_ fuel d d 2 <> None.
Proof.
  intros Hfin Hfuel Hnone.
  pose proof (free_path_none fuel 0 Hnone) as Hall.
  assert (Hle : fuel <= length existing).
  { apply first_free_bound; [exact Hfin|].
    intros l Hl. apply Hall; lia. }
  lia.
Qed.

End DirectoryLoop.

(** X9: when finitely many names are in use, the loop of [create_directory]
    ends after at most one test more than there are such names, and the
    directory that is then made has a name that was not in use. *)
Theorem create_directory_fresh :
  forall (exists_ : text -> bool) (mkdir : text -> result unit)
         (write_json : text -> metadata -> result unit)
         (existing : list text) (root_path : text) (md : metadata),
    (forall p, exists_ p = true -> In p existing) ->
    exists path,
      create_directory exists_ mkdir write_json (S (length existing))
                       root_path md
      = Some (bind (mkdir path)
                (fun _ =>
                   bind (write_json (os_path_join path (lit "metadata.json"))
                                    md)
                        (fun _ => Ok path)))
      /\ exists_ path = false.
Proof.
  intros exists_ mkdir write_json existing root_path md Hfin.
  unfold create_directory.
  destruct (free_path exists_ (S (length existing))
                      (os_path_join root_path (md_title md))
                      (os_path_join root_path (md_title md)) 2)
    as [path|] eqn:E.
  - exists path. split; [reflexivity|].
    destruct (free_path_some exists_ _ _ 0 path E) as (j & _ & _ & Hfree & _).
    exact Hfree.
  - exfalso. exact (free_path_terminates exists_ _ existing Hfin E).
Qed.

Lemma taken_listed (p : text) : taken p = true -> In p two_taken.
Proof.
  unfold taken. intros H. apply existsb_exists in H as (q & Hq & E).
  apply text_eqb_eq in E. now subst q.
Qed.

Lemma create_directory_fresh_witness :
  exists path,
    create_directory taken mkdir_ok write_json_ok (S (length two_taken))
                     (lit "/r") (titled (lit "T"))
    = Some (bind (mkdir_ok path)
              (fun _ =>
                 bind (write_json_ok (os_path_join path (lit "metadata.json"))
                                     (titled (lit "T")))
                      (fun _ => Ok path)))
    /\ taken path = false.
Proof.
  exact (create_directory_fresh taken mkdir_ok write_json_ok two_taken
           (lit "/r") (titled (lit "T")) taken_listed).
Defined.

(** X10: when finitely many names are in use, [create_directory] leaves its
    loop, on any run long enough to test one name more than there are names
    in use, with the first name that is not in use in the sequence: root and
    title joined, then the same with [-2], with [-3], and so on; every name
    before it in the sequence is in use.  This is the directory that it has
    [os.mkdir] make; then it writes [metadata.json] in that directory and
    returns the path of the directory, and an exception of either call is
    passed on. *)
Theorem create_directory_first_free :
  forall (exists_ : text -> bool) (mkdir : text -> result unit)
         (write_json : text -> metadata -> result unit)
         (existing : list text) (fuel : nat) (root_path : text)
         (md : metadata),
    (forall p, exists_ p = true -> In p existing) ->
    length existing < fuel ->
    exists j,
      j <= length existing
      /\ create_directory exists_ mkdir write_json fuel root_path md
         = Some
             (bind (mkdir (candidate (os_path_join root_path (md_title md)) j))
                (fun _ =>
                   bind (write_json
                           (os_path_join
                              (candidate
                                 (os_path_join root_path (md_title md)) j)
                              (lit "metadata.json")) md)
                        (fun _ =>
                           Ok (candidate
                                 (os_path_join root_path (md_title md)) j))))
      /\ exists_ (candidate (os_path_join root_path (md_title md)) j) = false
      /\ forall l,
          l < j ->
          exists_ (candidate (os_path_join root_path (md_title md)) l) = true.
Proof.
  intros exists_ mkdir write_json existing fuel root_path md Hfin Hfuel.
  unfold create_directory.
  destruct (free_path exists_ fuel (os_path_join root_path (md_title md))
                      (os_path_join root_path (md_title md)) 2)
    as [path|] eqn:E.
  - destruct (free_path_some exists_ _ _ 0 path E)
      as (j & _ & -> & Hfree & Hall).
    assert (Hbefore : forall l,
               l < j ->
               exists_ (candidate (os_path_join root_path (md_title md)) l)
               = true) by (intros l Hl; apply Hall; lia).
    exists j. split; [exact (first_free_bound _ _ _ _ Hfin Hbefore)|].
    split; [reflexivity|]. split; [exact Hfree|exact Hbefore].
  - exfalso. exact (free_path_enough exists_ _ existing fuel Hfin Hfuel E).
Qed.

Lemma create_directory_first_free_witness :
  exists j,
    j <= length two_taken
    /\ create_directory taken mkdir_ok write_json_ok 5 (lit "/r")
                        (titled (lit "T"))
       = Some
           (bind (mkdir_ok (candidate (os_path_join (lit "/r")
                                         (md_title (titled (lit "T")))) j))
              (fun _ =>
                 bind (write_json_ok
                         (os_path_join
                            (candidate (os_path_join (lit "/r")
                                          (md_title (titled (lit "T")))) j)
                            (lit "metadata.json")) (titled (lit "T")))
                      (fun _ =>
                         Ok (candidate (os_path_join (lit "/r")
                                          (md_title (titled (lit "T")))) j))))
    /\ taken (candidate (os_path_join (lit "/r")
                           (md_title (titled (lit "T")))) j) = false
    /\ forall l,
        l < j ->
        taken (candidate (os_path_join (lit "/r")
                            (md_title (titled (lit "T")))) l) = true.
Proof.
  refine (create_directory_first_free taken mkdir_ok write_json_ok two_taken 5
            (lit "/r") (titled (lit "T")) taken_listed _).
  vm_compute. repeat constructor.
Defined.

(** ** [gen_controls] and [save_pages] *)

Lemma gen_controls_ok (name : text) (n pagenum : nat) :
  brace_free name = true ->
  gen_controls name n pagenum = Ok (controls_of name n pagenum).
Proof.
  intros Hb. unfold controls_of.
  destruct (Nat.eqb_spec pagenum 1) as [->|Hne].
  - apply gen_controls_single.
  - now apply gen_controls_brace_free.
Qed.

Section MoreWriter.

Variable FS : Type.
Variable write_file : text -> text -> FS -> FS * result unit.
Variable render : text -> page -> result text.
Variable out : text -> page -> text.
Variables (path name : text).
Hypothesis name_plain : brace_free name = true.

Lemma save_loop_all (total : nat) :
  forall pages n fs,
    (forall c pg, In pg pages -> render c pg = Ok (out c pg)) ->
    save_loop FS write_file render path name total n pages fs
    = write_all FS write_file (page_files out path name total n pages) fs.
Proof.
  induction pages as [|pg pages IH]; intros n fs Hr; [reflexivity|].
  cbn [save_loop page_files write_all].
  rewrite (gen_controls_ok _ _ _ name_plain).
  rewrite (Hr _ pg) by now left.
  destruct (write_file (page_path path name n total)
                       (out (controls_of name n total) pg) fs)
    as [fs' [[]|msg]]; [|reflexivity].
  apply IH. intros c pg' Hin. apply Hr. now right.
Qed.

Lemma save_loop_stops (total : nat) (bad : page) (msg : string) :
  forall done rest n fs,
    (forall c pg, In pg done -> render c pg = Ok (out c pg)) ->
    (forall c, render c bad = Raise msg) ->
    save_loop FS write_file render path name total n (done ++ bad :: rest) fs
    = match write_all FS write_file
              (page_files out path name total n done) fs with
      | (fs', Ok _) => (fs', Raise msg)
      | (fs', Raise m) => (fs', Raise m)
      end.
Proof.
  induction done as [|pg done IH]; intros rest n fs Hr Hbad.
  - cbn [app save_loop page_files write_all].
    rewrite (gen_controls_ok _ _ _ name_plain), Hbad. reflexivity.
  - rewrite <- app_comm_cons. cbn [save_loop page_files write_all].
    rewrite (gen_controls_ok _ _ _ name_plain).
    rewrite (Hr _ pg) by now left.
    destruct (write_file (page_path path name n total)
                         (out (controls_of name n total) pg) fs)
      as [fs' [[]|m]]; [|reflexivity].
    apply IH; [intros c pg' Hin; apply Hr; now right|exact Hbad].
Qed.

Lemma write_all_ok (files : list (text * text)) :
  (forall fpath content fs, snd (write_file fpath content fs) = Ok tt) ->
  forall fs, snd (write_all FS write_file files fs) = Ok tt.
Proof.
  intros Hw. induction files as [|[fpath content] files IH]; intros fs;
    [reflexivity|].
  cbn [write_all]. pose proof (Hw fpath content fs) as H.
  destruct (write_file fpath content fs) as [fs' [[]|msg]];
    [apply IH|discriminate H].
Qed.

End MoreWriter.

Lemma page_files_length (out : text -> page -> text) (path name : text)
      (total : nat) :
  forall pages n, length (page_files out path name total n pages) = length pages.
Proof.
  induction pages as [|pg pages IH]; intros n; simpl; [reflexivity|].
  now rewrite IH.
Qed.

(** X11: with a title without braces and a template that renders every
    page, [save_pages] calls [write_file] once for every page, in the order
    of the pages, for page [i] (from 0) with the path of [page_path] and
    the rendering with the controls of the convention, up to the first call
    that fails, whose exception it passes on.  With a [write_file] that
    never fails it returns normally. *)
Theorem save_pages_writes_all :
  forall (FS : Type) (write_file : text -> text -> FS -> FS * result unit)
         (render : text -> page -> result text) (out : text -> page -> text)
         (path name : text) (pages : list page) (fs : FS),
    brace_free name = true ->
    (forall c pg, In pg pages -> render c pg = Ok (out c pg)) ->
    save_pages FS write_file render path name pages fs
    = write_all FS write_file
                (page_files out path name (length pages) 0 pages) fs
    /\ length (page_files out path name (length pages) 0 pages)
       = length pages
    /\ ((forall fpath content fs',
           snd (write_file fpath content fs') = Ok tt) ->
        snd (save_pages FS write_file render path name pages fs) = Ok tt).
Proof.
  intros FS write_file render out path name pages fs Hb Hr.
  assert (Hs : save_pages FS write_file render path name pages fs
               = write_all FS write_file
                           (page_files out path name (length pages) 0 pages)
                           fs)
    by (unfold save_pages; now apply save_loop_all).
  split; [exact Hs|]. split; [apply page_files_length|].
  intros Hw. rewrite Hs. now apply write_all_ok.
Qed.

Lemma save_pages_writes_all_witness :
  save_pages disk disk_write plain_render (lit "/out") (lit "T")
             [body_page (lit "one"); body_page (lit "two")]
             [(lit "/out/T - Page 001.html", lit "old")]
  = ([(lit "/out/T - Page 002.html",
       controls_of (lit "T") 1 2 ++ lit "two");
      (lit "/out/T - Page 001.html",
       controls_of (lit "T") 0 2 ++ lit "one")],
     Ok tt).
Proof.
  rewrite (proj1 (save_pages_writes_all disk disk_write plain_render plain_out
                    (lit "/out") (lit "T")
                    [body_page (lit "one"); body_page (lit "two")]
                    [(lit "/out/T - Page 001.html", lit "old")]
                    eq_refl (fun c pg _ => eq_refl))).
  vm_compute. reflexivity.
Defined.

(** X12: in a download of several pages, two different pages are never
    written to the same file. *)
Theorem page_path_injective (path name : text) (total i j : nat) :
  1 < total -> i <> j ->
  page_path path name i total <> page_path path name j total.
Proof.
  intros Ht Hij H. apply Hij. rewrite !page_path_several in H by exact Ht.
  apply app_inv_head in H. apply app_inv_head in H.
  apply app_inv_tail in H.
  apply (f_equal int) in H. rewrite !int_zfill, !int_str in H. lia.
Qed.

Lemma page_path_injective_witness :
  page_path (lit "/out") (lit "T") 0 1000
  <> page_path (lit "/out") (lit "T") 999 1000.
Proof.
  apply page_path_injective.
  - apply Nat.ltb_lt. vm_compute. reflexivity.
  - discriminate.
Defined.

Lemma os_path_join_app (a b s : text) :
  startswith s (lit "/") = false ->
  os_path_join a (b ++ s) = os_path_join a b ++ s.
Proof.
  intros Hs. unfold os_path_join. destruct b as [|c b].
  - simpl app. rewrite Hs. change (startswith [] (lit "/")) with false.
    change (lit "/") with ["/"%char].
    destruct (negb (truthy a) || endswith a ["/"%char]).
    + now rewrite app_nil_r.
    + now rewrite <- app_assoc.
  - assert (Hhead : startswith ((c :: b) ++ s) (lit "/")
                    = startswith (c :: b) (lit "/")).
    { unfold startswith. change (lit "/") with ["/"%char].
      rewrite <- app_comm_cons. cbn [strip_prefix].
      now destruct (Ascii.eqb "/" c). }
    rewrite Hhead.
    destruct (startswith (c :: b) (lit "/")); [reflexivity|].
    destruct (negb (truthy a) || endswith a (lit "/"));
      now rewrite <- ?app_assoc.
Qed.

Lemma sibling_is_page_path (path name : text) (k total : nat) :
  1 < total ->
  os_path_join path (sibling_name name (k + 1)) = page_path path name k total.
Proof.
  intros Ht. rewrite (page_path_several _ _ _ _ Ht). unfold sibling_name.
  now rewrite os_path_join_app.
Qed.

(** X13: with a title without braces, the links of the controls of a page
    lead to the files of its neighbours: joined to the directory, the
    target of Prev is the file of the page before and the target of Next
    the file of the page after; the first page has no Prev and the last no
    Next. *)
Theorem gen_controls_links_to_files (path name : text) (n total : nat) :
  brace_free name = true -> 1 < total -> n < total ->
  gen_controls name n total
  = Ok (controls_template
          ((if Nat.ltb 0 n then prev_link (sibling_name name n) else [])
           ++ page_label (n + 1) total
           ++ (if Nat.ltb n (total - 1)
               then next_link (sibling_name name (n + 2)) else [])))
  /\ (0 < n ->
      os_path_join path (sibling_name name n)
      = page_path path name (n - 1) total)
  /\ (n < total - 1 ->
      os_path_join path (sibling_name name (n + 2))
      = page_path path name (n + 1) total).
Proof.
  intros Hb Ht Hn. split; [|split].
  - apply gen_controls_brace_free; [exact Hb|lia].
  - intros H0. replace n with ((n - 1) + 1) at 1 by lia.
    now apply sibling_is_page_path.
  - intros Hlast. replace (n + 2) with ((n + 1) + 1) by lia.
    now apply sibling_is_page_path.
Qed.

Lemma gen_controls_links_to_files_witness :
  gen_controls (lit "T") 1 3
  = Ok (controls_template
          ((if Nat.ltb 0 1 then prev_link (sibling_name (lit "T") 1) else [])
           ++ page_label (1 + 1) 3
           ++ (if Nat.ltb 1 (3 - 1)
               then next_link (sibling_name (lit "T") (1 + 2)) else [])))
  /\ (0 < 1 ->
      os_path_join (lit "/out") (sibling_name (lit "T") 1)
      = page_path (lit "/out") (lit "T") (1 - 1) 3)
  /\ (1 < 3 - 1 ->
      os_path_join (lit "/out") (sibling_name (lit "T") (1 + 2))
      = page_path (lit "/out") (lit "T") (1 + 1) 3).
Proof.
  apply gen_controls_links_to_files.
  - vm_compute. reflexivity.
  - repeat constructor.
  - repeat constructor.
Defined.

(** X14: with a title without braces, when the template renders the pages
    before some page and fails on that page, [save_pages] writes the files
    of the pages before it, in their order, and then raises the exception
    of the template; when one of these writes fails it ends there, with the
    exception of the write.  The page on which the template fails and the
    pages after it are not written. *)
Theorem save_pages_stops_at_failure :
  forall (FS : Type) (write_file : text -> text -> FS -> FS * result unit)
         (render : text -> page -> result text) (out : text -> page -> text)
         (path name : text) (done rest : list page) (bad : page)
         (msg : string) (fs : FS),
    brace_free name = true ->
    (forall c pg, In pg done -> render c pg = Ok (out c pg)) ->
    (forall c, render c bad = Raise msg) ->
    save_pages FS write_file render path name (done ++ bad :: rest) fs
    = match write_all FS write_file
              (page_files out path name (length (done ++ bad :: rest)) 0 done)
              fs with
      | (fs', Ok _) => (fs', Raise msg)
      | (fs', Raise m) => (fs', Raise m)
      end.
Proof.
  intros FS write_file render out path name done rest bad msg fs Hb Hr Hbad.
  unfold save_pages. now apply save_loop_stops.
Qed.

Lemma save_pages_stops_at_failure_witness :
  save_pages disk disk_write picky_render (lit "/out") (lit "T")
             ([body_page (lit "one")] ++ body_page [] :: [body_page (lit "3")])
             []
  = ([(lit "/out/T - Page 001.html", controls_of (lit "T") 0 3 ++ lit "one")],
     Raise "KeyError").
Proof.
  rewrite (save_pages_stops_at_failure disk disk_write picky_render plain_out
             (lit "/out") (lit "T") [body_page (lit "one")]
             [body_page (lit "3")] (body_page []) "KeyError" []
             eq_refl).
  - vm_compute. reflexivity.
  - intros c pg [<-|[]]. reflexivity.
  - intros c. reflexivity.
Defined.

Lemma emit_raises (c : ascii) (r : result text) : raises r -> raises (emit c r).
Proof. intros [msg ->]. now exists msg. Qed.

(** Once an automatic field has taken the argument, the field at the end of
    the link template of [gen_controls] makes [format] raise. *)
Lemma format_used (k n : nat) :
  forall name, length name <= n ->
               raises (format_int (name ++ lit " - Page {:03}.html") true k).
Proof.
  induction n as [|n IH]; intros name Hlen.
  - destruct name; [|simpl in Hlen; lia]. eexists. reflexivity.
  - destruct name as [|c name]; [eexists; reflexivity|].
    simpl in Hlen. rewrite <- app_comm_cons. cbn [format_int].
    destruct (Ascii.eqb c "{") eqn:Eo.
    + destruct name as [|c2 name]; [eexists; reflexivity|].
      simpl in Hlen. rewrite <- app_comm_cons.
      destruct (Ascii.eqb c2 "{").
      * apply emit_raises, IH. lia.
      * destruct (Ascii.eqb c2 "}"); [eexists; reflexivity|].
        destruct (name ++ lit " - Page {:03}.html") as [|c3 [|c4 [|c5 t5]]];
          try (eexists; reflexivity).
        destruct (Ascii.eqb c2 ":" && Ascii.eqb c3 "0" && Ascii.eqb c4 "3"
                  && Ascii.eqb c5 "}"); eexists; reflexivity.
    + destruct (Ascii.eqb c "}") eqn:Ec.
      * destruct name as [|c2 name]; [eexists; reflexivity|].
        simpl in Hlen. rewrite <- app_comm_cons.
        destruct (Ascii.eqb c2 "}"); [|eexists; reflexivity].
        apply emit_raises, IH. lia.
      * apply emit_raises, IH. lia.
Qed.

Lemma emit_ok (c : ascii) (r : result text) (t : text) :
  emit c r = Ok t -> exists t', r = Ok t' /\ t = c :: t'.
Proof.
  destruct r as [t'|msg]; cbn [emit bind]; intros H; [|discriminate].
  injection H as <-. now exists t'.
Qed.

Lemma bind_raises {A B : Type} (r : result A) (f : A -> result B) (b : B) :
  raises r -> bind r f <> Ok b.
Proof. intros [msg ->]. discriminate. Qed.

(** When [format] returns on the link template, every brace of the name
    was one of a doubled pair and has been halved: the result is shorter
    than the name of the file as soon as the name holds a brace. *)
Lemma format_halves (k n : nat) :
  forall name t,
    length name <= n ->
    format_int (name ++ lit " - Page {:03}.html") false k = Ok t ->
    exists u,
      t = u ++ lit " - Page " ++ zfill 3 (str k) ++ lit ".html"
      /\ length u <= length name
      /\ (brace_free name = false -> length u < length name).
Proof.
  induction n as [|n IH]; intros name t Hlen H.
  - destruct name; [|simpl in Hlen; lia].
    simpl app in H. rewrite format_suffix in H. injection H as <-.
    exists []. repeat split; auto. discriminate.
  - destruct name as [|c name].
    { simpl app in H. rewrite format_suffix in H. injection H as <-.
      exists []. repeat split; auto. discriminate. }
    simpl in Hlen. rewrite <- app_comm_cons in H. cbn [format_int] in H.
    destruct (Ascii.eqb c "{") eqn:Eo.
    + destruct name as [|c2 name]; [discriminate H|].
      simpl in Hlen. rewrite <- app_comm_cons in H.
      destruct (Ascii.eqb c2 "{").
      * apply emit_ok in H as (t' & H & ->).
        destruct (IH name t') as (u & -> & Hu & _); [lia|exact H|].
        exists ("{"%char :: u). repeat split; simpl; auto; lia.
      * destruct (Ascii.eqb c2 "}").
        { exfalso. revert H. apply bind_raises.
          apply (format_used k n). lia. }
        destruct name as [|c3 [|c4 [|c5 name]]].
        -- simpl app in H. cbn in H.
           destruct (Ascii.eqb c2 ":"); discriminate H.
        -- simpl app in H. cbn in H.
           destruct (Ascii.eqb c2 ":"), (Ascii.eqb c3 "0"); discriminate H.
        -- simpl app in H. cbn in H.
           destruct (Ascii.eqb c2 ":"), (Ascii.eqb c3 "0"), (Ascii.eqb c4 "3");
             discriminate H.
        -- rewrite <- !app_comm_cons in H. simpl in Hlen.
           destruct (Ascii.eqb c2 ":" && Ascii.eqb c3 "0" && Ascii.eqb c4 "3"
                     && Ascii.eqb c5 "}"); [|discriminate H].
           exfalso. revert H. apply bind_raises.
           apply (format_used k n). lia.
    + destruct (Ascii.eqb c "}") eqn:Ec.
      * destruct name as [|c2 name]; [discriminate H|].
        simpl in Hlen. rewrite <- app_comm_cons in H.
        destruct (Ascii.eqb c2 "}"); [|discriminate H].
        apply emit_ok in H as (t' & H & ->).
        destruct (IH name t') as (u & -> & Hu & _); [lia|exact H|].
        exists ("}"%char :: u). repeat split; simpl; auto; lia.
      * apply emit_ok in H as (t' & H & ->).
        destruct (IH name t') as (u & -> & Hu & Hstrict); [lia|exact H|].
        exists (c :: u). repeat split; simpl; auto; [lia|].
        rewrite Eo, Ec. cbn [orb negb andb]. intros Hb.
        specialize (Hstrict Hb). lia.
Qed.

Lemma format_shorter (name h : text) (k : nat) :
  brace_free name = false ->
  format_int (name ++ lit " - Page {:03}.html") false k = Ok h ->
  length h < length (sibling_name name k).
Proof.
  intros Hb H.
  destruct (format_halves k (length name) name h (le_n _) H)
    as (u & -> & _ & Hstrict).
  specialize (Hstrict Hb). unfold sibling_name. rewrite !length_app. lia.
Qed.

Lemma controls_template_length (x : text) :
  length (controls_template x) = 28 + length x.
Proof.
  unfold controls_template. rewrite !length_app. simpl. lia.
Qed.

Lemma prev_link_length (h : text) :
  length (prev_link h) = 26 + length h.
Proof. unfold prev_link. rewrite !length_app. simpl. lia. Qed.

Lemma next_link_length (h : text) :
  length (next_link h) = 26 + length h.
Proof. unfold next_link. rewrite !length_app. simpl. lia. Qed.

(** X15: with a brace in the title, no page of a download of several pages
    gets the controls of the convention: [gen_controls] raises, or it
    returns controls whose link targets are not the names of the files
    (the doubled braces of the title are halved in them). *)
Theorem gen_controls_wrong_with_brace (name : text) (n pagenum : nat) (c : text) :
  brace_free name = false -> 1 < pagenum -> n < pagenum ->
  gen_controls name n pagenum = Ok c ->
  c <> controls_of name n pagenum.
Proof.
  intros Hb Hp Hn H Heq.
  apply (f_equal (@length ascii)) in Heq.
  apply (f_equal (fun r => match r with Ok x => length x | Raise _ => 0 end))
    in H.
  cbv beta iota in H. rewrite Heq in H. clear Heq. revert H.
  unfold gen_controls, controls_of.
  destruct (Nat.eqb_spec pagenum 1) as [|_]; [lia|].
  rewrite controls_template_length.
  destruct (Nat.ltb_spec 0 n) as [H0|H0];
    destruct (Nat.ltb_spec n (pagenum - 1)) as [Hl|Hl]; try lia.
  - destruct (format_int (name ++ lit " - Page {:03}.html") false n)
      as [h1|] eqn:E1; [|cbn [bind]; lia].
    destruct (format_int (name ++ lit " - Page {:03}.html") false (n + 2))
      as [h2|] eqn:E2; [|cbn [bind]; lia].
    cbn [bind].
    pose proof (format_shorter _ _ _ Hb E1).
    pose proof (format_shorter _ _ _ Hb E2).
    rewrite !controls_template_length, !length_app, !prev_link_length,
      !next_link_length.
    simpl (length []). lia.
  - destruct (format_int (name ++ lit " - Page {:03}.html") false n)
      as [h1|] eqn:E1; [|cbn [bind]; lia].
    cbn [bind].
    pose proof (format_shorter _ _ _ Hb E1).
    rewrite !controls_template_length, !length_app, !prev_link_length.
    simpl (length []). lia.
  - destruct (format_int (name ++ lit " - Page {:03}.html") false (n + 2))
      as [h2|] eqn:E2; [|cbn [bind]; lia].
    cbn [bind].
    pose proof (format_shorter _ _ _ Hb E2).
    rewrite !controls_template_length, !length_app, !next_link_length.
    simpl (length []). lia.
Qed.

Lemma gen_controls_wrong_with_brace_witness :
  controls_template (page_label 1 2 ++ next_link (lit "a{b - Page 002.html"))
  <> controls_of (lit "a{{b") 0 2.
Proof.
  apply gen_controls_wrong_with_brace.
  - vm_compute. reflexivity.
  - repeat constructor.
  - repeat constructor.
  - vm_compute. reflexivity.
Defined.

(** ** [gen_metadata]: the tags *)

Section MoreTags.

Lemma lstrip_incl (s : text) (c : ascii) : In c (lstrip s) -> In c s.
Proof.
  intros H. destruct (lstrip_split s) as (w & Hs & _). rewrite Hs.
  apply in_or_app. now right.
Qed.

Lemma rstrip_incl (s : text) (c : ascii) : In c (rstrip s) -> In c s.
Proof.
  unfold rstrip. intros H. apply in_rev in H. apply lstrip_incl in H.
  now apply in_rev.
Qed.

Lemma lstrip_fixed (s : text) :
  match s with [] => True | c :: _ => is_space c = false end -> lstrip s = s.
Proof. destruct s as [|c s]; [reflexivity|]. simpl. now intros ->. Qed.

Lemma lstrip_idempotent (s : text) : lstrip (lstrip s) = lstrip s.
Proof. apply lstrip_fixed, lstrip_head. Qed.

Lemma rstrip_idempotent (s : text) : rstrip (rstrip s) = rstrip s.
Proof.
  unfold rstrip. now rewrite rev_involutive, lstrip_idempotent.
Qed.

(** Taking white space away at the end leaves a text without white space at
    its start as it is there. *)
Lemma lstrip_rstrip (s : text) : lstrip s = s -> lstrip (rstrip s) = rstrip s.
Proof.
  intros Hs. apply lstrip_fixed.
  destruct (rstrip_split s) as (w & Hw & _).
  destruct (rstrip s) as [|c r]; [exact I|].
  rewrite Hw in Hs. pose proof (lstrip_head ((c :: r) ++ w)) as Hh.
  rewrite Hs in Hh. exact Hh.
Qed.

Lemma rstrip_lstrip (s : text) : rstrip s = s -> rstrip (lstrip s) = lstrip s.
Proof.
  intros Hs. unfold rstrip in *.
  apply (f_equal (@rev ascii)) in Hs. rewrite rev_involutive in Hs.
  destruct (lstrip_split s) as (w & Hw & _).
  assert (Hfix : lstrip (rev (lstrip s)) = rev (lstrip s)).
  { apply lstrip_fixed. destruct (rev (lstrip s)) as [|c r] eqn:E; [exact I|].
    pose proof (lstrip_head (rev s)) as Hh. rewrite Hs in Hh.
    rewrite Hw, rev_app_distr, E in Hh. exact Hh. }
  rewrite Hfix. apply rev_involutive.
Qed.

Lemma trim_after_comma_length (pieces : list text) :
  length (trim_after_comma pieces) = length pieces.
Proof.
  induction pieces as [|p [|q ps] IH]; [reflexivity|reflexivity|].
  cbn [trim_after_comma length] in *. now rewrite IH.
Qed.

Lemma trim_after_comma_in (pieces : list text) (t : text) :
  In t (trim_after_comma pieces) ->
  exists p, In p pieces /\ (t = lstrip p \/ t = rstrip (lstrip p)).
Proof.
  induction pieces as [|p [|q ps] IH]; intros H.
  - destruct H.
  - destruct H as [<-|[]]. exists p. split; [now left|now left].
  - cbn [trim_after_comma] in H. destruct H as [<-|H].
    + exists p. split; [now left|now right].
    + destruct (IH H) as (p' & Hin & Ht). exists p'. split; [now right|exact Ht].
Qed.

Lemma comma_trimmed_length (s : text) :
  length (comma_trimmed s) = S (count_occ ascii_dec s ","%char).
Proof.
  unfold comma_trimmed. rewrite <- split_length.
  destruct (split ","%char s) as [|p [|q ps]]; [reflexivity|reflexivity|].
  cbn [length]. now rewrite trim_after_comma_length.
Qed.

Lemma comma_trimmed_no_comma (s t : text) :
  In t (comma_trimmed s) -> ~ In ","%char t.
Proof.
  unfold comma_trimmed. pose proof (split_no_sep ","%char s) as Hno.
  destruct (split ","%char s) as [|p [|q ps]]; intros H.
  - destruct H.
  - destruct H as [<-|[]]. apply Hno. now left.
  - destruct H as [<-|H].
    + intros Hc. apply rstrip_incl in Hc. apply (Hno p); [now left|exact Hc].
    + apply trim_after_comma_in in H as (p' & Hin & [->| ->]); intros Hc.
      * apply lstrip_incl in Hc. apply (Hno p'); [now right|exact Hc].
      * apply rstrip_incl, lstrip_incl in Hc.
        apply (Hno p'); [now right|exact Hc].
Qed.

Lemma trim_after_comma_stripped (pieces : list text) :
  Forall (fun t => lstrip t = t) (trim_after_comma pieces)
  /\ Forall (fun t => rstrip t = t) (removelast (trim_after_comma pieces)).
Proof.
  induction pieces as [|p [|q ps] IH].
  - split; constructor.
  - split; [|constructor]. constructor; [apply lstrip_idempotent|constructor].
  - destruct IH as [IHl IHr]. cbn [trim_after_comma] in *. split.
    + constructor; [|exact IHl]. apply lstrip_rstrip, lstrip_idempotent.
    + destruct ps as [|r ps].
      * cbn [removelast]. constructor; [apply rstrip_idempotent|constructor].
      * change (removelast (rstrip (lstrip p)
                              :: rstrip (lstrip q) :: trim_after_comma (r :: ps)))
          with (rstrip (lstrip p)
                  :: removelast (rstrip (lstrip q)
                                   :: trim_after_comma (r :: ps))).
        constructor; [apply rstrip_idempotent|exact IHr].
Qed.

Lemma rstrip_app_comma (t rest : text) :
  rstrip (t ++ ","%char :: rest) = t ++ ","%char :: rstrip rest.
Proof.
  unfold rstrip. rewrite rev_app_distr. simpl rev. rewrite <- app_assoc.
  simpl app. rewrite lstrip_app_comma, rev_app_distr. simpl rev.
  rewrite rev_involutive, <- app_assoc. reflexivity.
Qed.

Lemma trim_after_comma_strip (n : nat) :
  forall s, length s <= n -> rstrip s = s ->
            trim_after_comma (split ","%char s) = map strip (split ","%char s).
Proof.
  induction n as [|n IH]; intros s Hlen Hs.
  - destruct s; [|simpl in Hlen; lia]. reflexivity.
  - destruct (split_cases s) as [(Hno & Hsp)|(t & rest & -> & Hno & Hsp)].
    + rewrite Hsp. cbn [trim_after_comma map]. unfold strip.
      now rewrite (rstrip_lstrip _ Hs).
    + rewrite Hsp. rewrite rstrip_app_comma in Hs.
      apply app_inv_head in Hs. injection Hs as Hs.
      pose proof (split_nonempty ","%char rest) as Hne.
      rewrite length_app in Hlen. simpl in Hlen.
      pose proof (IH rest ltac:(lia) Hs) as Hrest.
      destruct (split ","%char rest) as [|q qs]; [congruence|].
      change (rstrip (lstrip t) :: trim_after_comma (q :: qs)
              = strip t :: map strip (q :: qs)).
      unfold strip at 1. f_equal. exact Hrest.
Qed.

End MoreTags.

(** X16: for a tags string that is not empty, the list of the tags has one
    more element than the string has commas, and no tag holds a comma. *)
Theorem gen_metadata_tags_count (pg : page) (a : args) :
  truthy (a_tags a) = true ->
  length (md_tags (gen_metadata pg a))
  = S (count_occ ascii_dec (a_tags a) ","%char)
  /\ forall t, In t (md_tags (gen_metadata pg a)) -> ~ In ","%char t.
Proof.
  intros Ht. unfold gen_metadata. cbn [md_tags]. rewrite Ht, tags_split.
  split; [apply comma_trimmed_length|apply comma_trimmed_no_comma].
Qed.

Lemma gen_metadata_tags_count_witness :
  length (md_tags (gen_metadata untitled_page spaced_tags_args))
  = S (count_occ ascii_dec (a_tags spaced_tags_args) ","%char)
  /\ forall t, In t (md_tags (gen_metadata untitled_page spaced_tags_args)) ->
               ~ In ","%char t.
Proof. apply gen_metadata_tags_count. reflexivity. Defined.

(** X17: no tag but the first starts with white space, and no tag but the
    last ends with white space. *)
Theorem gen_metadata_tags_inner_space (pg : page) (a : args) :
  Forall (fun t => lstrip t = t) (tl (md_tags (gen_metadata pg a)))
  /\ Forall (fun t => rstrip t = t) (removelast (md_tags (gen_metadata pg a))).
Proof.
  unfold gen_metadata. cbn [md_tags].
  destruct (truthy (a_tags a)); [|split; constructor].
  rewrite tags_split. unfold comma_trimmed.
  destruct (split ","%char (a_tags a)) as [|p [|q ps]].
  - split; constructor.
  - split; constructor.
  - destruct (trim_after_comma_stripped (q :: ps)) as [Hl Hr].
    split; [exact Hl|].
    pose proof (trim_after_comma_length (q :: ps)) as Hlen.
    destruct (trim_after_comma (q :: ps)) as [|x xs] eqn:E;
      [simpl in Hlen; discriminate|].
    change (removelast (rstrip p :: x :: xs))
      with (rstrip p :: removelast (x :: xs)).
    constructor; [apply rstrip_idempotent|exact Hr].
Qed.

(** X18: for a tags string that neither starts nor ends with white space,
    the tags are the pieces between the commas, each trimmed on both
    sides. *)
Theorem gen_metadata_tags_trimmed (pg : page) (a : args) :
  truthy (a_tags a) = true ->
  lstrip (a_tags a) = a_tags a -> rstrip (a_tags a) = a_tags a ->
  md_tags (gen_metadata pg a) = trimmed_tags (a_tags a).
Proof.
  intros Ht Hl Hr. unfold gen_metadata. cbn [md_tags]. rewrite Ht, tags_split.
  unfold comma_trimmed, trimmed_tags.
  destruct (split_cases (a_tags a)) as [(Hno & Hsp)|(t & rest & Hs & Hno & Hsp)].
  - rewrite Hsp. cbn [map]. unfold strip. now rewrite Hl, Hr.
  - rewrite Hsp. rewrite Hs in Hl, Hr.
    rewrite lstrip_app_comma in Hl. apply app_inv_tail in Hl.
    rewrite rstrip_app_comma in Hr. apply app_inv_head in Hr.
    injection Hr as Hr.
    pose proof (split_nonempty ","%char rest) as Hne.
    pose proof (trim_after_comma_strip (length rest) rest (le_n _) Hr) as Hrest.
    destruct (split ","%char rest) as [|q qs]; [congruence|].
    cbn [map]. unfold strip at 1. rewrite Hl. f_equal. exact Hrest.
Qed.

Lemma gen_metadata_tags_trimmed_witness :
  md_tags (gen_metadata untitled_page
             {| a_title := []; a_desc := []; a_tags := lit "a , b,c";
                a_url := [] |})
  = trimmed_tags (lit "a , b,c").
Proof.
  apply gen_metadata_tags_trimmed; vm_compute; reflexivity.
Defined.

(** ** [main] *)

Lemma expand_all_plain (raw_urls : list text) :
  (forall u, In u raw_urls -> ~ In "{"%char u \/ ~ In "}"%char u) ->
  expand_all raw_urls = Ok raw_urls.
Proof.
  induction raw_urls as [|u rest IH]; intros H; [reflexivity|].
  cbn [expand_all]. rewrite (expand_url_unbraced u (H u (or_introl eq_refl))).
  cbn [bind]. rewrite IH; [reflexivity|].
  intros v Hv. apply H. now right.
Qed.

Lemma expand_all_some (raw_urls urls : list text) :
  raw_urls <> [] -> expand_all raw_urls = Ok urls -> urls <> [].
Proof.
  destruct raw_urls as [|u rest]; [congruence|]. intros _.
  cbn [expand_all].
  destruct (expand_url u) as [us|msg] eqn:Eu; [|discriminate]. cbn [bind].
  destruct (expand_all rest) as [vs|msg]; [|discriminate]. cbn [bind].
  intros H. injection H as <-. intros E. apply app_eq_nil in E as [E _].
  exact (expand_url_some _ _ Eu E).
Qed.

Lemma expand_all_raise (raw_urls : list text) (raw : text) (msg : string) :
  In raw raw_urls -> expand_url raw = Raise msg ->
  expand_all raw_urls = Raise "Negative dotexpansion not supported".
Proof.
  induction raw_urls as [|u rest IH]; intros Hin Hraw; [destruct Hin|].
  cbn [expand_all].
  destruct (expand_url u) as [us|m] eqn:Eu.
  - cbn [bind]. destruct Hin as [->|Hin]; [congruence|].
    now rewrite (IH Hin Hraw).
  - cbn [bind]. now rewrite (expand_url_raise _ _ Eu).
Qed.

(** X19: with at least one URL on the command line, once the expansion and
    the downloads have succeeded there is a first page, so that [main] goes
    on to [create_directory] with the metadata of that page and then to
    [save_pages]: indexing [pages] with 0 does not fail. *)
Theorem main_uses_first_page :
  forall (settings : Type) (re_match : text -> text -> nat -> result bool)
         (extract : text -> settings -> result page)
         (FS : Type) (write_file : text -> text -> FS -> FS * result unit)
         (render : text -> page -> result text)
         (create_directory : text -> metadata -> FS -> FS * result text)
         (a : args) (entries : list (text * settings)) (root : text)
         (fs : FS) (urls : list text) (pages : list page),
    a_url a <> [] ->
    expand_all (a_url a) = Ok urls ->
    download_pages settings re_match extract entries (length urls) 0 urls
    = Ok pages ->
    exists first rest,
      pages = first :: rest
      /\ main settings re_match extract FS write_file render create_directory
              a entries root fs
         = match create_directory root (gen_metadata first a) fs with
           | (fs', Raise msg) => (fs', Raise msg)
           | (fs', Ok dirname) =>
               save_pages FS write_file render dirname
                          (md_title (gen_metadata first a)) pages fs'
           end.
Proof.
  intros settings re_match extract FS write_file render create_directory a
         entries root fs urls pages Hne He Hd.
  pose proof (expand_all_some _ _ Hne He) as Hu.
  pose proof (download_pages_each _ _ _ _ _ _ _ _ Hd) as Hall.
  destruct pages as [|pg pgs]; [inversion Hall; congruence|].
  exists pg, pgs. split; [reflexivity|].
  unfold main. rewrite He, Hd. reflexivity.
Qed.

Lemma main_uses_first_page_witness :
  exists first rest,
    map (rules_page 1) [lit "http://a.com/1"; lit "http://a.com/2"]
    = first :: rest
    /\ main nat literal_match page_of_rules disk disk_write plain_render
            mkdir_title range_args two_entries (lit "/r") []
       = match mkdir_title (lit "/r") (gen_metadata first range_args) [] with
         | (fs', Raise msg) => (fs', Raise msg)
         | (fs', Ok dirname) =>
             save_pages disk disk_write plain_render dirname
                        (md_title (gen_metadata first range_args))
                        (map (rules_page 1)
                             [lit "http://a.com/1"; lit "http://a.com/2"]) fs'
         end.
Proof.
  apply (main_uses_first_page nat literal_match page_of_rules disk disk_write
           plain_render mkdir_title range_args two_entries (lit "/r") []
           [lit "http://a.com/1"; lit "http://a.com/2"]).
  - discriminate.
  - vm_compute. reflexivity.
  - vm_compute. reflexivity.
Defined.

(** X20: a range that runs downwards in any URL of the command line ends
    [main] with the exception of [expand_url], before any page is fetched
    and with no file written. *)
Theorem main_negative_range :
  forall (settings : Type) (re_match : text -> text -> nat -> result bool)
         (extract : text -> settings -> result page)
         (FS : Type) (write_file : text -> text -> FS -> FS * result unit)
         (render : text -> page -> result text)
         (create_directory : text -> metadata -> FS -> FS * result text)
         (a : args) (entries : list (text * settings)) (root : text)
         (fs : FS) (raw : text) (d : Re.rmatch),
    In raw (a_url a) ->
    Re.search dotexp_re raw = Some d ->
    int (Re.group d 3) < int (Re.group d 2) ->
    main settings re_match extract FS write_file render create_directory
         a entries root fs
    = (fs, Raise "Negative dotexpansion not supported").
Proof.
  intros settings re_match extract FS write_file render create_directory a
         entries root fs raw d Hin Hd Hlt.
  assert (Hraw : expand_url raw = Raise "Negative dotexpansion not supported").
  { unfold expand_url. rewrite Hd.
    apply Nat.ltb_lt in Hlt. now rewrite Hlt. }
  unfold main. now rewrite (expand_all_raise _ _ _ Hin Hraw).
Qed.

Lemma main_negative_range_witness :
  main nat literal_match page_of_rules disk disk_write plain_render mkdir_title
       downward_args two_entries (lit "/r") []
  = ([], Raise "Negative dotexpansion not supported").
Proof.
  apply (main_negative_range nat literal_match page_of_rules disk disk_write
           plain_render mkdir_title downward_args two_entries (lit "/r") []
           (lit "http://x.com/{5..1}") negative_example_match).
  - right. left. reflexivity.
  - vm_compute. reflexivity.
  - vm_compute. repeat constructor.
Defined.

(** X21: when no URL of the command line holds both an opening and a
    closing brace, the URLs that [main] downloads are the arguments
    themselves, in their order.  When one of these downloads fails, [main]
    ends with its exception in the state in which it started: neither
    [create_directory] nor [save_pages] is reached. *)
Theorem main_plain_urls :
  forall (settings : Type) (re_match : text -> text -> nat -> result bool)
         (extract : text -> settings -> result page)
         (FS : Type) (write_file : text -> text -> FS -> FS * result unit)
         (render : text -> page -> result text)
         (create_directory : text -> metadata -> FS -> FS * result text)
         (a : args) (entries : list (text * settings)) (root : text)
         (fs : FS),
    (forall u, In u (a_url a) -> ~ In "{"%char u \/ ~ In "}"%char u) ->
    expand_all (a_url a) = Ok (a_url a)
    /\ (forall msg,
          download_pages settings re_match extract entries
                         (length (a_url a)) 0 (a_url a) = Raise msg ->
          main settings re_match extract FS write_file render
               create_directory a entries root fs = (fs, Raise msg))
    /\ (forall first rest,
          download_pages settings re_match extract entries
                         (length (a_url a)) 0 (a_url a) = Ok (first :: rest) ->
          main settings re_match extract FS write_file render
               create_directory a entries root fs
          = match create_directory root (gen_metadata first a) fs with
            | (fs', Raise msg) => (fs', Raise msg)
            | (fs', Ok dirname) =>
                save_pages FS write_file render dirname
                           (md_title (gen_metadata first a)) (first :: rest)
                           fs'
            end).
Proof.
  intros settings re_match extract FS write_file render create_directory a
         entries root fs H.
  pose proof (expand_all_plain _ H) as He. split; [exact He|]. split.
  - intros msg Hd. unfold main. now rewrite He, Hd.
  - intros first rest Hd. unfold main. now rewrite He, Hd.
Qed.

Lemma main_plain_urls_witness :
  main nat literal_match page_of_rules disk disk_write plain_render
       mkdir_title plain_args two_entries (lit "/r") []
  = ([], Raise "No matching config entry").
Proof.
  refine (proj1 (proj2 (main_plain_urls nat literal_match page_of_rules disk
                          disk_write plain_render mkdir_title plain_args
                          two_entries (lit "/r") [] _)) _ _).
  - intros u [<-|[<-|[]]]; left; absent_char.
  - vm_compute. reflexivity.
Defined.
